(** * Chess_RF: feature extraction and negamax search of [play_game.py]

    A shallow embedding of the two functions of [play_game.py] that carry the
    algorithmic content of the engine, [extract_features] and [negamax],
    together with the properties the specification states about them.

    The program is written against the [chess] package (python-chess) and a
    regressor loaded from disk.  Both are collaborators that the program
    only calls: the board is an abstract type with the operations the
    program uses ([ChessEngine]), and the regressor is the [model] argument
    of [negamax], a function from feature vectors to numbers. *)

From Stdlib Require Import ZArith List Bool Orders OrdersTac.
From stdpp Require Import base decidable option list numbers gmap strings.

#[local] Open Scope Z_scope.
#[local] Set Warnings "-clear-no-such-hyp".

(** ** Scores

    Evaluations are Python floats: the finite values predicted by the
    regressor, and the two infinities the search writes as
    [float('inf')] and [-float('inf')].  The search only negates and compares
    them, both of which are exact on floats, so a finite score is modelled
    by an integer (any totally ordered set with an order-reversing negation
    would do) and the infinities are kept apart. *)

Inductive score : Type :=
  | NegInf
  | Fin (x : Z)
  | PosInf.

(** Unary minus. *)
Definition score_opp (s : score) : score :=
  match s with
  | NegInf => PosInf
  | Fin x => Fin (- x)
  | PosInf => NegInf
  end.

Definition score_compare (a b : score) : comparison :=
  match a, b with
  | NegInf, NegInf => Eq
  | NegInf, _ => Lt
  | Fin _, NegInf => Gt
  | Fin x, Fin y => x ?= y
  | Fin _, PosInf => Lt
  | PosInf, PosInf => Eq
  | PosInf, _ => Gt
  end.

(** [a < b], [a > b] and [a >= b] of Python. *)
Definition score_ltb (a b : score) : bool :=
  match score_compare a b with Lt => true | _ => false end.

Definition score_gtb (a b : score) : bool := score_ltb b a.

Definition score_geb (a b : score) : bool :=
  match score_compare a b with Lt => false | _ => true end.

(** The builtin [max(a, b)] of two arguments keeps the first one unless the
    second is strictly greater. *)
Definition score_max (a b : score) : score :=
  if score_gtb b a then b else a.

(** The order as propositions. *)
Definition score_lt (a b : score) : Prop := score_compare a b = Lt.
Definition score_le (a b : score) : Prop := score_compare a b <> Gt.

(** ** The board interface

    What [play_game.py] asks of a [chess.Board].  Colours are the booleans
    of python-chess ([chess.WHITE = True]), piece types its integers 1..6 and
    squares its integers 0..63 (a1 = 0, h8 = 63). *)

Definition WHITE : bool := true.
Definition BLACK : bool := false.

Definition PAWN : Z := 1.
Definition KNIGHT : Z := 2.
Definition BISHOP : Z := 3.
Definition ROOK : Z := 4.
Definition QUEEN : Z := 5.
Definition KING : Z := 6.

Record Piece : Type := mkPiece { piece_type : Z; color : bool }.

Class ChessEngine (Board Move : Type) : Type := {
  (** [board.piece_at(square)] *)
  piece_at : Board -> Z -> option Piece;
  (** [board.attackers(color, square)], a set of squares *)
  attackers : Board -> bool -> Z -> gset Z;
  has_kingside_castling_rights : Board -> bool -> bool;
  has_queenside_castling_rights : Board -> bool -> bool;
  (** [board.king(color)], [None] when that king is not on the board *)
  king : Board -> bool -> option Z;
  (** [board.turn] *)
  turn : Board -> bool;
  (** [board.legal_moves], in generation order *)
  legal_moves : Board -> list Move;
  fullmove_number : Board -> Z;
  is_game_over : Board -> bool;
  (** [board.push(move)] and [board.pop()]: the board is one mutable object,
      so both are functions on its state; [pop] raises on an empty stack. *)
  push : Board -> Move -> Board;
  pop : Board -> option Board;
}.

(** [chess.square_file], [chess.square_rank], [chess.SQUARES] and the four
    centre squares, with the values python-chess gives them. *)
Definition square_file (square : Z) : Z := Z.land square 7.
Definition square_rank (square : Z) : Z := Z.shiftr square 3.
Definition SQUARES : list Z := seqZ 0 64.

Definition D4 : Z := 27.
Definition E4 : Z := 28.
Definition D5 : Z := 35.
Definition E5 : Z := 36.

(** ** Module-level constants of [play_game.py] *)

(** [PIECE_VALUES] is iterated in insertion order, so it is an association
    list. *)
Definition PIECE_VALUES : list (Z * Z) :=
  [(PAWN, 1); (KNIGHT, 3); (BISHOP, 3); (ROOK, 5); (QUEEN, 9)].

Definition CENTER_SQUARES : list Z := [D4; E4; D5; E5].

(** ** Python values and dictionary access *)

(** An entry of the feature list: an [int], or the [None] that
    [board.king] may return. *)
Inductive pyval : Type :=
  | PyInt (z : Z)
  | PyNone.

Definition is_numeric (v : pyval) : Prop :=
  match v with PyInt _ => True | PyNone => False end.

Definition of_option (o : option Z) : pyval :=
  match o with Some z => PyInt z | None => PyNone end.

(** [int(b)] *)
Definition int_of_bool (b : bool) : Z := if b then 1 else 0.

(** [d.keys()], [k in d] and [d.get(k, default)] on an insertion-ordered
    dictionary. *)
Definition dict_keys {V : Type} (d : list (Z * V)) : list Z := map fst d.

Definition dict_get {V : Type} (d : list (Z * V)) (k : Z) (dflt : V) : V :=
  match find (fun kv => fst kv =? k) d with
  | Some kv => snd kv
  | None => dflt
  end.

Definition dict_has {V : Type} (d : list (Z * V)) (k : Z) : bool :=
  existsb (fun k' => k' =? k) (dict_keys d).

(** [d[k] = f(d[k])]: the subscript raises [KeyError] on a missing key. *)
Definition dict_update `{Countable K} {V : Type}
    (d : gmap K V) (k : K) (f : V -> V) : option (gmap K V) :=
  v ← d !! k; Some (<[k := f v]> d).

(** [sum(f(x) for x in l)] where evaluating [f(x)] may raise. *)
Fixpoint sum_over {A : Type} (l : list A) (f : A -> option Z) : option Z :=
  match l with
  | [] => Some 0
  | x :: l' => v ← f x; s ← sum_over l' f; Some (v + s)
  end.

(** ** [extract_features]: the local variables of the scan over the squares *)

Record locals : Type := mkLocals {
  material_white : Z;
  material_black : Z;
  piece_counts : gmap (bool * Z) Z;
  center_control_white : Z;
  center_control_black : Z;
  white_in_black_half : Z;
  black_in_white_half : Z;
  pawn_files : gmap bool (gset Z);
  all_pawns : gmap bool (list Z);
  open_files : gset Z;
  halfopen_files : gmap bool (gset Z);
  outpost_knights : gmap bool Z;
  developed_minors : gmap bool Z;
  defended_pieces : gmap bool Z;
}.

(** [{WHITE: v, BLACK: v}] *)
Definition by_color {V : Type} (v : V) : gmap bool V :=
  <[BLACK := v]> (<[WHITE := v]> ∅).

(** Lines 23-37. *)
Definition initial_locals : locals := {|
  material_white := 0;
  material_black := 0;
  piece_counts :=
    list_to_map
      (flat_map (fun color => map (fun ptype => ((color, ptype), 0))
                                  (dict_keys PIECE_VALUES))
                [WHITE; BLACK]);
  center_control_white := 0;
  center_control_black := 0;
  white_in_black_half := 0;
  black_in_white_half := 0;
  pawn_files := by_color ∅;
  all_pawns := by_color [];
  open_files := list_to_set (seqZ 0 8);
  halfopen_files := by_color ∅;
  outpost_knights := by_color 0;
  developed_minors := by_color 0;
  defended_pieces := by_color 0;
|}.

Section Features.
Context {Board Move : Type} `{!ChessEngine Board Move}.

(** Line 39: the dictionary the function builds first and never reads. *)
Definition attackers_cache (board : Board) : gmap Z (gset Z) :=
  list_to_map
    (map (fun square =>
            (square, attackers board WHITE square ∪ attackers board BLACK square))
         SQUARES).

(** Line 87: [any(board.piece_at(a).piece_type == chess.PAWN
    for a in attackers if board.piece_at(a))]. *)
Definition attacked_by_pawn (board : Board) (atts : gset Z) : bool :=
  existsb (fun p => piece_type p =? PAWN)
          (omap (piece_at board) (elements atts)).

(** Lines 43-97, one pass of the loop body.  Every section of the body
    updates locals of its own, so the new value of each local is written
    next to its field; the dictionary subscripts come first because they
    are what can raise. *)
Definition scan_square (board : Board) (square : Z) (st : locals)
    : option locals :=
  match piece_at board square with
  | None => Some st
  | Some piece =>
    let color := color piece in
    let ptype := piece_type piece in
    let rank := square_rank square in
    let file := square_file square in
    let value := dict_get PIECE_VALUES ptype 0 in
    piece_counts' ←
      (if dict_has PIECE_VALUES ptype
       then dict_update (piece_counts st) (color, ptype) (fun n => n + 1)
       else Some (piece_counts st));
    pawn_files' ←
      (if ptype =? PAWN
       then dict_update (pawn_files st) color (fun s => s ∪ {[file]})
       else Some (pawn_files st));
    all_pawns' ←
      (if ptype =? PAWN
       then dict_update (all_pawns st) color (fun l => l ++ [square])
       else Some (all_pawns st));
    halfopen_files' ←
      (if ptype =? PAWN
       then dict_update (halfopen_files st) color (fun s => s ∪ {[file]})
       else Some (halfopen_files st));
    outpost_knights' ←
      (if (ptype =? KNIGHT)
          && ((eqb color WHITE && (4 <=? rank))
              || (eqb color BLACK && (rank <=? 3)))
       then
         let opp_color := negb color in
         let atts := attackers board opp_color square in
         if negb (attacked_by_pawn board atts)
         then dict_update (outpost_knights st) color (fun n => n + 1)
         else Some (outpost_knights st)
       else Some (outpost_knights st));
    developed_minors' ←
      (if existsb (fun t => t =? ptype) [BISHOP; KNIGHT]
          && ((eqb color WHITE && (0 <? rank))
              || (eqb color BLACK && (rank <? 7)))
       then dict_update (developed_minors st) color (fun n => n + 1)
       else Some (developed_minors st));
    defended_pieces' ←
      (if 0 <? Z.of_nat (size (attackers board color square))
       then dict_update (defended_pieces st) color (fun n => n + 1)
       else Some (defended_pieces st));
    Some {|
      material_white :=
        if eqb color WHITE then material_white st + value
        else material_white st;
      material_black :=
        if eqb color WHITE then material_black st
        else material_black st + value;
      piece_counts := piece_counts';
      center_control_white :=
        if existsb (fun c => c =? square) CENTER_SQUARES && eqb color WHITE
        then center_control_white st + 1 else center_control_white st;
      center_control_black :=
        if existsb (fun c => c =? square) CENTER_SQUARES
           && negb (eqb color WHITE)
        then center_control_black st + 1 else center_control_black st;
      white_in_black_half :=
        if eqb color WHITE && (4 <=? rank)
        then white_in_black_half st + 1 else white_in_black_half st;
      black_in_white_half :=
        if eqb color WHITE && (4 <=? rank) then black_in_white_half st
        else if eqb color BLACK && (rank <=? 3)
             then black_in_white_half st + 1 else black_in_white_half st;
      pawn_files := pawn_files';
      all_pawns := all_pawns';
      open_files :=
        if ptype =? PAWN then open_files st ∖ {[file]} else open_files st;
      halfopen_files := halfopen_files';
      outpost_knights := outpost_knights';
      developed_minors := developed_minors';
      defended_pieces := defended_pieces';
    |}
  end.

(** Line 42: [for square in chess.SQUARES]. *)
Fixpoint scan (board : Board) (squares : list Z) (st : locals)
    : option locals :=
  match squares with
  | [] => Some st
  | square :: rest => st' ← scan_square board square st; scan board rest st'
  end.

(** Lines 136-140; [doubled_pawns_of] is the part of the sum that one
    colour contributes. *)
Definition doubled_pawns_of (st : locals) (color : bool) : option Z :=
  files ← pawn_files st !! color;
  sum_over (elements files) (fun file =>
    pawns ← all_pawns st !! color;
    Some (int_of_bool
            (1 <? Z.of_nat
                    (length (filter (fun sq => square_file sq = file) pawns))))).

Definition doubled_pawns (st : locals) : option Z :=
  sum_over [WHITE; BLACK] (doubled_pawns_of st).

(** Lines 143-150. *)
Definition isolated_pawns_of (st : locals) (color : bool) : option Z :=
  files ← pawn_files st !! color;
  sum_over (elements files) (fun file =>
    Some (int_of_bool
            (forallb (fun offset => bool_decide (file + offset ∉ files))
                     [-1; 1]))).

Definition isolated_pawns (st : locals) : option Z :=
  sum_over [WHITE; BLACK] (isolated_pawns_of st).

(** Lines 105-107. *)
Fixpoint count_features (st : locals) (ptypes : list Z)
    : option (list pyval) :=
  match ptypes with
  | [] => Some []
  | ptype :: rest =>
    w ← piece_counts st !! (WHITE, ptype);
    b ← piece_counts st !! (BLACK, ptype);
    more ← count_features st rest;
    Some (PyInt w :: PyInt b :: more)
  end.

(** Lines 153-154. *)
Fixpoint halfopen_features (st : locals) (colors : list bool)
    : option (list pyval) :=
  match colors with
  | [] => Some []
  | color :: rest =>
    files ← halfopen_files st !! color;
    more ← halfopen_features st rest;
    Some (PyInt (Z.of_nat (size files)) :: more)
  end.

(** Lines 100-171: the feature list, in the order of the [append]s. *)
Definition build_features (board : Board) (st : locals)
    : option (list pyval) :=
  counts ← count_features st (dict_keys PIECE_VALUES);
  doubled ← doubled_pawns st;
  isolated ← isolated_pawns st;
  halfopen ← halfopen_features st [WHITE; BLACK];
  outpost_w ← outpost_knights st !! WHITE;
  outpost_b ← outpost_knights st !! BLACK;
  developed_w ← developed_minors st !! WHITE;
  developed_b ← developed_minors st !! BLACK;
  defended_w ← defended_pieces st !! WHITE;
  defended_b ← defended_pieces st !! BLACK;
  Some ([ PyInt (material_white st);
          PyInt (material_black st);
          PyInt (material_white st - material_black st) ]
        ++ counts
        ++ [ PyInt (int_of_bool (has_kingside_castling_rights board WHITE));
             PyInt (int_of_bool (has_queenside_castling_rights board WHITE));
             PyInt (int_of_bool (has_kingside_castling_rights board BLACK));
             PyInt (int_of_bool (has_queenside_castling_rights board BLACK));
             of_option (king board WHITE);
             of_option (king board BLACK);
             PyInt (int_of_bool (turn board));
             PyInt (center_control_white st);
             PyInt (center_control_black st);
             PyInt (white_in_black_half st);
             PyInt (black_in_white_half st);
             PyInt (Z.of_nat (length (legal_moves board)));
             PyInt (fullmove_number board);
             PyInt doubled;
             PyInt isolated ]
        ++ halfopen
        ++ [ PyInt (Z.of_nat (size (open_files st)));
             PyInt outpost_w;
             PyInt outpost_b;
             PyInt developed_w;
             PyInt developed_b;
             PyInt defended_w;
             PyInt defended_b ]).

(** [extract_features(board)]; [None] stands for a raised exception. *)
Definition extract_features (board : Board) : option (list pyval) :=
  st ← scan board SQUARES initial_locals;
  build_features board st.

End Features.

(** ** [negamax]

    A call either returns, raises, or (in the model only) exhausts its
    recursion fuel.  [depth] is a Python integer and nothing in the function
    makes it non-negative, so the recursion is bounded by fuel, not by
    [depth]. *)

Inductive outcome (A : Type) : Type :=
  | Returned (a : A)
  | Raised
  | OutOfFuel.

Arguments Returned {A} a.
Arguments Raised {A}.
Arguments OutOfFuel {A}.

Section Search.
Context {Board Move : Type} `{!ChessEngine Board Move}.

(** The regressor: [model.predict([features])[0]]. *)
Variable model : list pyval -> Z.

(** Lines 176-179; [None] when [extract_features] raises. *)
Definition leaf_score (board : Board) : option score :=
  features ← extract_features board;
  let eval := Fin (model features) in
  Some (if eqb (turn board) WHITE then eval else score_opp eval).

(** A call returns [(score, move)] and leaves the board in some state. *)
Definition result : Type := (score * option Move) * Board.

(** Lines 185-197: the loop over the moves that are still to be tried.
    [recur] is the recursive call; [board.legal_moves] is read when the
    loop starts, and each pass finds the board as the previous one left
    it. *)
Fixpoint negamax_loop
    (recur : Board -> score -> score -> Z -> outcome result)
    (moves : list Move) (board : Board) (alpha beta : score) (depth : Z)
    (max_eval : score) (best_move : option Move) : outcome result :=
  match moves with
  | [] => Returned ((max_eval, best_move), board)
  | move :: rest =>
    let board := push board move in
    match recur board (score_opp beta) (score_opp alpha) (depth - 1) with
    | Returned ((eval, _), board) =>
      let eval := score_opp eval in
      match pop board with
      | None => Raised
      | Some board =>
        let '(max_eval, best_move) :=
          if score_gtb eval max_eval then (eval, Some move)
          else (max_eval, best_move) in
        let alpha := score_max alpha eval in
        if score_geb alpha beta
        then Returned ((max_eval, best_move), board)
        else negamax_loop recur rest board alpha beta depth max_eval best_move
      end
    | Raised => Raised
    | OutOfFuel => OutOfFuel
    end
  end.

(** Lines 174-199. *)
Fixpoint negamax_fuel (fuel : nat) (board : Board) (alpha beta : score)
    (depth : Z) : outcome result :=
  match fuel with
  | O => OutOfFuel
  | S fuel =>
    if (depth =? 0) || is_game_over board then
      match leaf_score board with
      | Some score => Returned ((score, None), board)
      | None => Raised
      end
    else
      negamax_loop (negamax_fuel fuel) (legal_moves board)
                   board alpha beta depth NegInf None
  end.

(** *** The same function with a record of what it did

    [calls] lists the window [(alpha, beta)] of every invocation, the
    outermost one first; [examined] lists, for the outermost invocation
    only, the moves its loop tried with the value [eval] each one got. *)

Record observed : Type := mkObserved {
  calls : list (score * score);
  examined : list (Move * score);
}.

Fixpoint negamax_loop_obs
    (recur : Board -> score -> score -> Z -> outcome result * observed)
    (moves : list Move) (board : Board) (alpha beta : score) (depth : Z)
    (max_eval : score) (best_move : option Move)
    : outcome result * observed :=
  match moves with
  | [] => (Returned ((max_eval, best_move), board), mkObserved [] [])
  | move :: rest =>
    let board := push board move in
    let '(out, sub) :=
      recur board (score_opp beta) (score_opp alpha) (depth - 1) in
    match out with
    | Returned ((eval, _), board) =>
      let eval := score_opp eval in
      match pop board with
      | None => (Raised, mkObserved (calls sub) [])
      | Some board =>
        let '(max_eval, best_move) :=
          if score_gtb eval max_eval then (eval, Some move)
          else (max_eval, best_move) in
        let alpha := score_max alpha eval in
        if score_geb alpha beta
        then (Returned ((max_eval, best_move), board),
              mkObserved (calls sub) [(move, eval)])
        else
          let '(out', more) :=
            negamax_loop_obs recur rest board alpha beta depth
                             max_eval best_move in
          (out', mkObserved (calls sub ++ calls more)
                            ((move, eval) :: examined more))
      end
    | Raised => (Raised, mkObserved (calls sub) [])
    | OutOfFuel => (OutOfFuel, mkObserved (calls sub) [])
    end
  end.

Fixpoint negamax_obs (fuel : nat) (board : Board) (alpha beta : score)
    (depth : Z) : outcome result * observed :=
  match fuel with
  | O => (OutOfFuel, mkObserved [] [])
  | S fuel =>
    if (depth =? 0) || is_game_over board then
      (match leaf_score board with
       | Some score => Returned ((score, None), board)
       | None => Raised
       end, mkObserved [(alpha, beta)] [])
    else
      let '(out, obs) :=
        negamax_loop_obs (negamax_obs fuel) (legal_moves board)
                         board alpha beta depth NegInf None in
      (out, mkObserved ((alpha, beta) :: calls obs) (examined obs))
  end.

(** The value of [alpha] after the loop has seen the given values. *)
Definition running_alpha (alpha : score) (evals : list score) : score :=
  fold_left score_max evals alpha.

(** *** The search as a function of the position

    What a call computes when every [pop] undoes the [push] before it:
    the child position is [push board move], and nothing else of the
    board's state matters. *)

(** The leaf value; [extract_features] never raises (see
    [extract_features_returns]), so the default is never taken. *)
Definition static_eval (board : Board) : score :=
  default NegInf (leaf_score board).

Fixpoint alphabeta_loop
    (recur : Board -> score -> score -> score * option Move)
    (moves : list Move) (board : Board) (alpha beta : score)
    (max_eval : score) (best_move : option Move) : score * option Move :=
  match moves with
  | [] => (max_eval, best_move)
  | move :: rest =>
    let eval :=
      score_opp (fst (recur (push board move)
                            (score_opp beta) (score_opp alpha))) in
    let '(max_eval, best_move) :=
      if score_gtb eval max_eval then (eval, Some move)
      else (max_eval, best_move) in
    let alpha := score_max alpha eval in
    if score_geb alpha beta then (max_eval, best_move)
    else alphabeta_loop recur rest board alpha beta max_eval best_move
  end.

Fixpoint alphabeta (depth : nat) (board : Board) (alpha beta : score)
    : score * option Move :=
  match depth with
  | O => (static_eval board, None)
  | S depth =>
    if is_game_over board then (static_eval board, None)
    else alphabeta_loop (alphabeta depth) (legal_moves board)
                        board alpha beta NegInf None
  end.

(** *** The reference: full-width negamax

    The search of the specification without a window: every legal move
    of every position down to the horizon is examined, in generation
    order, and a move replaces the best one only when its value is
    strictly greater. *)

Fixpoint full_loop (recur : Board -> score * option Move)
    (moves : list Move) (board : Board)
    (best_score : score) (best_move : option Move) : score * option Move :=
  match moves with
  | [] => (best_score, best_move)
  | move :: rest =>
    let value := score_opp (fst (recur (push board move))) in
    if score_gtb value best_score
    then full_loop recur rest board value (Some move)
    else full_loop recur rest board best_score best_move
  end.

Fixpoint full_negamax (depth : nat) (board : Board) : score * option Move :=
  match depth with
  | O => (static_eval board, None)
  | S depth =>
    if is_game_over board then (static_eval board, None)
    else full_loop (full_negamax depth) (legal_moves board)
                   board NegInf None
  end.

End Search.

(** ** What the program takes for granted about python-chess *)

Section Contract.
Context {Board Move : Type} `{!ChessEngine Board Move}.

(** [board.pop()] undoes the last [board.push(move)]. *)
Definition pop_undoes_push : Prop :=
  forall (board : Board) (move : Move), pop (push board move) = Some board.

(** A position without a legal move is checkmate or stalemate, and
    [is_game_over] reports both. *)
Definition game_over_when_stuck : Prop :=
  forall board : Board, legal_moves board = [] -> is_game_over board = true.

(** A position of a game has both kings on the board. *)
Definition both_kings (board : Board) : Prop :=
  is_Some (king board WHITE) /\ is_Some (king board BLACK).

End Contract.

(** ** A small instance of the interface

    A board with a fixed placement of pieces and a two-ply game on top of it:
    the side in [starts] and then the other have the moves [0] and [1] once,
    then the game is over.  The placement feeds [extract_features]; the
    line that was played decides the full-move counter, which is what
    [sample_model] reads, so that different lines evaluate differently. *)

Record sample_board : Type := mkSample {
  placement : list (Z * Piece);
  starts : bool;
  line : list nat;
}.

Definition sample_counter (l : list nat) : Z :=
  match l with
  | [] => 1
  | [a] => 2 + Z.of_nat a
  | b :: a :: _ => 4 + 2 * Z.of_nat a * Z.of_nat b
  end.

#[export] Instance sample_engine : ChessEngine sample_board nat := {|
  piece_at b sq := snd <$> find (fun p => fst p =? sq) (placement b);
  attackers _ _ _ := ∅;
  has_kingside_castling_rights _ _ := false;
  has_queenside_castling_rights _ _ := false;
  king b c :=
    fst <$> find (fun p => (piece_type (snd p) =? KING) && eqb (color (snd p)) c)
                 (placement b);
  turn b := if Nat.even (length (line b)) then starts b else negb (starts b);
  legal_moves b := if (length (line b) <? 2)%nat then [0%nat; 1%nat] else [];
  fullmove_number b := sample_counter (line b);
  is_game_over b := (2 <=? length (line b))%nat;
  push b m := mkSample (placement b) (starts b) (m :: line b);
  pop b :=
    match line b with
    | [] => None
    | _ :: l => Some (mkSample (placement b) (starts b) l)
    end;
|}.

(** Reads the full-move counter, entry 25 of the feature list. *)
Definition sample_model (features : list pyval) : Z :=
  match features !! 25%nat with
  | Some (PyInt z) => z
  | _ => 0
  end.

(** White: Ke1, Qd1, pawns a2 and a3.  Black: Ke8, pawn h7. *)
Definition sample_start : sample_board :=
  mkSample [ (4, mkPiece KING WHITE); (3, mkPiece QUEEN WHITE);
             (8, mkPiece PAWN WHITE); (16, mkPiece PAWN WHITE);
             (60, mkPiece KING BLACK); (55, mkPiece PAWN BLACK) ] WHITE [].

(** [sample_start] with the colours exchanged and the ranks flipped. *)
Definition sample_mirror : sample_board :=
  mkSample [ (60, mkPiece KING BLACK); (59, mkPiece QUEEN BLACK);
             (48, mkPiece PAWN BLACK); (40, mkPiece PAWN BLACK);
             (4, mkPiece KING WHITE); (15, mkPiece PAWN WHITE) ] BLACK [].

(** ** Quantities the properties are stated with *)

Section Measures.
Context {Board Move : Type} `{!ChessEngine Board Move}.

(** The material a square adds to one side's total. *)
Definition material_on (board : Board) (side : bool) (square : Z) : Z :=
  match piece_at board square with
  | Some piece =>
    if eqb (color piece) side
    then dict_get PIECE_VALUES (piece_type piece) 0 else 0
  | None => 0
  end.

(** Whether a square holds a pawn of the given side. *)
Definition pawn_of (board : Board) (side : bool) (square : Z) : bool :=
  match piece_at board square with
  | Some piece => (piece_type piece =? PAWN) && eqb (color piece) side
  | None => false
  end.

(** The squares of one side's pawns, and how many stand on a file. *)
Definition pawn_squares (board : Board) (side : bool) : list Z :=
  filter (fun sq => pawn_of board side sq = true) SQUARES.

Definition pawns_on_file (board : Board) (side : bool) (file : Z) : nat :=
  length (filter (fun sq => square_file sq = file) (pawn_squares board side)).

(** One side's material over a list of squares. *)
Definition material_over (board : Board) (side : bool) (squares : list Z) : Z :=
  foldr Z.add 0 (material_on board side <$> squares).

(** [chess.square_mirror]: the same file on the opposite rank. *)
Definition square_mirror (square : Z) : Z := Z.lxor square 56.

Definition swap_color (piece : Piece) : Piece :=
  mkPiece (piece_type piece) (negb (color piece)).

(** [board'] is [board] with the sides exchanged and the ranks flipped (what
    [chess.Board.mirror] builds): every piece sits on the mirrored square
    in the other colour, and the other side is to move. *)
Definition mirrored (board board' : Board) : Prop :=
  Forall (fun sq =>
            piece_at board' (square_mirror sq) = swap_color <$> piece_at board sq)
         SQUARES
  /\ turn board' = negb (turn board).

(** What the scan relies on: every dictionary still has the keys it was
    created with. *)
Definition keys_present (st : locals) : Prop :=
  (forall c ptype, dict_has PIECE_VALUES ptype = true ->
                   is_Some (piece_counts st !! (c, ptype)))
  /\ (forall c, is_Some (pawn_files st !! c))
  /\ (forall c, is_Some (all_pawns st !! c))
  /\ (forall c, is_Some (halfopen_files st !! c))
  /\ (forall c, is_Some (outpost_knights st !! c))
  /\ (forall c, is_Some (developed_minors st !! c))
  /\ (forall c, is_Some (defended_pieces st !! c)).

End Measures.

(** ** How a search result may differ from the full-width one

    [within_window alpha beta r t] relates the result [r] of a search with
    the window [(alpha, beta)] to the full-width result [t]: it is [t]
    itself when the full-width score lies in the window (the upper end
    included), and otherwise a score on the same side of the window that is
    no farther from it than the full-width score. *)

Definition within_window {Move : Type} (alpha beta : score)
    (r t : score * option Move) : Prop :=
  (score_lt alpha (fst t) -> score_le (fst t) beta -> r = t)
  /\ (score_le (fst t) alpha ->
      score_le (fst t) (fst r) /\ score_le (fst r) alpha)
  /\ (score_lt beta (fst t) ->
      score_le beta (fst r) /\ score_le (fst r) (fst t)).

(** The two loops after the same moves: either the full-width best score
    [best] is above the window's lower end [alpha0], and then the pruned loop
    holds the same score and move and has raised [alpha] to it; or it is
    not, and then the pruned loop holds a score between [best] and [alpha0]
    and [alpha] is still [alpha0]. *)
Definition loops_agree {Move : Type} (alpha0 alpha : score)
    (max_eval : score) (best_move : option Move)
    (best : score) (best_full : option Move) : Prop :=
  (score_lt alpha0 best /\ max_eval = best /\ best_move = best_full
   /\ alpha = best)
  \/ (score_le best alpha0 /\ score_le best max_eval
      /\ score_le max_eval alpha0 /\ alpha = alpha0).

(** A window whose ends are in order. *)
Definition window_ok (w : score * score) : Prop := score_le (fst w) (snd w).

(** ** The size of the game tree

    The number of positions of the tree below [board] down to [depth]
    plies: the position itself, and below it, unless the game is over, the
    trees of the positions its legal moves lead to.  It is the number of
    invocations a search without cutoffs makes. *)

Section GameTree.
Context {Board Move : Type} `{!ChessEngine Board Move}.

Fixpoint game_tree_size (depth : nat) (board : Board) : nat :=
  match depth with
  | O => 1
  | S depth =>
    if is_game_over board then 1
    else S (foldr Nat.add 0%nat
              ((fun move => game_tree_size depth (push board move))
               <$> legal_moves board))
  end.

(** Every line of play from [board] reaches a position where the game is
    over within [plies] moves. *)
Fixpoint ends_within (plies : nat) (board : Board) : bool :=
  is_game_over board
  || match plies with
     | O => false
     | S plies =>
       forallb (fun move => ends_within plies (push board move))
               (legal_moves board)
     end.

End GameTree.

(** ** What the entries of the feature list count

    Each count of [extract_features] as the number of squares (or files) that
    pass a test, independent of the order of the scan. *)

Section Census.
Context {Board Move : Type} `{!ChessEngine Board Move}.

(** The number of entries of a list that pass a test. *)
Definition count_where (test : Z -> bool) (l : list Z) : Z :=
  foldr Z.add 0 ((fun x => int_of_bool (test x)) <$> l).

(** The files, as [chess.square_file] numbers them. *)
Definition FILES : list Z := seqZ 0 8.

(** A piece of the given side, and a piece of the given side and type. *)
Definition side_on (board : Board) (side : bool) (square : Z) : bool :=
  match piece_at board square with
  | Some piece => eqb (color piece) side
  | None => false
  end.

Definition piece_is (board : Board) (side : bool) (ptype : Z) (square : Z)
    : bool :=
  match piece_at board square with
  | Some piece => (piece_type piece =? ptype) && eqb (color piece) side
  | None => false
  end.

Definition in_center (square : Z) : bool :=
  existsb (fun c => c =? square) CENTER_SQUARES.

(** Ranks 5 to 8 for White, ranks 1 to 4 for Black. *)
Definition in_enemy_half (side : bool) (square : Z) : bool :=
  if side then 4 <=? square_rank square else square_rank square <=? 3.

(** Not on rank 1 for White, not on rank 8 for Black. *)
Definition off_home_rank (side : bool) (square : Z) : bool :=
  if side then 0 <? square_rank square else square_rank square <? 7.

Definition developed_on (board : Board) (side : bool) (square : Z) : bool :=
  (piece_is board side BISHOP square || piece_is board side KNIGHT square)
  && off_home_rank side square.

Definition outpost_on (board : Board) (side : bool) (square : Z) : bool :=
  piece_is board side KNIGHT square
  && in_enemy_half side square
  && negb (attacked_by_pawn board (attackers board (negb side) square)).

Definition defended_on (board : Board) (side : bool) (square : Z) : bool :=
  side_on board side square
  && (0 <? Z.of_nat (size (attackers board side square))).

(** Files by the number of pawns of one side on them. *)
Definition occupied_file (board : Board) (side : bool) (file : Z) : bool :=
  (0 <? pawns_on_file board side file)%nat.

Definition doubled_file (board : Board) (side : bool) (file : Z) : bool :=
  (1 <? pawns_on_file board side file)%nat.

Definition isolated_file (board : Board) (side : bool) (file : Z) : bool :=
  occupied_file board side file
  && negb (occupied_file board side (file - 1))
  && negb (occupied_file board side (file + 1)).

Definition open_file (board : Board) (file : Z) : bool :=
  negb (occupied_file board WHITE file)
  && negb (occupied_file board BLACK file).

(** The feature list, entry by entry. *)
Definition features_census (board : Board) : list pyval :=
  let count test := PyInt (count_where test SQUARES) in
  let files test := count_where test FILES in
  [ PyInt (material_over board WHITE SQUARES);
    PyInt (material_over board BLACK SQUARES);
    PyInt (material_over board WHITE SQUARES
           - material_over board BLACK SQUARES);
    count (piece_is board WHITE PAWN); count (piece_is board BLACK PAWN);
    count (piece_is board WHITE KNIGHT); count (piece_is board BLACK KNIGHT);
    count (piece_is board WHITE BISHOP); count (piece_is board BLACK BISHOP);
    count (piece_is board WHITE ROOK); count (piece_is board BLACK ROOK);
    count (piece_is board WHITE QUEEN); count (piece_is board BLACK QUEEN);
    PyInt (int_of_bool (has_kingside_castling_rights board WHITE));
    PyInt (int_of_bool (has_queenside_castling_rights board WHITE));
    PyInt (int_of_bool (has_kingside_castling_rights board BLACK));
    PyInt (int_of_bool (has_queenside_castling_rights board BLACK));
    of_option (king board WHITE);
    of_option (king board BLACK);
    PyInt (int_of_bool (turn board));
    count (fun sq => side_on board WHITE sq && in_center sq);
    count (fun sq => side_on board BLACK sq && in_center sq);
    count (fun sq => side_on board WHITE sq && in_enemy_half WHITE sq);
    count (fun sq => side_on board BLACK sq && in_enemy_half BLACK sq);
    PyInt (Z.of_nat (length (legal_moves board)));
    PyInt (fullmove_number board);
    PyInt (files (doubled_file board WHITE) + files (doubled_file board BLACK));
    PyInt (files (isolated_file board WHITE)
           + files (isolated_file board BLACK));
    PyInt (files (occupied_file board WHITE));
    PyInt (files (occupied_file board BLACK));
    PyInt (files (open_file board));
    count (outpost_on board WHITE); count (outpost_on board BLACK);
    count (developed_on board WHITE); count (developed_on board BLACK);
    count (defended_on board WHITE); count (defended_on board BLACK) ].

End Census.

(** A board of the sample game without any piece. *)
Definition sample_empty : sample_board := mkSample [] WHITE [].

(** ** The game loop (lines 203-243)

    The loop reads the user's moves from standard input, prints to standard
    output and rewrites [Board.svg].  Input is the list of the lines still
    to be read; output is the list of what was printed, where printing the
    board, a move or the result is recorded with the value printed rather
    than its text; of the file, the board whose picture it holds is kept.
    [chess.Move.from_uci] and [str.strip] are taken as given, the first
    returning [None] where it raises.

    The test [user_move in board.legal_moves] of line 217 is not a search
    of the list the loop of [negamax] iterates: on the object python-chess
    returns for [board.legal_moves], [in] calls [board.is_legal(move)],
    which also accepts a move the generator does not list in that form (a
    castling move written as king takes rook).  It is taken as given too,
    as [is_legal]. *)

Section GameLoop.
Context {Board Move : Type} `{!ChessEngine Board Move}.
Variable model : list pyval -> Z.
Variable from_uci : string -> option Move.
Variable strip : string -> string.
Variable is_legal : Board -> Move -> bool.

Inductive printed : Type :=
  | Shown (board : Board)              (** [print(board)] *)
  | Prompted                           (** the prompt of [input(">> ")] *)
  | AskMove                            (** "Your move (e.g., e2e4):" *)
  | IllegalMove                        (** "Illegal move. Try again." *)
  | InvalidFormat                      (** "Invalid format. Try again ..." *)
  | Thinking                           (** "Computer is thinking..." *)
  | ComputerPlays (move : Move)        (** "Computer plays: ..." *)
  | GameOver (board : Board).          (** "Game over:", [board.result()] *)

(** Lines 213-223, the inner [while True]: one line is read per pass;
    [input] raises [EOFError] when there is none left, outside the [try]. *)
Fixpoint read_move (lines : list string) (board : Board)
    (out : list printed) : outcome (Board * list string * list printed) :=
  match lines with
  | [] => Raised
  | line :: lines =>
    let out := out ++ [Prompted] in
    let move_input := strip line in
    match from_uci move_input with
    | Some user_move =>
      if is_legal board user_move
      then Returned (push board user_move, lines, out)
      else read_move lines board (out ++ [IllegalMove])
    | None => read_move lines board (out ++ [InvalidFormat])
    end
  end.

(** Lines 232-235: the computer's reply.  Depth 2 needs fuel for three
    levels (lemma [negamax_fuel_enough]); [board.push(None)] raises. *)
Definition computer_turn (board : Board) (out : list printed)
    : outcome (Board * list printed) :=
  let out := out ++ [Thinking] in
  match negamax_fuel model 3 board NegInf PosInf 2 with
  | Returned ((_, best_move), board) =>
    match best_move with
    | Some best_move =>
      Returned (push board best_move, out ++ [ComputerPlays best_move])
    | None => Raised
    end
  | Raised => Raised
  | OutOfFuel => OutOfFuel
  end.

Record world : Type := mkWorld {
  position : Board;             (** [board] *)
  unread : list string;         (** standard input *)
  output : list printed;        (** standard output *)
  svg_file : option Board;      (** the board drawn in [Board.svg], if this
                                    run has written the file *)
}.

(** Lines 242-243. *)
Definition finish (w : world) : world :=
  mkWorld (position w) (unread w)
          (output w ++ [Shown (position w); GameOver (position w)])
          (svg_file w).

(** Lines 208-239, the outer [while]; [rounds] bounds its passes. *)
Fixpoint play (rounds : nat) (w : world) : outcome world :=
  match rounds with
  | O => OutOfFuel
  | S rounds =>
    if is_game_over (position w) then Returned (finish w)
    else
      match read_move (unread w) (position w)
                      (output w ++ [Shown (position w); AskMove]) with
      | Returned (board, lines, out) =>
        if is_game_over board
        then Returned (finish (mkWorld board lines out (Some board)))
        else
          match computer_turn board out with
          | Returned (board, out) =>
            play rounds (mkWorld board lines out (Some board))
          | Raised => Raised
          | OutOfFuel => OutOfFuel
          end
      | Raised => Raised
      | OutOfFuel => OutOfFuel
      end
  end.

(** A line the inner loop answers with a message and drops. *)
Definition rejected (board : Board) (line : string) : Prop :=
  match from_uci (strip line) with
  | Some move => is_legal board move = false
  | None => True
  end.

Definition reply_to (line : string) : list printed :=
  match from_uci (strip line) with
  | Some _ => [Prompted; IllegalMove]
  | None => [Prompted; InvalidFormat]
  end.

(** The moves the generator lists pass the test of [is_legal]. *)
Definition legal_moves_are_legal : Prop :=
  forall (board : Board) (move : Move),
    move ∈ legal_moves board -> is_legal board move = true.

(** [played board moves board']: [board'] is reached from [board] by pushing
    [moves] one after the other, each passing [is_legal] on the board it is
    pushed on. *)
Inductive played : Board -> list Move -> Board -> Prop :=
  | played_nil (board : Board) : played board [] board
  | played_cons (board : Board) (move : Move) (moves : list Move)
                (board' : Board) :
      is_legal board move = true ->
      played (push board move) moves board' ->
      played board (move :: moves) board'.

End GameLoop.

(** Input lines of the sample game: ["0"] to ["3"] parse to the moves of
    these numbers, nothing else parses. *)
Definition sample_from_uci (text : string) : option nat :=
  if String.eqb text "0" then Some 0%nat
  else if String.eqb text "1" then Some 1%nat
  else if String.eqb text "2" then Some 2%nat
  else if String.eqb text "3" then Some 3%nat
  else None.

Definition sample_strip (text : string) : string := text.

(** The legality test of the sample game.  While the game is on it accepts
    the two moves the generator lists and also the move [2], which the
    generator does not list; the move [3] is never accepted. *)
Definition sample_is_legal (board : sample_board) (move : nat) : bool :=
  (length (line board) <? 2)%nat && (move <? 3)%nat.

(** The sample game at its start, with five lines of input waiting: two
    that are turned down, the move [2], and two that are not reached. *)
Definition sample_world : world (Board := sample_board) (Move := nat) :=
  mkWorld sample_start ["e2e4"; "3"; "2"; "0"; "zz"]%string [] None.

(** ** The order on scores as an ordered type

    Packages [score_lt] and [score_le] for the [order] tactic of the
    Standard Library. *)

Module ScoreOrder <: OrderedTypeFull.
Definition t := score.
Definition eq := @Logic.eq score.
Definition eq_equiv : Equivalence eq := eq_equivalence.
Definition lt := score_lt.
Definition le := score_le.
Definition compare := score_compare.

Lemma score_lt_strorder : StrictOrder lt.
Proof.
  split.
  - intros [|x|]; unfold complement, lt, score_lt; simpl; try discriminate.
    rewrite Z.compare_refl. discriminate.
  - intros [|x|] [|y|] [|z|]; unfold lt, score_lt; simpl;
      try discriminate; try reflexivity.
    rewrite !Z.compare_lt_iff. lia.
Qed.
Definition lt_strorder := score_lt_strorder.

Lemma score_lt_compat : Proper (eq ==> eq ==> iff) lt.
Proof. intros a a' -> b b' ->. reflexivity. Qed.
Definition lt_compat := score_lt_compat.

Lemma score_compare_spec (a b : score) :
  CompareSpec (a = b) (lt a b) (lt b a) (score_compare a b).
Proof.
  destruct a as [|x|], b as [|y|]; simpl; try (constructor; reflexivity).
  destruct (Z.compare_spec x y); constructor; unfold lt, score_lt; simpl.
  - congruence.
  - now apply Z.compare_lt_iff.
  - now apply Z.compare_lt_iff.
Qed.
Definition compare_spec := score_compare_spec.

Lemma score_eq_dec (a b : score) : {a = b} + {a <> b}.
Proof. decide equality. apply Z.eq_dec. Defined.
Definition eq_dec := score_eq_dec.

Lemma score_le_lteq (a b : score) : le a b <-> lt a b \/ a = b.
Proof.
  unfold le, score_le, lt, score_lt.
  destruct (score_compare_spec a b) as [E|L|G]; split; intros H;
    try discriminate; try tauto; try congruence.
  - destruct H as [H|H]; [discriminate|].
    subst b. exfalso. revert G. apply score_lt_strorder.
Qed.
Definition le_lteq := score_le_lteq.
End ScoreOrder.

Module ScoreTac := OTF_to_OrderTac ScoreOrder.

(** * Properties *)

(** ** The order on scores *)

Ltac score_order :=
  unfold ScoreOrder.eq, ScoreOrder.lt, ScoreOrder.le in *; ScoreTac.order.

Lemma score_ltb_lt (a b : score) : score_ltb a b = true <-> score_lt a b.
Proof.
  unfold score_ltb, score_lt. destruct (score_compare a b); split; congruence.
Qed.

Lemma score_ltb_ge (a b : score) : score_ltb a b = false <-> score_le b a.
Proof.
  unfold score_ltb. destruct (ScoreOrder.score_compare_spec a b) as [E|L|G];
    split; intros H; try congruence; try score_order.
Qed.

Lemma score_gtb_lt (a b : score) : score_gtb a b = true <-> score_lt b a.
Proof. apply score_ltb_lt. Qed.

Lemma score_gtb_le (a b : score) : score_gtb a b = false <-> score_le a b.
Proof. apply score_ltb_ge. Qed.

Lemma score_geb_le (a b : score) : score_geb a b = true <-> score_le b a.
Proof.
  unfold score_geb. destruct (ScoreOrder.score_compare_spec a b) as [E|L|G];
    split; intros H; try congruence; try score_order.
Qed.

Lemma score_geb_lt (a b : score) : score_geb a b = false <-> score_lt a b.
Proof.
  unfold score_geb. destruct (ScoreOrder.score_compare_spec a b) as [E|L|G];
    split; intros H; try congruence; try score_order.
Qed.

Lemma score_opp_involutive (a : score) : score_opp (score_opp a) = a.
Proof. destruct a; simpl; f_equal; lia. Qed.

Lemma score_opp_lt (a b : score) :
  score_lt (score_opp a) (score_opp b) <-> score_lt b a.
Proof.
  destruct a as [|x|], b as [|y|]; unfold score_lt; simpl;
    try (split; congruence).
  rewrite !Z.compare_lt_iff. lia.
Qed.

Lemma score_opp_le (a b : score) :
  score_le (score_opp a) (score_opp b) <-> score_le b a.
Proof.
  destruct a as [|x|], b as [|y|]; unfold score_le; simpl;
    try (split; congruence).
  rewrite !Z.compare_le_iff. lia.
Qed.

Lemma score_opp_lt_l (a b : score) :
  score_lt (score_opp a) b <-> score_lt (score_opp b) a.
Proof. rewrite <- (score_opp_involutive b) at 1. apply score_opp_lt. Qed.

Lemma score_opp_lt_r (a b : score) :
  score_lt a (score_opp b) <-> score_lt b (score_opp a).
Proof. rewrite <- (score_opp_involutive a) at 1. apply score_opp_lt. Qed.

Lemma score_opp_le_l (a b : score) :
  score_le (score_opp a) b <-> score_le (score_opp b) a.
Proof. rewrite <- (score_opp_involutive b) at 1. apply score_opp_le. Qed.

Lemma score_opp_le_r (a b : score) :
  score_le a (score_opp b) <-> score_le b (score_opp a).
Proof. rewrite <- (score_opp_involutive a) at 1. apply score_opp_le. Qed.

Lemma score_le_NegInf (a : score) : score_le NegInf a.
Proof. destruct a; unfold score_le; simpl; congruence. Qed.

Lemma score_le_PosInf (a : score) : score_le a PosInf.
Proof. destruct a; unfold score_le; simpl; congruence. Qed.

Lemma score_max_cases (a b : score) :
  (score_lt a b /\ score_max a b = b) \/ (score_le b a /\ score_max a b = a).
Proof.
  unfold score_max. destruct (score_gtb b a) eqn:E.
  - left. split; [now apply score_gtb_lt | reflexivity].
  - right. split; [now apply score_gtb_le | reflexivity].
Qed.

(** ** [extract_features] *)

Lemma dict_update_step `{Countable K} {V : Type}
    (c : bool) (d : gmap K V) (k : K) (f : V -> V) :
  (c = true -> is_Some (d !! k)) ->
  exists d',
    (if c then dict_update d k f else Some d) = Some d'
    /\ (forall k', is_Some (d' !! k') <-> is_Some (d !! k'))
    /\ (forall k', k' <> k -> d' !! k' = d !! k')
    /\ d' !! k = (if c then f else id) <$> d !! k.
Proof.
  intros Hk. destruct c.
  - destruct Hk as [v Hv]; [reflexivity|].
    exists (<[k := f v]> d). unfold dict_update. rewrite Hv. simpl.
    split; [reflexivity|]. split; [|split].
    + intros k'. destruct (decide (k = k')) as [->|Hne].
      * rewrite lookup_insert_eq, Hv. split; eauto.
      * rewrite lookup_insert_ne by assumption. reflexivity.
    + intros k' Hne. rewrite lookup_insert_ne by congruence. reflexivity.
    + rewrite lookup_insert_eq. reflexivity.
  - exists d. split; [reflexivity|]. split; [|split]; try tauto.
    destruct (d !! k); reflexivity.
Qed.

Lemma if_nested {A : Type} (c1 c2 : bool) (x y : A) :
  (if c1 then (if c2 then x else y) else y) = (if c1 && c2 then x else y).
Proof. destruct c1, c2; reflexivity. Qed.

(** Runs the next dictionary update of a loop body that is known to find its
    key. *)
Ltac dict_step d d' Hk Ho Hs :=
  match goal with
  | |- context [if ?c then dict_update d ?k ?f else Some d] =>
    destruct (dict_update_step c d k f) as (d' & -> & Hk & Ho & Hs);
    [ solve [auto] | cbn [mbind option_bind] ]
  end.

Section FeatureProperties.
Context {Board Move : Type} `{!ChessEngine Board Move}.

Lemma pawn_of_color (board : Board) (sq : Z) (piece : Piece) (c : bool) :
  piece_at board sq = Some piece ->
  pawn_of board c sq = (piece_type piece =? PAWN) && eqb (color piece) c.
Proof. intros Hp. unfold pawn_of. rewrite Hp. reflexivity. Qed.

Lemma eqb_other (c c' : bool) : c' <> c -> eqb c c' = false.
Proof. destruct c, c'; simpl; congruence. Qed.

Lemma scan_square_spec (board : Board) (sq : Z) (st : locals) :
  keys_present st ->
  exists st',
    scan_square board sq st = Some st'
    /\ keys_present st'
    /\ material_white st' = material_white st + material_on board WHITE sq
    /\ material_black st' = material_black st + material_on board BLACK sq
    /\ (forall c, all_pawns st' !! c
                  = (fun l => l ++ (if pawn_of board c sq then [sq] else []))
                      <$> all_pawns st !! c)
    /\ (forall c, pawn_files st' !! c
                  = (fun s => s ∪ (if pawn_of board c sq
                                   then {[square_file sq]} else ∅))
                      <$> pawn_files st !! c).
Proof.
  intros (Hpc & Hpf & Hap & Hhf & Hok & Hdm & Hdp).
  unfold scan_square, material_on.
  destruct (piece_at board sq) as [piece|] eqn:Hpiece.
  2: { exists st. split; [reflexivity|]. split; [repeat split; assumption|].
       unfold pawn_of. rewrite Hpiece.
       repeat split; try lia.
       - intros c. destruct (all_pawns st !! c); simpl; [|reflexivity].
         now rewrite app_nil_r.
       - intros c. destruct (pawn_files st !! c); simpl; [|reflexivity].
         f_equal. set_solver. }
  cbv zeta. rewrite if_nested.
  dict_step (piece_counts st) pc Kpc Opc Spc.
  dict_step (pawn_files st) pf Kpf Opf Spf.
  dict_step (all_pawns st) apw Kap Oap Sap.
  dict_step (halfopen_files st) hf Khf Ohf Shf.
  dict_step (outpost_knights st) okn Kok Ook Sok.
  dict_step (developed_minors st) dm Kdm Odm Sdm.
  dict_step (defended_pieces st) dp Kdp Odp Sdp.
  eexists. split; [reflexivity|]. cbn.
  split; [|split; [|split; [|split]]].
  - repeat split; intros; first
      [ apply Kpc; auto | apply Kpf; auto | apply Kap; auto
      | apply Khf; auto | apply Kok; auto | apply Kdm; auto
      | apply Kdp; auto ].
  - destruct (color piece); simpl; lia.
  - destruct (color piece); simpl; lia.
  - intros c. rewrite (pawn_of_color _ _ _ _ Hpiece).
    destruct (decide (c = color piece)) as [->|Hne].
    + rewrite Sap, eqb_reflx, andb_true_r.
      destruct (piece_type piece =? PAWN), (all_pawns st !! color piece);
        simpl; try reflexivity. now rewrite app_nil_r.
    + rewrite Oap by assumption.
      rewrite (eqb_other _ _ Hne), andb_false_r.
      destruct (all_pawns st !! c); simpl; [|reflexivity].
      now rewrite app_nil_r.
  - intros c. rewrite (pawn_of_color _ _ _ _ Hpiece).
    destruct (decide (c = color piece)) as [->|Hne].
    + rewrite Spf, eqb_reflx, andb_true_r.
      destruct (piece_type piece =? PAWN), (pawn_files st !! color piece);
        simpl; try reflexivity. f_equal. set_solver.
    + rewrite Opf by assumption.
      rewrite (eqb_other _ _ Hne), andb_false_r.
      destruct (pawn_files st !! c); simpl; [|reflexivity].
      f_equal. set_solver.
Qed.

Lemma scan_spec (board : Board) (squares : list Z) (st : locals) :
  keys_present st ->
  exists st',
    scan board squares st = Some st'
    /\ keys_present st'
    /\ material_white st'
       = material_white st + material_over board WHITE squares
    /\ material_black st'
       = material_black st + material_over board BLACK squares
    /\ (forall c, all_pawns st' !! c
                  = (fun l => l ++ filter (fun sq => pawn_of board c sq = true)
                                          squares)
                      <$> all_pawns st !! c)
    /\ (forall c, pawn_files st' !! c
                  = (fun s => s ∪ list_to_set
                                    (square_file <$>
                                     filter (fun sq => pawn_of board c sq = true)
                                            squares))
                      <$> pawn_files st !! c).
Proof.
  revert st. induction squares as [|sq rest IH]; intros st Hst.
  - exists st. split; [reflexivity|]. split; [assumption|].
    unfold material_over. simpl. repeat split; try lia.
    + intros c. destruct (all_pawns st !! c); simpl; [|reflexivity].
      now rewrite app_nil_r.
    + intros c. destruct (pawn_files st !! c); simpl; [|reflexivity].
      f_equal. set_solver.
  - destruct (scan_square_spec board sq st Hst)
      as (st1 & E1 & K1 & Mw1 & Mb1 & Ap1 & Pf1).
    destruct (IH st1 K1) as (st2 & E2 & K2 & Mw2 & Mb2 & Ap2 & Pf2).
    exists st2. simpl. rewrite E1. simpl.
    split; [assumption|]. split; [assumption|].
    split; [|split; [|split]].
    + rewrite Mw2, Mw1. unfold material_over. rewrite fmap_cons. simpl. lia.
    + rewrite Mb2, Mb1. unfold material_over. rewrite fmap_cons. simpl. lia.
    + intros c. rewrite Ap2, Ap1, filter_cons.
      destruct (all_pawns st !! c) as [l|]; simpl; [|reflexivity].
      f_equal. rewrite <- app_assoc. f_equal.
      destruct (pawn_of board c sq); reflexivity.
    + intros c. rewrite Pf2, Pf1, filter_cons.
      destruct (pawn_files st !! c) as [s|]; simpl; [|reflexivity].
      f_equal.
      destruct (pawn_of board c sq); simpl; set_solver.
Qed.

Lemma by_color_lookup {V : Type} (v : V) (c : bool) :
  by_color v !! c = Some v.
Proof. destruct c; reflexivity. Qed.

Lemma initial_keys_present : keys_present initial_locals.
Proof.
  unfold keys_present, initial_locals, by_color; simpl.
  split; [|repeat split; intros [|]; eexists; reflexivity].
  intros c ptype Hin. unfold dict_has, dict_keys, PIECE_VALUES in Hin.
  cbn [existsb map fst] in Hin.
  repeat (apply orb_prop in Hin as [Hin|Hin];
          [ apply Z.eqb_eq in Hin; subst ptype;
            destruct c; eexists; reflexivity | ]).
  discriminate.
Qed.

(** The scan of the 64 squares finishes, and leaves the totals and the pawn
    tables the later features are computed from. *)
Lemma scan_squares (board : Board) :
  exists st,
    scan board SQUARES initial_locals = Some st
    /\ keys_present st
    /\ material_white st = material_over board WHITE SQUARES
    /\ material_black st = material_over board BLACK SQUARES
    /\ (forall c, all_pawns st !! c = Some (pawn_squares board c))
    /\ (forall c, pawn_files st !! c
                  = Some (list_to_set (square_file <$> pawn_squares board c))).
Proof.
  destruct (scan_spec board SQUARES initial_locals initial_keys_present)
    as (st & E & K & Mw & Mb & Ap & Pf).
  exists st. split; [assumption|]. split; [assumption|].
  split; [exact Mw|]. split; [exact Mb|]. split.
  - intros c. rewrite Ap. cbn [all_pawns initial_locals].
    rewrite by_color_lookup. reflexivity.
  - intros c. rewrite Pf. cbn [pawn_files initial_locals].
    rewrite by_color_lookup. cbn [fmap option_fmap option_map].
    f_equal. apply (left_id_L ∅ (∪)).
Qed.

Lemma sum_over_ext {A : Type} (l : list A) (f g : A -> option Z) :
  (forall x, f x = g x) -> sum_over l f = sum_over l g.
Proof.
  intros Hfg. induction l as [|x l IH]; simpl; [reflexivity|].
  now rewrite Hfg, IH.
Qed.

Lemma sum_over_pure {A : Type} (l : list A) (g : A -> Z) :
  sum_over l (fun x => Some (g x)) = Some (foldr Z.add 0 (g <$> l)).
Proof.
  induction l as [|x l IH]; simpl; [reflexivity|]. now rewrite IH.
Qed.

(** The per-colour sums of lines 136-150 in closed form. *)
Lemma doubled_pawns_of_value (st : locals) (c : bool)
    (files : gset Z) (pawns : list Z) :
  pawn_files st !! c = Some files ->
  all_pawns st !! c = Some pawns ->
  doubled_pawns_of st c
  = Some (foldr Z.add 0
            ((fun file =>
                int_of_bool
                  (1 <? Z.of_nat
                          (length (filter (fun sq => square_file sq = file)
                                          pawns))))
             <$> elements files)).
Proof.
  intros Hf Hp. unfold doubled_pawns_of. rewrite Hf. simpl.
  rewrite <- sum_over_pure. apply sum_over_ext. intros file.
  now rewrite Hp.
Qed.

Lemma isolated_pawns_of_returns (st : locals) (c : bool) :
  is_Some (pawn_files st !! c) -> is_Some (isolated_pawns_of st c).
Proof.
  intros [files Hf]. unfold isolated_pawns_of. rewrite Hf. simpl.
  rewrite sum_over_pure. eauto.
Qed.

Lemma doubled_pawns_of_returns (st : locals) (c : bool) :
  keys_present st -> is_Some (doubled_pawns_of st c).
Proof.
  intros (_ & Hpf & Hap & _).
  destruct (Hpf c) as [files Hf], (Hap c) as [pawns Hp].
  rewrite (doubled_pawns_of_value st c files pawns Hf Hp). eauto.
Qed.

(** With every key in place the feature list is built, entry by entry. *)
Lemma build_features_spec (board : Board) (st : locals) :
  keys_present st ->
  exists dw db iw ib c1 c2 c3 c4 c5 c6 c7 c8 c9 c10 h1 h2 o1 o2 m1 m2 d1 d2,
    doubled_pawns_of st WHITE = Some dw
    /\ doubled_pawns_of st BLACK = Some db
    /\ isolated_pawns_of st WHITE = Some iw
    /\ isolated_pawns_of st BLACK = Some ib
    /\ build_features board st
       = Some [ PyInt (material_white st);
                PyInt (material_black st);
                PyInt (material_white st - material_black st);
                PyInt c1; PyInt c2; PyInt c3; PyInt c4; PyInt c5;
                PyInt c6; PyInt c7; PyInt c8; PyInt c9; PyInt c10;
                PyInt (int_of_bool (has_kingside_castling_rights board WHITE));
                PyInt (int_of_bool (has_queenside_castling_rights board WHITE));
                PyInt (int_of_bool (has_kingside_castling_rights board BLACK));
                PyInt (int_of_bool (has_queenside_castling_rights board BLACK));
                of_option (king board WHITE);
                of_option (king board BLACK);
                PyInt (int_of_bool (turn board));
                PyInt (center_control_white st);
                PyInt (center_control_black st);
                PyInt (white_in_black_half st);
                PyInt (black_in_white_half st);
                PyInt (Z.of_nat (length (legal_moves board)));
                PyInt (fullmove_number board);
                PyInt (dw + (db + 0));
                PyInt (iw + (ib + 0));
                PyInt h1; PyInt h2;
                PyInt (Z.of_nat (size (open_files st)));
                PyInt o1; PyInt o2; PyInt m1; PyInt m2; PyInt d1; PyInt d2 ].
Proof.
  intros Hkeys.
  destruct (doubled_pawns_of_returns st WHITE Hkeys) as [dw Hdw].
  destruct (doubled_pawns_of_returns st BLACK Hkeys) as [db Hdb].
  destruct Hkeys as (Hpc & Hpf & Hap & Hhf & Hok & Hdm & Hdp).
  destruct (isolated_pawns_of_returns st WHITE (Hpf WHITE)) as [iw Hiw].
  destruct (isolated_pawns_of_returns st BLACK (Hpf BLACK)) as [ib Hib].
  destruct (Hpc WHITE PAWN eq_refl) as [c1 E1].
  destruct (Hpc BLACK PAWN eq_refl) as [c2 E2].
  destruct (Hpc WHITE KNIGHT eq_refl) as [c3 E3].
  destruct (Hpc BLACK KNIGHT eq_refl) as [c4 E4].
  destruct (Hpc WHITE BISHOP eq_refl) as [c5 E5].
  destruct (Hpc BLACK BISHOP eq_refl) as [c6 E6].
  destruct (Hpc WHITE ROOK eq_refl) as [c7 E7].
  destruct (Hpc BLACK ROOK eq_refl) as [c8 E8].
  destruct (Hpc WHITE QUEEN eq_refl) as [c9 E9].
  destruct (Hpc BLACK QUEEN eq_refl) as [c10 E10].
  destruct (Hhf WHITE) as [h1 Eh1], (Hhf BLACK) as [h2 Eh2].
  destruct (Hok WHITE) as [o1 Eo1], (Hok BLACK) as [o2 Eo2].
  destruct (Hdm WHITE) as [m1 Em1], (Hdm BLACK) as [m2 Em2].
  destruct (Hdp WHITE) as [d1 Ed1], (Hdp BLACK) as [d2 Ed2].
  exists dw, db, iw, ib, c1, c2, c3, c4, c5, c6, c7, c8, c9, c10,
    (Z.of_nat (size h1)), (Z.of_nat (size h2)), o1, o2, m1, m2, d1, d2.
  repeat (split; [assumption|]).
  unfold build_features, doubled_pawns, isolated_pawns.
  cbn [dict_keys PIECE_VALUES map fst count_features halfopen_features
       sum_over].
  rewrite E1, E2, E3, E4, E5, E6, E7, E8, E9, E10, Hdw, Hdb, Hiw, Hib,
    Eh1, Eh2, Eo1, Eo2, Em1, Em2, Ed1, Ed2.
  reflexivity.
Qed.

(** [extract_features] never raises, on any board. *)
Lemma extract_features_returns (board : Board) :
  exists features,
    extract_features board = Some features /\ length features = 37%nat.
Proof.
  destruct (scan_squares board) as (st & E & K & _).
  destruct (build_features_spec board st K)
    as (dw & db & iw & ib & c1 & c2 & c3 & c4 & c5 & c6 & c7 & c8 & c9 & c10
        & h1 & h2 & o1 & o2 & m1 & m2 & d1 & d2 & _ & _ & _ & _ & Hb).
  eexists. unfold extract_features. rewrite E. simpl. rewrite Hb.
  split; reflexivity.
Qed.

(** On every board with both kings, [extract_features] returns a list of
    exactly 37 entries, all of them numbers, with the entries it reads from
    the board directly at their places. *)
Lemma extract_features_entries (board : Board) :
  both_kings board ->
  exists features,
    extract_features board = Some features
    /\ length features = 37%nat
    /\ Forall is_numeric features
    /\ features !! 0%nat = Some (PyInt (material_over board WHITE SQUARES))
    /\ features !! 1%nat = Some (PyInt (material_over board BLACK SQUARES))
    /\ features !! 2%nat
       = Some (PyInt (material_over board WHITE SQUARES
                      - material_over board BLACK SQUARES))
    /\ features !! 17%nat = Some (of_option (king board WHITE))
    /\ features !! 18%nat = Some (of_option (king board BLACK))
    /\ features !! 19%nat = Some (PyInt (int_of_bool (turn board)))
    /\ features !! 24%nat
       = Some (PyInt (Z.of_nat (length (legal_moves board))))
    /\ features !! 25%nat = Some (PyInt (fullmove_number board)).
Proof.
  intros [[kw Hkw] [kb Hkb]].
  destruct (scan_squares board) as (st & E & K & Mw & Mb & _).
  destruct (build_features_spec board st K)
    as (dw & db & iw & ib & c1 & c2 & c3 & c4 & c5 & c6 & c7 & c8 & c9 & c10
        & h1 & h2 & o1 & o2 & m1 & m2 & d1 & d2 & _ & _ & _ & _ & Hb).
  eexists. unfold extract_features. rewrite E. simpl. rewrite Hb.
  rewrite Hkw, Hkb, Mw, Mb.
  split; [reflexivity|]. split; [reflexivity|].
  split; [repeat constructor|].
  repeat split; reflexivity.
Qed.

End FeatureProperties.

(** ** Sums over squares and files *)

Lemma sum_permutation (l l' : list Z) :
  l ≡ₚ l' -> foldr Z.add 0 l = foldr Z.add 0 l'.
Proof.
  induction 1 as [|x l l' _ IH|x y l|l l' l'' _ IH1 _ IH2]; simpl; lia.
Qed.

Lemma mirror_squares : square_mirror <$> SQUARES ≡ₚ SQUARES.
Proof. apply (bool_decide_unpack _). vm_compute. exact I. Qed.

Lemma sum_zero {A : Type} (g : A -> Z) (l : list A) :
  (forall x, x ∈ l -> g x = 0) -> foldr Z.add 0 (g <$> l) = 0.
Proof.
  induction l as [|x l IH]; intros Hz; [reflexivity|].
  rewrite fmap_cons. cbn [foldr].
  rewrite (Hz x) by left. rewrite IH; [reflexivity|].
  intros y Hy. apply Hz. now right.
Qed.

Lemma sum_single {A : Type} (g : A -> Z) (l : list A) (x0 : A) :
  NoDup l -> x0 ∈ l -> g x0 = 1 ->
  (forall x, x ∈ l -> x <> x0 -> g x = 0) ->
  foldr Z.add 0 (g <$> l) = 1.
Proof.
  induction 1 as [|x l Hnotin Hnd IH]; intros Hin H1 H0.
  - inversion Hin.
  - rewrite fmap_cons. cbn [foldr]. apply elem_of_cons in Hin as [<-|Hin].
    + rewrite H1, sum_zero; [reflexivity|].
      intros y Hy. apply H0; [now right|]. intros ->. contradiction.
    + rewrite (H0 x); [|left|intros ->; contradiction].
      rewrite IH; [reflexivity|assumption|assumption|].
      intros y Hy. apply H0. now right.
Qed.

Section FeatureTheorems.
Context {Board Move : Type} `{!ChessEngine Board Move}.

Lemma swap_color_involutive (piece : Piece) :
  swap_color (swap_color piece) = piece.
Proof. destruct piece as [t c]. unfold swap_color. simpl. now rewrite negb_involutive. Qed.

Lemma material_on_mirror (board board' : Board) (side : bool) (sq : Z) :
  piece_at board' (square_mirror sq) = swap_color <$> piece_at board sq ->
  material_on board side sq
  = material_on board' (negb side) (square_mirror sq).
Proof.
  intros Hm. unfold material_on. rewrite Hm.
  destruct (piece_at board sq) as [[t c]|]; simpl; [|reflexivity].
  destruct c, side; reflexivity.
Qed.

Lemma material_over_mirror (board board' : Board) (side : bool) :
  mirrored board board' ->
  material_over board side SQUARES
  = material_over board' (negb side) SQUARES.
Proof.
  intros [Hm _]. unfold material_over.
  rewrite <- (sum_permutation _ _
                (fmap_Permutation (material_on board' (negb side)) _ _
                                  mirror_squares)).
  rewrite <- list_fmap_compose. f_equal.
  apply Forall_fmap_ext. eapply Forall_impl; [exact Hm|].
  intros sq Hsq. simpl. now apply material_on_mirror.
Qed.

(** C9: when [board'] is the mirror image of [board], the third feature
    (White's material minus Black's) of [board] is the negation of the
    third feature of [board']. *)
Theorem material_difference_mirror (board board' : Board) :
  mirrored board board' ->
  exists features features' d,
    extract_features board = Some features
    /\ extract_features board' = Some features'
    /\ features !! 2%nat = Some (PyInt d)
    /\ features' !! 2%nat = Some (PyInt (- d)).
Proof.
  intros Hm.
  pose proof (material_over_mirror board board' WHITE Hm) as Hw.
  pose proof (material_over_mirror board board' BLACK Hm) as Hb.
  simpl in Hw, Hb.
  destruct (scan_squares board) as (st & E & K & Mw & Mb & _).
  destruct (scan_squares board') as (st' & E' & K' & Mw' & Mb' & _).
  destruct (build_features_spec board st K)
    as (dw & db & iw & ib & c1 & c2 & c3 & c4 & c5 & c6 & c7 & c8 & c9 & c10
        & h1 & h2 & o1 & o2 & m1 & m2 & d1 & d2 & _ & _ & _ & _ & Hf).
  destruct (build_features_spec board' st' K')
    as (dw' & db' & iw' & ib' & c1' & c2' & c3' & c4' & c5' & c6' & c7'
        & c8' & c9' & c10' & h1' & h2' & o1' & o2' & m1' & m2' & d1' & d2'
        & _ & _ & _ & _ & Hf').
  eexists _, _, (material_white st - material_black st).
  unfold extract_features. rewrite E, E'. simpl. rewrite Hf, Hf'.
  split; [reflexivity|]. split; [reflexivity|]. split; [reflexivity|].
  simpl. do 2 f_equal. unfold WHITE, BLACK in *. lia.
Qed.

Lemma pawns_on_file_elem (board : Board) (side : bool) (file : Z) :
  (0 < pawns_on_file board side file)%nat ->
  file ∈ (list_to_set (square_file <$> pawn_squares board side) : gset Z).
Proof.
  unfold pawns_on_file. intros Hpos.
  destruct (filter (fun sq => square_file sq = file) (pawn_squares board side))
    as [|sq l] eqn:Hfilter; [simpl in Hpos; lia|].
  assert (Hin : sq ∈ filter (fun sq => square_file sq = file)
                            (pawn_squares board side))
    by (rewrite Hfilter; left).
  apply list_elem_of_filter in Hin as [Hfile Hin].
  apply elem_of_list_to_set, list_elem_of_fmap. eauto.
Qed.

(** C8: when one side has more than one pawn on exactly one file, and no
    other file holds more than one pawn of either side, that side adds 1
    and its opponent adds 0 to the doubled-pawn sum, and the doubled-pawn
    entry of the feature list (index 26) is 1. *)
Theorem doubled_pawns_single_file (board : Board) (side : bool) (file0 : Z) :
  (1 < pawns_on_file board side file0)%nat ->
  (forall file, file <> file0 -> (pawns_on_file board side file <= 1)%nat) ->
  (forall file, (pawns_on_file board (negb side) file <= 1)%nat) ->
  exists st features,
    scan board SQUARES initial_locals = Some st
    /\ extract_features board = Some features
    /\ doubled_pawns_of st side = Some 1
    /\ doubled_pawns_of st (negb side) = Some 0
    /\ features !! 26%nat = Some (PyInt 1).
Proof.
  intros Hmany Hrest Hopp.
  destruct (scan_squares board) as (st & E & K & _ & _ & Hap & Hpf).
  assert (Hside : doubled_pawns_of st side = Some 1).
  { rewrite (doubled_pawns_of_value st side _ _ (Hpf side) (Hap side)).
    f_equal. apply (sum_single _ _ file0).
    - apply NoDup_elements.
    - apply elem_of_elements, pawns_on_file_elem. lia.
    - fold (pawns_on_file board side file0).
      destruct (Z.ltb_spec 1 (Z.of_nat (pawns_on_file board side file0)));
        [reflexivity|lia].
    - intros file _ Hne. fold (pawns_on_file board side file).
      specialize (Hrest file Hne).
      destruct (Z.ltb_spec 1 (Z.of_nat (pawns_on_file board side file)));
        [lia|reflexivity]. }
  assert (Hother : doubled_pawns_of st (negb side) = Some 0).
  { rewrite (doubled_pawns_of_value st (negb side) _ _
               (Hpf (negb side)) (Hap (negb side))).
    f_equal. apply sum_zero.
    intros file _. fold (pawns_on_file board (negb side) file).
    specialize (Hopp file).
    destruct (Z.ltb_spec 1 (Z.of_nat (pawns_on_file board (negb side) file)));
      [lia|reflexivity]. }
  destruct (build_features_spec board st K)
    as (dw & db & iw & ib & c1 & c2 & c3 & c4 & c5 & c6 & c7 & c8 & c9 & c10
        & h1 & h2 & o1 & o2 & m1 & m2 & d1 & d2 & Hdw & Hdb & _ & _ & Hf).
  exists st. eexists. unfold extract_features. rewrite E. simpl. rewrite Hf.
  split; [reflexivity|]. split; [reflexivity|].
  split; [assumption|]. split; [assumption|].
  simpl. do 2 f_equal.
  destruct side; simpl in Hside, Hother; unfold WHITE, BLACK in *.
  - replace dw with 1 by congruence. replace db with 0 by congruence.
    reflexivity.
  - replace dw with 0 by congruence. replace db with 1 by congruence.
    reflexivity.
Qed.

End FeatureTheorems.

(** [sample_mirror] is the mirror image of [sample_start]. *)
Lemma material_difference_mirror_sample :
  mirrored sample_start sample_mirror
  /\ exists features features' d,
       extract_features sample_start = Some features
       /\ extract_features sample_mirror = Some features'
       /\ features !! 2%nat = Some (PyInt d)
       /\ features' !! 2%nat = Some (PyInt (- d)).
Proof.
  assert (Hm : mirrored sample_start sample_mirror).
  { split; [|reflexivity]. unfold SQUARES. repeat constructor. }
  split; [exact Hm|].
  exact (material_difference_mirror sample_start sample_mirror Hm).
Defined.

(** On the sample board White has two pawns on the a-file and nobody has two
    pawns anywhere else. *)
Lemma doubled_pawns_single_file_sample :
  exists st features,
    scan sample_start SQUARES initial_locals = Some st
    /\ extract_features sample_start = Some features
    /\ doubled_pawns_of st WHITE = Some 1
    /\ doubled_pawns_of st BLACK = Some 0
    /\ features !! 26%nat = Some (PyInt 1).
Proof.
  apply (doubled_pawns_single_file sample_start WHITE 0).
  - vm_compute. lia.
  - intros file Hne. unfold pawns_on_file.
    replace (pawn_squares sample_start WHITE) with [8; 16] by reflexivity.
    rewrite !filter_cons, filter_nil. change (square_file 8) with 0.
    change (square_file 16) with 0.
    rewrite !decide_False by congruence. simpl. lia.
  - intros file. unfold pawns_on_file.
    replace (pawn_squares sample_start (negb WHITE)) with [55] by reflexivity.
    rewrite !filter_cons, filter_nil. destruct (decide _); simpl; lia.
Defined.

(** ** [negamax]: leaves, the board, and the recorded run *)

Section SearchProperties.
Context {Board Move : Type} `{!ChessEngine Board Move}.
Variable model : list pyval -> Z.

Lemma leaf_score_returns (board : Board) :
  exists features,
    extract_features board = Some features
    /\ leaf_score model board
       = Some (if turn board then Fin (model features)
               else Fin (- model features)).
Proof.
  destruct (extract_features_returns board) as (features & E & _).
  exists features. split; [assumption|].
  unfold leaf_score. rewrite E. simpl. destruct (turn board); reflexivity.
Qed.

Lemma leaf_score_static (board : Board) :
  leaf_score model board = Some (static_eval model board).
Proof.
  unfold static_eval.
  destruct (leaf_score_returns board) as (features & _ & ->). reflexivity.
Qed.

Lemma static_eval_finite (board : Board) :
  exists x, static_eval model board = Fin x.
Proof.
  unfold static_eval.
  destruct (leaf_score_returns board) as (features & _ & ->). simpl.
  destruct (turn board); eauto.
Qed.

(** Recording what a call does leaves its outcome as it is. *)
Lemma negamax_loop_obs_outcome
    (recur : Board -> score -> score -> Z -> outcome (result (Move := Move)))
    (recur_obs : Board -> score -> score -> Z
                 -> outcome (result (Move := Move)) * observed (Move := Move))
    (moves : list Move) :
  (forall b a bt d, fst (recur_obs b a bt d) = recur b a bt d) ->
  forall board alpha beta depth max_eval best_move,
    fst (negamax_loop_obs recur_obs moves board alpha beta depth
                          max_eval best_move)
    = negamax_loop recur moves board alpha beta depth max_eval best_move.
Proof.
  intros Hrec. induction moves as [|move rest IH]; intros; simpl;
    [reflexivity|].
  rewrite <- Hrec.
  destruct (recur_obs (push board move) (score_opp beta) (score_opp alpha)
                      (depth - 1)) as [[[[eval mv] board2]| |] sub]; simpl;
    try reflexivity.
  destruct (pop board2) as [board3|]; [|reflexivity].
  destruct (score_gtb (score_opp eval) max_eval);
    destruct (score_geb (score_max alpha (score_opp eval)) beta);
    try reflexivity.
  - rewrite <- IH.
    destruct (negamax_loop_obs recur_obs rest board3
                (score_max alpha (score_opp eval)) beta depth
                (score_opp eval) (Some move)); reflexivity.
  - rewrite <- IH.
    destruct (negamax_loop_obs recur_obs rest board3
                (score_max alpha (score_opp eval)) beta depth
                max_eval best_move); reflexivity.
Qed.

Lemma negamax_obs_outcome (fuel : nat) :
  forall board alpha beta depth,
    fst (negamax_obs model fuel board alpha beta depth)
    = negamax_fuel model fuel board alpha beta depth.
Proof.
  induction fuel as [|fuel IH]; intros; simpl; [reflexivity|].
  destruct ((depth =? 0) || is_game_over board); [reflexivity|].
  rewrite <- (negamax_loop_obs_outcome (negamax_fuel model fuel)
                (negamax_obs model fuel) _ IH).
  destruct (negamax_loop_obs (negamax_obs model fuel) (legal_moves board)
              board alpha beta depth NegInf None); reflexivity.
Qed.

(** C2: at depth 0, or on a board where the game is over, [negamax] returns
    the model's value of [extract_features(board)], negated exactly when
    Black is to move, together with no move.  It does so with fuel for this
    one call only, the run consists of this one invocation, and no move is
    examined: nothing is expanded. *)
Theorem negamax_leaf (fuel : nat) (board : Board) (alpha beta : score)
    (depth : Z) :
  depth = 0 \/ is_game_over board = true ->
  exists features,
    extract_features board = Some features
    /\ negamax_fuel model (S fuel) board alpha beta depth
       = Returned ((if turn board then Fin (model features)
                    else Fin (- model features), None), board)
    /\ snd (negamax_obs model (S fuel) board alpha beta depth)
       = mkObserved [(alpha, beta)] [].
Proof.
  intros Hleaf.
  assert (Hcond : (depth =? 0) || is_game_over board = true).
  { destruct Hleaf as [-> | ->]; [reflexivity|apply orb_true_r]. }
  destruct (leaf_score_returns board) as (features & E & Hs).
  exists features. split; [assumption|]. simpl.
  rewrite Hcond, Hs. split; reflexivity.
Qed.

(** The board after a call that returned. *)
Lemma negamax_loop_board
    (recur : Board -> score -> score -> Z -> outcome (result (Move := Move)))
    (moves : list Move) :
  pop_undoes_push ->
  (forall b a bt d r b', recur b a bt d = Returned (r, b') -> b' = b) ->
  forall board alpha beta depth max_eval best_move r board',
    negamax_loop recur moves board alpha beta depth max_eval best_move
    = Returned (r, board') ->
    board' = board.
Proof.
  intros Hpop Hrec. induction moves as [|move rest IH];
    intros board alpha beta depth max_eval best_move r board'; simpl.
  - intros Heq. inversion Heq. reflexivity.
  - destruct (recur (push board move) (score_opp beta) (score_opp alpha)
                    (depth - 1)) as [[[eval mv] board2]| |] eqn:Hcall;
      try discriminate.
    apply Hrec in Hcall. subst board2. rewrite Hpop.
    destruct (score_gtb (score_opp eval) max_eval);
      destruct (score_geb (score_max alpha (score_opp eval)) beta);
      try (intros Heq; inversion Heq; reflexivity); apply IH.
Qed.

Lemma negamax_fuel_board (fuel : nat) :
  pop_undoes_push ->
  forall board alpha beta depth r board',
    negamax_fuel model fuel board alpha beta depth = Returned (r, board') ->
    board' = board.
Proof.
  intros Hpop. induction fuel as [|fuel IH]; intros board alpha beta depth r board';
    simpl; [discriminate|].
  destruct ((depth =? 0) || is_game_over board).
  - destruct (leaf_score model board); [|discriminate].
    intros Heq. inversion Heq. reflexivity.
  - apply negamax_loop_board; assumption.
Qed.

(** With [pop] undoing [push], a call with enough fuel computes [alphabeta]
    and hands the board back. *)
Lemma negamax_loop_alphabeta
    (recur : Board -> score -> score -> Z -> outcome (result (Move := Move)))
    (pure : Board -> score -> score -> score * option Move)
    (depth : Z) (moves : list Move) :
  pop_undoes_push ->
  (forall b a bt, recur b a bt (depth - 1) = Returned (pure b a bt, b)) ->
  forall board alpha beta max_eval best_move,
    negamax_loop recur moves board alpha beta depth max_eval best_move
    = Returned (alphabeta_loop pure moves board alpha beta max_eval best_move,
                board).
Proof.
  intros Hpop Hrec. induction moves as [|move rest IH]; intros; simpl;
    [reflexivity|].
  rewrite Hrec, Hpop.
  destruct (pure (push board move) (score_opp beta) (score_opp alpha))
    as [eval mv]; simpl.
  destruct (score_gtb (score_opp eval) max_eval);
    destruct (score_geb (score_max alpha (score_opp eval)) beta);
    try reflexivity; apply IH.
Qed.

Lemma negamax_fuel_alphabeta (d : nat) :
  pop_undoes_push ->
  forall fuel board alpha beta,
    (d < fuel)%nat ->
    negamax_fuel model fuel board alpha beta (Z.of_nat d)
    = Returned (alphabeta model d board alpha beta, board).
Proof.
  intros Hpop. induction d as [|d IH]; intros [|fuel] board alpha beta Hfuel;
    try lia.
  - simpl. rewrite leaf_score_static. reflexivity.
  - cbn [negamax_fuel alphabeta].
    replace (Z.of_nat (S d) =? 0) with false by (symmetry; apply Z.eqb_neq; lia).
    cbn [orb].
    destruct (is_game_over board).
    + rewrite leaf_score_static. reflexivity.
    + apply negamax_loop_alphabeta; [assumption|].
      intros b a bt. replace (Z.of_nat (S d) - 1) with (Z.of_nat d) by lia.
      apply IH. lia.
Qed.

Lemma negamax_fuel_returns (fuel : nat) (board : Board) (alpha beta : score)
    (depth : Z) :
  pop_undoes_push ->
  0 <= depth -> (Z.to_nat depth < fuel)%nat ->
  negamax_fuel model fuel board alpha beta depth
  = Returned (alphabeta model (Z.to_nat depth) board alpha beta, board).
Proof.
  intros Hpop Hd Hfuel.
  rewrite <- (Z2Nat.id depth) at 1 by assumption.
  now apply negamax_fuel_alphabeta.
Qed.

(** C5: when [pop] undoes [push], a call of [negamax] that returns, for any
    window and any depth, leaves the board exactly as it was passed in; and
    with a depth of at least 0 and fuel for that many levels it does
    return. *)
Theorem negamax_restores_board (fuel : nat) (board : Board)
    (alpha beta : score) (depth : Z) :
  pop_undoes_push ->
  (forall r board',
     negamax_fuel model fuel board alpha beta depth = Returned (r, board') ->
     board' = board)
  /\ (0 <= depth -> (Z.to_nat depth < fuel)%nat ->
      exists r,
        negamax_fuel model fuel board alpha beta depth = Returned (r, board)).
Proof.
  intros Hpop. split.
  - intros r board'. now apply negamax_fuel_board.
  - intros Hd Hfuel. eexists. now apply negamax_fuel_returns.
Qed.

End SearchProperties.

(** ** Pruning does not change the result *)

Lemma score_lt_or_le (a b : score) : score_lt a b \/ score_le b a.
Proof.
  destruct (ScoreOrder.score_compare_spec a b); [right|left|right];
    try assumption; score_order.
Qed.

Section Pruning.
Context {Board Move : Type} `{!ChessEngine Board Move}.

(** The full-width loop never lowers its best score, and changes its move
    only when it raises the score. *)
Lemma full_loop_best (recur : Board -> score * option Move)
    (moves : list Move) (board : Board) :
  forall best best_move,
    score_le best (fst (full_loop recur moves board best best_move))
    /\ (fst (full_loop recur moves board best best_move) = best ->
        snd (full_loop recur moves board best best_move) = best_move).
Proof.
  induction moves as [|move rest IH]; intros best best_move; simpl.
  - split; [score_order|reflexivity].
  - destruct (score_gtb (score_opp (fst (recur (push board move)))) best)
      eqn:Hgt.
    + apply score_gtb_lt in Hgt.
      destruct (IH (score_opp (fst (recur (push board move)))) (Some move))
        as [Hle _].
      split; [score_order|]. intros Heq. exfalso. score_order.
    + apply IH.
Qed.

(** What the window of a child says about the value of its move. *)
Lemma child_within_window (alpha beta : score)
    (r t : score * option Move) :
  within_window (score_opp beta) (score_opp alpha) r t ->
  let eval := score_opp (fst r) in
  let value := score_opp (fst t) in
  (score_le alpha value -> score_lt value beta -> eval = value)
  /\ (score_le beta value -> score_le beta eval /\ score_le eval value)
  /\ (score_lt value alpha -> score_le value eval /\ score_le eval alpha).
Proof.
  intros (Hin & Hlow & Hhigh). cbv zeta. split; [|split].
  - intros Ha Hb. rewrite Hin; [reflexivity| |].
    + now apply score_opp_lt_l.
    + now apply score_opp_le_r.
  - intros Hb. destruct Hlow as [H1 H2].
    + now apply score_opp_le_r.
    + split; [now apply score_opp_le_r | now apply score_opp_le].
  - intros Ha. destruct Hhigh as [H1 H2].
    + now apply score_opp_lt_l.
    + split; [now apply score_opp_le | now apply score_opp_le_l].
Qed.

Lemma alphabeta_loop_within
    (pruned : Board -> score -> score -> score * option Move)
    (full : Board -> score * option Move)
    (moves : list Move) (board : Board) (alpha0 beta : score) :
  (forall b a bt, score_lt a bt -> within_window a bt (pruned b a bt) (full b)) ->
  forall alpha max_eval best_move best best_full,
    score_lt alpha beta ->
    loops_agree alpha0 alpha max_eval best_move best best_full ->
    within_window alpha0 beta
      (alphabeta_loop pruned moves board alpha beta max_eval best_move)
      (full_loop full moves board best best_full).
Proof.
  intros Hchild. induction moves as [|move rest IH];
    intros alpha max_eval best_move best best_full Hwin Hagree.
  - simpl. unfold within_window. simpl.
    destruct Hagree as [(H1 & -> & -> & ->)|(H1 & H2 & H3 & ->)].
    + split; [reflexivity|]. split; intros; exfalso; score_order.
    + split; [intros; exfalso; score_order|].
      split; [tauto|]. intros; exfalso; score_order.
  - cbn [alphabeta_loop full_loop].
    assert (Hopp : score_lt (score_opp beta) (score_opp alpha))
      by now apply score_opp_lt.
    pose proof (child_within_window alpha beta _ _
                  (Hchild (push board move) _ _ Hopp)) as Hc.
    cbv zeta in Hc.
    set (eval := score_opp (fst (pruned (push board move) (score_opp beta)
                                        (score_opp alpha)))) in *.
    set (value := score_opp (fst (full (push board move)))) in *.
    destruct Hc as (Hexact & Hhigh & Hlow).
    destruct (score_gtb eval max_eval) eqn:G1;
      [apply score_gtb_lt in G1 | apply score_gtb_le in G1];
      (destruct (score_max_cases alpha eval) as [[M1 ->]|[M1 ->]]);
      (destruct (score_gtb value best) eqn:G3;
       [apply score_gtb_lt in G3 | apply score_gtb_le in G3]).
    all: match goal with
         | |- context [score_geb ?a ?b] =>
           destruct (score_geb a b) eqn:G2;
           [apply score_geb_le in G2 | apply score_geb_lt in G2]
         end.
    all: destruct (score_lt_or_le value alpha) as [Hva|Hva];
      [ destruct (Hlow Hva) as [L1 L2]
      | destruct (score_lt_or_le value beta) as [Hvb|Hvb];
        [ pose proof (Hexact Hva Hvb) as Hev
        | destruct (Hhigh Hvb) as [L1 L2] ] ].
    all: destruct Hagree as [(A1 & A2 & A3 & A4)|(A1 & A2 & A3 & A4)].
    all: try (exfalso; score_order).
    all: try (apply IH; [score_order|]).
    all: try (left; repeat split; first [score_order|congruence]).
    all: try (right; repeat split; first [score_order|congruence]).
    all: destruct (full_loop_best full rest board value (Some move))
      as [Hbest Hsame];
      destruct (full_loop full rest board value (Some move)) as [t t_move];
      unfold within_window; simpl in *; split; [|split].
    all: try (intros; exfalso; score_order).
    all: try (intros; split; score_order).
    all: intros Ha Hb; assert (Ht : t = value) by score_order;
      rewrite (Hsame Ht); f_equal; score_order.
Qed.

Variable model : list pyval -> Z.

Lemma within_window_same (alpha beta : score) (r : score * option Move) :
  within_window alpha beta r r.
Proof.
  unfold within_window. split; [reflexivity|].
  split; intros; split; score_order.
Qed.

Lemma alphabeta_within (depth : nat) :
  forall board alpha beta,
    score_lt alpha beta ->
    within_window alpha beta (alphabeta model depth board alpha beta)
                  (full_negamax model depth board).
Proof.
  induction depth as [|depth IH]; intros board alpha beta Hwin; simpl.
  - apply within_window_same.
  - destruct (is_game_over board); [apply within_window_same|].
    apply alphabeta_loop_within; [exact IH|assumption|].
    right. repeat split; apply score_le_NegInf.
Qed.

(** A loop that holds no move holds the score it started with. *)
Lemma alphabeta_loop_no_move
    (pruned : Board -> score -> score -> score * option Move)
    (moves : list Move) (board : Board) (beta : score) :
  forall alpha max_eval best_move,
    (max_eval = NegInf -> best_move = None) ->
    fst (alphabeta_loop pruned moves board alpha beta max_eval best_move)
    = NegInf ->
    snd (alphabeta_loop pruned moves board alpha beta max_eval best_move)
    = None.
Proof.
  induction moves as [|move rest IH]; intros alpha max_eval best_move Hnone;
    simpl; [exact Hnone|].
  set (eval := score_opp (fst (pruned (push board move) (score_opp beta)
                                      (score_opp alpha)))).
  destruct (score_gtb eval max_eval) eqn:Hgt.
  - apply score_gtb_lt in Hgt.
    assert (Hne : eval <> NegInf).
    { intros E. rewrite E in Hgt. destruct max_eval; discriminate. }
    destruct (score_geb (score_max alpha eval) beta); simpl.
    + intros E. contradiction.
    + apply IH. intros E. contradiction.
  - destruct (score_geb (score_max alpha eval) beta); simpl.
    + exact Hnone.
    + apply IH. exact Hnone.
Qed.

Lemma alphabeta_no_move (depth : nat) (board : Board) (alpha beta : score) :
  fst (alphabeta model depth board alpha beta) = NegInf ->
  snd (alphabeta model depth board alpha beta) = None.
Proof.
  destruct depth as [|depth]; simpl; [reflexivity|].
  destruct (is_game_over board); [reflexivity|].
  apply alphabeta_loop_no_move. reflexivity.
Qed.

Lemma full_negamax_no_move (depth : nat) (board : Board) :
  fst (full_negamax model depth board) = NegInf ->
  snd (full_negamax model depth board) = None.
Proof.
  destruct depth as [|depth]; simpl; [reflexivity|].
  destruct (is_game_over board); [reflexivity|].
  apply full_loop_best.
Qed.

(** On the full window the pruned search and the full-width search return
    the same score and the same move. *)
Lemma alphabeta_full_window (depth : nat) (board : Board) :
  alphabeta model depth board NegInf PosInf = full_negamax model depth board.
Proof.
  assert (Hwin : score_lt NegInf PosInf) by reflexivity.
  destruct (alphabeta_within depth board NegInf PosInf Hwin)
    as (Hin & Hlow & _).
  destruct (score_lt_or_le NegInf (fst (full_negamax model depth board)))
    as [Hlt|Hle].
  - apply Hin; [assumption|apply score_le_PosInf].
  - destruct (Hlow Hle) as [_ Hr].
    assert (Er : fst (alphabeta model depth board NegInf PosInf) = NegInf).
    { pose proof (score_le_NegInf
                    (fst (alphabeta model depth board NegInf PosInf))).
      score_order. }
    assert (Et : fst (full_negamax model depth board) = NegInf).
    { pose proof (score_le_NegInf (fst (full_negamax model depth board))).
      score_order. }
    pose proof (alphabeta_no_move depth board NegInf PosInf Er) as Mr.
    pose proof (full_negamax_no_move depth board Et) as Mt.
    destruct (alphabeta model depth board NegInf PosInf) as [r rm].
    destruct (full_negamax model depth board) as [t tm].
    simpl in *. congruence.
Qed.

(** C1: when [pop] undoes [push], for every board and every depth of at
    least 0, [negamax] called with the window (-inf, +inf) returns exactly
    the score and the move of the full-width search of the same depth that
    tries the moves in the same order, and leaves the board as it was. *)
Theorem negamax_equals_full_search (fuel : nat) (board : Board) (depth : Z) :
  pop_undoes_push ->
  0 <= depth -> (Z.to_nat depth < fuel)%nat ->
  negamax_fuel model fuel board NegInf PosInf depth
  = Returned (full_negamax model (Z.to_nat depth) board, board).
Proof.
  intros Hpop Hd Hfuel.
  rewrite (negamax_fuel_returns model fuel board NegInf PosInf depth Hpop Hd Hfuel).
  now rewrite alphabeta_full_window.
Qed.

End Pruning.

(** ** The move that is returned *)

Section BestMove.
Context {Board Move : Type} `{!ChessEngine Board Move}.
Variable model : list pyval -> Z.

(** Once the loop holds a finite score and a move, or still has a move to
    try, it ends with a finite score and a move, provided the calls below it
    return finite scores. *)
Lemma negamax_loop_finite
    (recur : Board -> score -> score -> Z -> outcome (result (Move := Move)))
    (moves : list Move) :
  (forall b a bt d s mv b',
     recur b a bt d = Returned ((s, mv), b') -> exists x, s = Fin x) ->
  forall board alpha beta depth max_eval best_move s mv board',
    (max_eval = NegInf /\ moves <> [])
    \/ (exists x, max_eval = Fin x /\ is_Some best_move) ->
    negamax_loop recur moves board alpha beta depth max_eval best_move
    = Returned ((s, mv), board') ->
    exists x, s = Fin x /\ is_Some mv.
Proof.
  intros Hrec. induction moves as [|move rest IH];
    intros board alpha beta depth max_eval best_move s mv board' Hstate; simpl.
  - destruct Hstate as [[_ Hne]|(x & -> & Hmv)]; [contradiction|].
    intros Heq. inversion Heq; subst. eauto.
  - destruct (recur (push board move) (score_opp beta) (score_opp alpha)
                    (depth - 1)) as [[[eval0 mv0] board2]| |] eqn:Hcall;
      try discriminate.
    destruct (Hrec _ _ _ _ _ _ _ Hcall) as [x0 ->]. simpl.
    destruct (pop board2) as [board3|]; [|discriminate].
    assert (Hnext : exists x,
               fst (if score_gtb (Fin (- x0)) max_eval
                    then (Fin (- x0), Some move) else (max_eval, best_move))
               = Fin x
               /\ is_Some (snd (if score_gtb (Fin (- x0)) max_eval
                                then (Fin (- x0), Some move)
                                else (max_eval, best_move)))).
    { destruct (score_gtb (Fin (- x0)) max_eval) eqn:Hgt; simpl; [eauto|].
      destruct Hstate as [[-> _]|(x & -> & Hmv)]; [discriminate|eauto]. }
    destruct (if score_gtb (Fin (- x0)) max_eval
              then (Fin (- x0), Some move) else (max_eval, best_move))
      as [max_eval' best_move']. simpl in Hnext.
    destruct (score_geb (score_max alpha (Fin (- x0))) beta).
    + intros Heq. inversion Heq; subst. exact Hnext.
    + apply IH. right. exact Hnext.
Qed.

Lemma negamax_fuel_finite (fuel : nat) :
  game_over_when_stuck ->
  forall board alpha beta depth s mv board',
    negamax_fuel model fuel board alpha beta depth = Returned ((s, mv), board') ->
    (exists x, s = Fin x)
    /\ (mv = None -> depth = 0 \/ is_game_over board = true).
Proof.
  intros Hstuck. induction fuel as [|fuel IH];
    intros board alpha beta depth s mv board'; simpl; [discriminate|].
  destruct (depth =? 0) eqn:Hd; simpl.
  - rewrite leaf_score_static.
    destruct (static_eval_finite model board) as [x Hx]. rewrite Hx.
    intros Heq. inversion Heq; subst. split; [eauto|].
    intros _. left. now apply Z.eqb_eq.
  - destruct (is_game_over board) eqn:Hover.
    + rewrite leaf_score_static.
      destruct (static_eval_finite model board) as [x Hx]. rewrite Hx.
      intros Heq. inversion Heq; subst. split; [eauto|]. intros _. now right.
    + intros Hloop.
      destruct (negamax_loop_finite (negamax_fuel model fuel)
                  (legal_moves board)
                  (fun b a bt d s mv b' Hr => proj1 (IH b a bt d s mv b' Hr))
                  board alpha beta depth NegInf None s mv board')
        as (x & -> & [m ->]); [|assumption|].
      * left. split; [reflexivity|]. intros Hnil.
        apply Hstuck in Hnil. congruence.
      * split; [eauto|discriminate].
Qed.

(** C6: with a board on which a position without legal moves counts as
    game over, a call that returns no move was a leaf call: its depth was 0
    or the game was over.  And a call with a depth of at least 1, on a board
    where the game is not over and which has a legal move, does return (given
    that [pop] undoes [push]), with a move. *)
Theorem negamax_move_null_only_at_leaf (fuel : nat) (board : Board)
    (alpha beta : score) (depth : Z) :
  game_over_when_stuck ->
  (forall s mv board',
     negamax_fuel model fuel board alpha beta depth = Returned ((s, mv), board') ->
     mv = None -> depth = 0 \/ is_game_over board = true)
  /\ (pop_undoes_push ->
      1 <= depth -> (Z.to_nat depth < fuel)%nat ->
      is_game_over board = false -> legal_moves board <> [] ->
      exists s move,
        negamax_fuel model fuel board alpha beta depth
        = Returned ((s, Some move), board)).
Proof.
  intros Hstuck. split.
  - intros s mv board' Hr. now apply (negamax_fuel_finite fuel Hstuck) in Hr.
  - intros Hpop Hd Hfuel Hover _.
    pose proof (negamax_fuel_returns model fuel board alpha beta depth Hpop
                  ltac:(lia) Hfuel) as Hr.
    destruct (alphabeta model (Z.to_nat depth) board alpha beta) as [s mv].
    destruct (negamax_fuel_finite fuel Hstuck _ _ _ _ _ _ _ Hr) as [_ Hmv].
    destruct mv as [move|]; [eauto|].
    destruct (Hmv eq_refl) as [E|E]; [lia|congruence].
Qed.

End BestMove.

(** ** What the loop examines *)

Section Examined.
Context {Board Move : Type} `{!ChessEngine Board Move}.
Variable model : list pyval -> Z.

(** One pass of the recording loop, case by case. *)
Lemma negamax_loop_obs_cons
    (recur : Board -> score -> score -> Z
             -> outcome (result (Move := Move)) * observed (Move := Move))
    (move : Move) (rest : list Move) (board : Board) (alpha beta : score)
    (depth : Z) (max_eval : score) (best_move : option Move) :
  let call := recur (push board move) (score_opp beta) (score_opp alpha)
                    (depth - 1) in
  forall out obs,
    negamax_loop_obs recur (move :: rest) board alpha beta depth
                     max_eval best_move = (out, obs) ->
    (* the call below, or the [pop] after it, did not return *)
    (examined obs = [] /\ calls obs = calls (snd call)
     /\ forall r, out <> Returned r)
    \/ exists eval0 mv0 board2 board3,
         fst call = Returned ((eval0, mv0), board2)
         /\ pop board2 = Some board3
         /\ let eval := score_opp eval0 in
            let max_eval' := if score_gtb eval max_eval then eval else max_eval in
            let best_move' :=
              if score_gtb eval max_eval then Some move else best_move in
            let alpha' := score_max alpha eval in
            (* cut off *)
            (score_le beta alpha'
             /\ out = Returned ((max_eval', best_move'), board3)
             /\ examined obs = [(move, eval)]
             /\ calls obs = calls (snd call))
            (* or on to the next move *)
            \/ (score_lt alpha' beta
                /\ exists more,
                     negamax_loop_obs recur rest board3 alpha' beta depth
                                      max_eval' best_move' = (out, more)
                     /\ examined obs = (move, eval) :: examined more
                     /\ calls obs = calls (snd call) ++ calls more).
Proof.
  cbv zeta. intros out obs. cbn [negamax_loop_obs].
  destruct (recur (push board move) (score_opp beta) (score_opp alpha)
                  (depth - 1)) as [[[[eval0 mv0] board2]| |] sub]; simpl.
  2, 3: intros Heq; inversion Heq; subst; left; simpl;
    repeat split; discriminate.
  destruct (pop board2) as [board3|] eqn:Hpop.
  2: { intros Heq; inversion Heq; subst; left; simpl;
       repeat split; discriminate. }
  intros Heq. right. exists eval0, mv0, board2, board3.
  split; [reflexivity|]. split; [assumption|].
  destruct (score_gtb (score_opp eval0) max_eval);
    destruct (score_geb (score_max alpha (score_opp eval0)) beta) eqn:Hge.
  all: try (apply score_geb_le in Hge; left; inversion Heq; subst; simpl;
            repeat split; assumption).
  all: apply score_geb_lt in Hge; right; split; [assumption|].
  all: match type of Heq with
       | (let '(_, _) := ?l in _) = _ =>
         destruct l as [out' more] eqn:Hloop
       end.
  all: inversion Heq; subst; exists more; simpl; repeat split; reflexivity.
Qed.

Lemma negamax_loop_obs_nil
    (recur : Board -> score -> score -> Z
             -> outcome (result (Move := Move)) * observed (Move := Move))
    (board : Board) (alpha beta : score)
    (depth : Z) (max_eval : score) (best_move : option Move) :
  negamax_loop_obs recur [] board alpha beta depth max_eval best_move
  = (Returned ((max_eval, best_move), board), mkObserved [] []).
Proof. reflexivity. Qed.

Lemma running_alpha_cons (alpha eval : score) (evals : list score) :
  running_alpha alpha (eval :: evals)
  = running_alpha (score_max alpha eval) evals.
Proof. reflexivity. Qed.

(** Every call below a loop that starts with [alpha <= beta] gets a window
    whose ends are in order. *)
Lemma negamax_loop_obs_calls
    (recur : Board -> score -> score -> Z
             -> outcome (result (Move := Move)) * observed (Move := Move))
    (moves : list Move) :
  (forall b a bt d,
     score_le a bt -> Forall window_ok (calls (snd (recur b a bt d)))) ->
  forall board alpha beta depth max_eval best_move,
    score_le alpha beta ->
    Forall window_ok
      (calls (snd (negamax_loop_obs recur moves board alpha beta depth
                                    max_eval best_move))).
Proof.
  intros Hrec. induction moves as [|move rest IH];
    intros board alpha beta depth max_eval best_move Hwin.
  - constructor.
  - assert (Hsub : Forall window_ok
                     (calls (snd (recur (push board move) (score_opp beta)
                                        (score_opp alpha) (depth - 1))))).
    { apply Hrec. now apply score_opp_le. }
    destruct (negamax_loop_obs recur (move :: rest) board alpha beta depth
                               max_eval best_move) as [out obs] eqn:Hloop.
    apply negamax_loop_obs_cons in Hloop. cbv zeta in Hloop. simpl.
    destruct Hloop as [(_ & -> & _)
                      |(eval0 & mv0 & board2 & board3 & _ & _ &
                        [(_ & _ & _ & ->)|(Hlt & more & Hmore & _ & ->)])];
      try assumption.
    apply Forall_app. split; [assumption|].
    replace more with (snd (negamax_loop_obs recur rest board3
                              (score_max alpha (score_opp eval0)) beta depth
                              (if score_gtb (score_opp eval0) max_eval
                               then score_opp eval0 else max_eval)
                              (if score_gtb (score_opp eval0) max_eval
                               then Some move else best_move)))
      by (rewrite Hmore; reflexivity).
    apply IH. score_order.
Qed.

Lemma negamax_obs_calls (fuel : nat) :
  forall board alpha beta depth,
    score_le alpha beta ->
    Forall window_ok (calls (snd (negamax_obs model fuel board alpha beta depth))).
Proof.
  induction fuel as [|fuel IH]; intros board alpha beta depth Hwin; simpl.
  - constructor.
  - destruct ((depth =? 0) || is_game_over board); simpl.
    + repeat constructor. assumption.
    + pose proof (negamax_loop_obs_calls (negamax_obs model fuel)
                    (legal_moves board) IH board alpha beta depth NegInf None
                    Hwin) as Hcalls.
      destruct (negamax_loop_obs (negamax_obs model fuel) (legal_moves board)
                  board alpha beta depth NegInf None) as [out obs].
      simpl in *. constructor; assumption.
Qed.

(** The moves the loop examines are a first stretch of the moves it is
    given; it goes on after a move exactly while [alpha] is below [beta], and
    if it returns with moves left over, [alpha] has reached [beta]. *)
Lemma negamax_loop_obs_cutoff
    (recur : Board -> score -> score -> Z
             -> outcome (result (Move := Move)) * observed (Move := Move))
    (moves : list Move) :
  forall board alpha beta depth max_eval best_move out obs,
    negamax_loop_obs recur moves board alpha beta depth max_eval best_move
    = (out, obs) ->
    (fst <$> examined obs) `prefix_of` moves
    /\ (forall k, (0 < k < length (examined obs))%nat ->
                  score_lt (running_alpha alpha
                              (take k (snd <$> examined obs))) beta)
    /\ (forall r, out = Returned r ->
                  (length (examined obs) < length moves)%nat ->
                  score_le beta (running_alpha alpha (snd <$> examined obs))).
Proof.
  induction moves as [|move rest IH];
    intros board alpha beta depth max_eval best_move out obs Hloop.
  - rewrite negamax_loop_obs_nil in Hloop. inversion Hloop; subst. simpl.
    split; [reflexivity|]. split; intros; lia.
  - apply negamax_loop_obs_cons in Hloop. cbv zeta in Hloop.
    destruct Hloop as [(-> & _ & Hout)
                      |(eval0 & mv0 & board2 & board3 & _ & _ &
                        [(Hcut & _ & -> & _)|(Hlt & more & Hmore & -> & _)])].
    + simpl. split; [apply prefix_nil|].
      split; [intros; lia|]. intros r ->. now destruct (Hout r).
    + simpl. split; [apply prefix_cons, prefix_nil|].
      split; [intros; lia|]. intros; assumption.
    + destruct (IH _ _ _ _ _ _ _ _ Hmore) as (Hpre & Hgo & Hstop).
      rewrite !fmap_cons. cbn [fst snd length].
      split; [now apply prefix_cons|]. split.
      * intros [|k] Hk; [lia|]. cbn [take]. rewrite running_alpha_cons.
        destruct k as [|k]; [exact Hlt|]. apply Hgo. lia.
      * intros r Hr Hlen. rewrite running_alpha_cons.
        apply (Hstop r Hr). lia.
Qed.

(** The score the loop returns is the largest value among the best so far
    and the values it examined, and its move is the first examined move with
    that value unless no value was above the best so far. *)
Lemma negamax_loop_obs_best
    (recur : Board -> score -> score -> Z
             -> outcome (result (Move := Move)) * observed (Move := Move))
    (moves : list Move) :
  forall board alpha beta depth max_eval best_move s mv board' obs,
    negamax_loop_obs recur moves board alpha beta depth max_eval best_move
    = (Returned ((s, mv), board'), obs) ->
    (forall j m e, examined obs !! j = Some (m, e) -> score_le e s)
    /\ score_le max_eval s
    /\ ((s = max_eval /\ mv = best_move)
        \/ (score_lt max_eval s
            /\ exists i m,
                 mv = Some m
                 /\ examined obs !! i = Some (m, s)
                 /\ forall j m' e,
                      examined obs !! j = Some (m', e) -> e = s ->
                      (i <= j)%nat)).
Proof.
  induction moves as [|move rest IH];
    intros board alpha beta depth max_eval best_move s mv board' obs Hloop.
  - rewrite negamax_loop_obs_nil in Hloop. inversion Hloop; subst. simpl.
    split; [intros j m e Hj; now rewrite lookup_nil in Hj|].
    split; [score_order|]. now left.
  - apply negamax_loop_obs_cons in Hloop. cbv zeta in Hloop.
    destruct Hloop as [(_ & _ & Hout)
                      |(eval0 & mv0 & board2 & board3 & _ & _ &
                        [(Hcut & Hout & -> & _)|(Hlt & more & Hmore & -> & _)])].
    + now destruct (Hout ((s, mv), board')).
    + inversion Hout; subst. clear Hout.
      destruct (score_gtb (score_opp eval0) max_eval) eqn:Hgt;
        [apply score_gtb_lt in Hgt | apply score_gtb_le in Hgt].
      * split; [|split; [score_order|]].
        { intros [|j] m e Hj; simpl in Hj; inversion Hj; subst. score_order. }
        right. split; [assumption|]. exists 0%nat, move.
        repeat split. intros; lia.
      * split; [|split; [score_order|now left]].
        intros [|j] m e Hj; simpl in Hj; inversion Hj; subst. assumption.
    + destruct (IH _ _ _ _ _ _ _ _ _ _ Hmore) as (Hall & Hle & Hbest).
      destruct (score_gtb (score_opp eval0) max_eval) eqn:Hgt;
        [apply score_gtb_lt in Hgt | apply score_gtb_le in Hgt].
      * split; [|split; [score_order|]].
        { intros [|j] m e Hj; simpl in Hj.
          - inversion Hj; subst. assumption.
          - eapply Hall; eassumption. }
        right. split; [score_order|].
        destruct Hbest as [[-> ->]|(Hlts & i & m & -> & Hi & Hfirst)].
        -- exists 0%nat, move. repeat split. intros; lia.
        -- exists (S i), m. repeat split; [assumption|].
           intros [|j] m' e Hj He; simpl in Hj.
           ++ inversion Hj; subst. exfalso. score_order.
           ++ apply le_n_S. eapply Hfirst; eassumption.
      * split; [|split; [assumption|]].
        { intros [|j] m e Hj; simpl in Hj.
          - inversion Hj; subst. score_order.
          - eapply Hall; eassumption. }
        destruct Hbest as [[-> ->]|(Hlts & i & m & -> & Hi & Hfirst)];
          [now left|].
        right. split; [assumption|]. exists (S i), m.
        repeat split; [assumption|].
        intros [|j] m' e Hj He; simpl in Hj.
        -- inversion Hj; subst. exfalso. score_order.
        -- apply le_n_S. eapply Hfirst; eassumption.
Qed.

Lemma not_leaf (board : Board) (depth : Z) :
  depth <> 0 -> is_game_over board = false ->
  (depth =? 0) || is_game_over board = false.
Proof.
  intros Hd ->. rewrite orb_false_r. now apply Z.eqb_neq.
Qed.

Lemma negamax_obs_step (fuel : nat) (board : Board) (alpha beta : score)
    (depth : Z) :
  (depth =? 0) || is_game_over board = false ->
  exists out obs,
    negamax_loop_obs (negamax_obs model fuel) (legal_moves board)
                     board alpha beta depth NegInf None = (out, obs)
    /\ negamax_obs model (S fuel) board alpha beta depth
       = (out, mkObserved ((alpha, beta) :: calls obs) (examined obs)).
Proof.
  intros Hcond. simpl. rewrite Hcond.
  destruct (negamax_loop_obs (negamax_obs model fuel) (legal_moves board)
              board alpha beta depth NegInf None) as [out obs].
  eauto.
Qed.

(** C3: recording the windows and the examined moves does not change what a
    call computes.  When a call starts with [alpha <= beta], every
    invocation it leads to, however deep, starts with [alpha <= beta].  And in every call the
    moves examined are a first stretch of the legal moves, in their order;
    after each examined move but the last, the updated [alpha] is below
    [beta]; and when the call returns with legal moves left unexamined, the
    updated [alpha] has reached [beta]: the loop is cut off exactly then. *)
Theorem negamax_windows_and_cutoff (fuel : nat) (board : Board)
    (alpha beta : score) (depth : Z) :
  score_le alpha beta ->
  let obs := snd (negamax_obs model fuel board alpha beta depth) in
  fst (negamax_obs model fuel board alpha beta depth)
  = negamax_fuel model fuel board alpha beta depth
  /\ Forall window_ok (calls obs)
  /\ (fst <$> examined obs) `prefix_of` legal_moves board
  /\ (forall k, (0 < k < length (examined obs))%nat ->
                score_lt (running_alpha alpha (take k (snd <$> examined obs)))
                         beta)
  /\ (forall r,
        negamax_fuel model fuel board alpha beta depth = Returned r ->
        depth <> 0 -> is_game_over board = false ->
        (length (examined obs) < length (legal_moves board))%nat ->
        score_le beta (running_alpha alpha (snd <$> examined obs))).
Proof.
  intros Hwin. cbv zeta. split; [apply negamax_obs_outcome|].
  split; [now apply negamax_obs_calls|].
  destruct fuel as [|fuel].
  { simpl. split; [apply prefix_nil|]. split; [intros; lia|discriminate]. }
  destruct ((depth =? 0) || is_game_over board) eqn:Hcond.
  { simpl. rewrite Hcond. simpl. split; [apply prefix_nil|].
    split; [intros; lia|]. intros r _ Hd Hover.
    rewrite (not_leaf board depth Hd Hover) in Hcond. discriminate. }
  rewrite <- negamax_obs_outcome.
  destruct (negamax_obs_step fuel board alpha beta depth Hcond)
    as (out & obs & Hloop & ->). simpl.
  destruct (negamax_loop_obs_cutoff _ _ _ _ _ _ _ _ _ _ Hloop)
    as (Hpre & Hgo & Hstop).
  split; [assumption|]. split; [assumption|].
  intros r Hr _ _. now apply (Hstop r).
Qed.

(** C10: the record of the examined moves is taken without changing what
    the call computes.  In a call that is not a leaf call, the score
    returned is the largest of the values of the moves that were examined,
    and the move returned is the first examined move with that value: a
    later move that only ties does not replace it.  No move is returned only
    when no value was above -inf, which does not happen on a board where a
    position without legal moves counts as game over.  With a depth of at
    least 1 the call does return. *)
Theorem negamax_best_move_is_earliest (fuel : nat) (board : Board)
    (alpha beta : score) (depth : Z) :
  depth <> 0 -> is_game_over board = false ->
  fst (negamax_obs model fuel board alpha beta depth)
  = negamax_fuel model fuel board alpha beta depth
  /\ (forall s mv board',
     negamax_fuel model fuel board alpha beta depth
     = Returned ((s, mv), board') ->
     let ex := examined (snd (negamax_obs model fuel board alpha beta depth)) in
     (fst <$> ex) `prefix_of` legal_moves board
     /\ (forall j m e, ex !! j = Some (m, e) -> score_le e s)
     /\ (forall m, mv = Some m ->
                   exists i,
                     ex !! i = Some (m, s)
                     /\ forall j m' e,
                          ex !! j = Some (m', e) -> e = s -> (i <= j)%nat)
     /\ (mv = None -> s = NegInf)
     /\ (game_over_when_stuck -> is_Some mv))
  /\ (pop_undoes_push -> 0 <= depth -> (Z.to_nat depth < fuel)%nat ->
      exists r,
        negamax_fuel model fuel board alpha beta depth = Returned (r, board)).
Proof.
  intros Hd Hover. split; [apply negamax_obs_outcome|]. split.
  - intros s mv board' Hret.
    assert (Hsome : game_over_when_stuck -> is_Some mv).
    { intros Hstuck.
      destruct (negamax_fuel_finite model fuel Hstuck _ _ _ _ _ _ _ Hret)
        as [_ Hnone].
      destruct mv as [m|]; [eauto|].
      destruct (Hnone eq_refl); congruence. }
    revert Hret. cbv zeta. rewrite <- negamax_obs_outcome.
    destruct fuel as [|fuel]; [discriminate|].
    destruct (negamax_obs_step fuel board alpha beta depth
                (not_leaf board depth Hd Hover))
      as (out & obs & Hloop & ->). simpl.
    intros ->.
    destruct (negamax_loop_obs_cutoff _ _ _ _ _ _ _ _ _ _ Hloop)
      as (Hpre & _ & _).
    destruct (negamax_loop_obs_best _ _ _ _ _ _ _ _ _ _ _ _ Hloop)
      as (Hall & _ & Hbest).
    split; [assumption|]. split; [assumption|].
    destruct Hbest as [[-> ->]|(_ & i & m & -> & Hi & Hfirst)].
    + split; [discriminate|]. split; [reflexivity|assumption].
    + split; [|split; [discriminate|assumption]].
      intros m0 Hm0. inversion Hm0; subst. eauto.
  - intros Hpop Hd0 Hfuel. eexists. now apply negamax_fuel_returns.
Qed.

End Examined.

(** ** Parameters that the specification calls invalid *)

Section Parameters.
Context {Board Move : Type} `{!ChessEngine Board Move}.
Variable model : list pyval -> Z.

Lemma negamax_loop_not_raised
    (recur : Board -> score -> score -> Z -> outcome (result (Move := Move)))
    (moves : list Move) :
  pop_undoes_push ->
  (forall b a bt d, recur b a bt d <> Raised) ->
  (forall b a bt d r b', recur b a bt d = Returned (r, b') -> b' = b) ->
  forall board alpha beta depth max_eval best_move,
    negamax_loop recur moves board alpha beta depth max_eval best_move
    <> Raised.
Proof.
  intros Hpop Hnot Hboard. induction moves as [|move rest IH];
    intros board alpha beta depth max_eval best_move; simpl; [discriminate|].
  destruct (recur (push board move) (score_opp beta) (score_opp alpha)
                  (depth - 1)) as [[[eval mv] board2]| |] eqn:Hcall.
  - apply Hboard in Hcall. subst board2. rewrite Hpop.
    destruct (score_gtb (score_opp eval) max_eval);
      destruct (score_geb (score_max alpha (score_opp eval)) beta);
      try discriminate; apply IH.
  - now apply Hnot in Hcall.
  - discriminate.
Qed.

(** No value of [alpha], [beta] or [depth] makes [negamax] raise. *)
Lemma negamax_fuel_not_raised (fuel : nat) :
  pop_undoes_push ->
  forall board alpha beta depth,
    negamax_fuel model fuel board alpha beta depth <> Raised.
Proof.
  intros Hpop. induction fuel as [|fuel IH]; intros board alpha beta depth;
    simpl; [discriminate|].
  destruct ((depth =? 0) || is_game_over board).
  - rewrite leaf_score_static. discriminate.
  - apply negamax_loop_not_raised; try assumption.
    intros b a bt d r b'. now apply negamax_fuel_board.
Qed.

Lemma negamax_loop_depth
    (recur : Board -> score -> score -> Z -> outcome (result (Move := Move)))
    (moves : list Move) (depth depth' : Z) :
  (forall b a bt, recur b a bt (depth - 1) = recur b a bt (depth' - 1)) ->
  forall board alpha beta max_eval best_move,
    negamax_loop recur moves board alpha beta depth max_eval best_move
    = negamax_loop recur moves board alpha beta depth' max_eval best_move.
Proof.
  intros Hrec. induction moves as [|move rest IH]; intros; simpl;
    [reflexivity|].
  rewrite Hrec.
  destruct (recur (push board move) (score_opp beta) (score_opp alpha)
                  (depth' - 1)) as [[[eval mv] board2]| |]; try reflexivity.
  destruct (pop board2); [|reflexivity].
  destruct (score_gtb (score_opp eval) max_eval);
    destruct (score_geb (score_max alpha (score_opp eval)) beta);
    try reflexivity; apply IH.
Qed.

(** Below 0 the value of [depth] makes no difference: the test
    [depth == 0] fails at every level. *)
Lemma negamax_fuel_negative_depth (fuel : nat) :
  forall board alpha beta depth depth',
    depth < 0 -> depth' < 0 ->
    negamax_fuel model fuel board alpha beta depth
    = negamax_fuel model fuel board alpha beta depth'.
Proof.
  induction fuel as [|fuel IH]; intros board alpha beta depth depth' Hd Hd';
    simpl; [reflexivity|].
  replace (depth =? 0) with false by (symmetry; apply Z.eqb_neq; lia).
  replace (depth' =? 0) with false by (symmetry; apply Z.eqb_neq; lia).
  simpl. destruct (is_game_over board); [reflexivity|].
  apply negamax_loop_depth. intros b a bt. apply IH; lia.
Qed.

Lemma negamax_loop_depth_on (fuel : nat) (moves : list Move)
    (board : Board) (depth depth' : Z) :
  pop_undoes_push ->
  (forall move a bt,
     move ∈ moves ->
     negamax_fuel model fuel (push board move) a bt (depth - 1)
     = negamax_fuel model fuel (push board move) a bt (depth' - 1)) ->
  forall alpha beta max_eval best_move,
    negamax_loop (negamax_fuel model fuel) moves board alpha beta depth
                 max_eval best_move
    = negamax_loop (negamax_fuel model fuel) moves board alpha beta depth'
                   max_eval best_move.
Proof.
  intros Hpop. induction moves as [|move rest IH];
    intros Hrec alpha beta max_eval best_move; [reflexivity|].
  cbn [negamax_loop]. rewrite (Hrec move) by left.
  destruct (negamax_fuel model fuel (push board move) (score_opp beta)
              (score_opp alpha) (depth' - 1))
    as [[[eval mv] board2]| |] eqn:Hcall; try reflexivity.
  apply (negamax_fuel_board model fuel Hpop) in Hcall. subst board2.
  rewrite Hpop.
  destruct (score_gtb (score_opp eval) max_eval);
    destruct (score_geb (score_max alpha (score_opp eval)) beta);
    try reflexivity; apply IH; intros m a bt Hm; apply Hrec; now right.
Qed.

(** With a negative depth the search runs to the end of the game: where
    every line of play ends within [plies] moves it is the search of depth
    [plies]. *)
Lemma negamax_fuel_to_the_end (fuel : nat) :
  pop_undoes_push ->
  forall plies board alpha beta depth,
    depth < 0 -> ends_within plies board = true ->
    negamax_fuel model fuel board alpha beta depth
    = negamax_fuel model fuel board alpha beta (Z.of_nat plies).
Proof.
  intros Hpop. induction fuel as [|fuel IH];
    intros plies board alpha beta depth Hd Hends; [reflexivity|].
  cbn [negamax_fuel].
  destruct (is_game_over board) eqn:Hover.
  { now rewrite !orb_true_r. }
  rewrite !orb_false_r.
  destruct plies as [|plies]; cbn [ends_within] in Hends;
    rewrite Hover in Hends; [discriminate|]. cbn [orb] in Hends.
  replace (depth =? 0) with false by (symmetry; apply Z.eqb_neq; lia).
  replace (Z.of_nat (S plies) =? 0) with false
    by (symmetry; apply Z.eqb_neq; lia).
  apply negamax_loop_depth_on; [assumption|].
  intros move a bt Hmove.
  replace (Z.of_nat (S plies) - 1) with (Z.of_nat plies) by lia.
  apply IH; [lia|].
  rewrite forallb_forall in Hends. apply Hends.
  now apply list_elem_of_In.
Qed.

(** C7, as the code has it: [negamax] does not check its parameters and
    goes on with the search.  With a negative depth the test [depth == 0]
    stops the recursion at no level: the call is the same for every
    negative depth, and on a position from which every line of play ends
    within [plies] moves it returns what the search of depth [plies]
    returns, the board as it was.  With [alpha > beta] a call of depth at
    least 1 that is not a leaf call examines its first legal move, returns
    the value of that move, and examines nothing else. *)
Theorem negamax_does_not_validate (fuel : nat) (board : Board)
    (alpha beta : score) (depth : Z) :
  pop_undoes_push ->
  depth < 0 \/ score_lt beta alpha ->
  (depth < 0 ->
   (forall depth',
      depth' < 0 ->
      negamax_fuel model fuel board alpha beta depth
      = negamax_fuel model fuel board alpha beta depth')
   /\ (forall plies,
         ends_within plies board = true -> (plies < fuel)%nat ->
         negamax_fuel model fuel board alpha beta depth
         = Returned (alphabeta model plies board alpha beta, board)))
  /\ (score_lt beta alpha -> 1 <= depth -> (Z.to_nat depth < fuel)%nat ->
      is_game_over board = false ->
      forall move rest,
        legal_moves board = move :: rest ->
        exists s mv,
          negamax_fuel model fuel board alpha beta depth
          = Returned ((s, mv), board)
          /\ examined (snd (negamax_obs model fuel board alpha beta depth))
             = [(move, s)]).
Proof.
  intros Hpop _. split.
  { intros Hd. split.
    - intros depth' Hd'. now apply negamax_fuel_negative_depth.
    - intros plies Hends Hfuel.
      rewrite (negamax_fuel_to_the_end fuel Hpop plies) by assumption.
      now apply negamax_fuel_alphabeta. }
  intros Hwin Hd Hfuel Hover move rest Hmoves.
  pose proof (negamax_fuel_returns model fuel board alpha beta depth Hpop
                ltac:(lia) Hfuel) as Hr.
  destruct (alphabeta model (Z.to_nat depth) board alpha beta) as [s mv].
  exists s, mv. split; [assumption|].
  rewrite <- negamax_obs_outcome in Hr.
  destruct fuel as [|fuel]; [lia|].
  destruct (negamax_obs_step model fuel board alpha beta depth
              (not_leaf board depth ltac:(lia) Hover))
    as (out & obs & Hloop & Hobs).
  rewrite Hobs in *. simpl in *. subst out. rewrite Hmoves in Hloop.
  apply negamax_loop_obs_cons in Hloop. cbv zeta in Hloop.
  destruct Hloop as [(_ & _ & Hout)
                    |(eval0 & mv0 & board2 & board3 & _ & _ &
                      [(_ & Hout & -> & _)|(Hlt & _)])].
  - now destruct (Hout ((s, mv), board)).
  - inversion Hout as [[Hs Hm Hb]]. f_equal. f_equal.
    destruct (score_gtb (score_opp eval0) NegInf) eqn:Hgt; [reflexivity|].
    apply score_gtb_le in Hgt.
    pose proof (score_le_NegInf (score_opp eval0)). score_order.
  - exfalso. destruct (score_max_cases alpha (score_opp eval0))
      as [[M1 M2]|[M1 M2]]; rewrite M2 in Hlt; score_order.
Qed.

End Parameters.

(** ** The sample board as an instance of the statements above *)

Lemma sample_pop_undoes_push : pop_undoes_push (Board := sample_board).
Proof. intros [pieces first moves] move. reflexivity. Qed.

Lemma sample_game_over_when_stuck :
  game_over_when_stuck (Board := sample_board).
Proof.
  intros [pieces first moves]. simpl.
  destruct moves as [|a [|b moves]]; simpl; try discriminate. reflexivity.
Qed.

(** The feature list of the sample position, and its search to depth 2:
    both first moves are worth 4, the reply to the second one is cut off
    after its first move. *)
Example extract_features_sample :
  extract_features sample_start
  = Some (PyInt <$> [11; 1; 10; 2; 1; 0; 0; 0; 0; 0; 0; 1; 0;
                     0; 0; 0; 0; 4; 60; 1; 0; 0; 0; 0; 2; 1;
                     1; 2; 1; 1; 6; 0; 0; 0; 0; 0; 0]).
Proof. reflexivity. Qed.

Example negamax_obs_sample :
  negamax_obs sample_model 3 sample_start NegInf PosInf 2
  = (Returned ((Fin 4, Some 0%nat), sample_start),
     mkObserved [ (NegInf, PosInf); (NegInf, PosInf); (NegInf, PosInf);
                  (NegInf, Fin 4); (NegInf, Fin (-4)); (Fin 4, PosInf) ]
                [ (0%nat, Fin 4); (1%nat, Fin 4) ]).
Proof. reflexivity. Qed.

(** Depth 2 from the sample position, full window. *)
Lemma negamax_equals_full_search_sample :
  pop_undoes_push (Board := sample_board)
  /\ 0 <= 2
  /\ (Z.to_nat 2 < 3)%nat
  /\ negamax_fuel sample_model 3 sample_start NegInf PosInf 2
     = Returned (full_negamax sample_model (Z.to_nat 2) sample_start,
                 sample_start).
Proof.
  split; [exact sample_pop_undoes_push|].
  split; [lia|]. split; [simpl; lia|].
  apply (negamax_equals_full_search sample_model 3 sample_start 2).
  - exact sample_pop_undoes_push.
  - lia.
  - simpl. lia.
Defined.

(** Depth 0 at the sample position. *)
Lemma negamax_leaf_sample :
  (0 = 0 \/ is_game_over sample_start = true)
  /\ exists features,
       extract_features sample_start = Some features
       /\ negamax_fuel sample_model 1 sample_start NegInf PosInf 0
          = Returned ((if turn sample_start then Fin (sample_model features)
                       else Fin (- sample_model features), None),
                      sample_start)
       /\ snd (negamax_obs sample_model 1 sample_start NegInf PosInf 0)
          = mkObserved [(NegInf, PosInf)] [].
Proof.
  split; [left; reflexivity|].
  apply (negamax_leaf sample_model 0 sample_start NegInf PosInf 0).
  left. reflexivity.
Defined.

Lemma negamax_windows_and_cutoff_sample :
  score_le NegInf PosInf
  /\ let obs := snd (negamax_obs sample_model 3 sample_start NegInf PosInf 2) in
     fst (negamax_obs sample_model 3 sample_start NegInf PosInf 2)
     = negamax_fuel sample_model 3 sample_start NegInf PosInf 2
     /\ Forall window_ok (calls obs)
     /\ (fst <$> examined obs) `prefix_of` legal_moves sample_start
     /\ (forall k, (0 < k < length (examined obs))%nat ->
                   score_lt (running_alpha NegInf
                               (take k (snd <$> examined obs))) PosInf)
     /\ (forall r,
           negamax_fuel sample_model 3 sample_start NegInf PosInf 2
           = Returned r ->
           2 <> 0 -> is_game_over sample_start = false ->
           (length (examined obs) < length (legal_moves sample_start))%nat ->
           score_le PosInf (running_alpha NegInf (snd <$> examined obs))).
Proof.
  assert (Hwin : score_le NegInf PosInf) by discriminate.
  split; [exact Hwin|].
  exact (negamax_windows_and_cutoff sample_model 3 sample_start
           NegInf PosInf 2 Hwin).
Defined.

Lemma negamax_restores_board_sample :
  pop_undoes_push (Board := sample_board)
  /\ (forall r board',
        negamax_fuel sample_model 3 sample_start NegInf PosInf 2
        = Returned (r, board') ->
        board' = sample_start)
  /\ (0 <= 2 -> (Z.to_nat 2 < 3)%nat ->
      exists r,
        negamax_fuel sample_model 3 sample_start NegInf PosInf 2
        = Returned (r, sample_start)).
Proof.
  split; [exact sample_pop_undoes_push|].
  exact (negamax_restores_board sample_model 3 sample_start NegInf PosInf 2
           sample_pop_undoes_push).
Defined.

Lemma negamax_move_null_only_at_leaf_sample :
  game_over_when_stuck (Board := sample_board)
  /\ (forall s mv board',
        negamax_fuel sample_model 3 sample_start NegInf PosInf 2
        = Returned ((s, mv), board') ->
        mv = None -> 2 = 0 \/ is_game_over sample_start = true)
  /\ (pop_undoes_push (Board := sample_board) ->
      1 <= 2 -> (Z.to_nat 2 < 3)%nat ->
      is_game_over sample_start = false -> legal_moves sample_start <> [] ->
      exists s move,
        negamax_fuel sample_model 3 sample_start NegInf PosInf 2
        = Returned ((s, Some move), sample_start)).
Proof.
  split; [exact sample_game_over_when_stuck|].
  exact (negamax_move_null_only_at_leaf sample_model 3 sample_start
           NegInf PosInf 2 sample_game_over_when_stuck).
Defined.

(** At depth 2 both moves of the sample position are worth 4; the first is
    kept. *)
Lemma negamax_best_move_is_earliest_sample :
  2 <> 0
  /\ is_game_over sample_start = false
  /\ negamax_fuel sample_model 3 sample_start NegInf PosInf 2
     = Returned ((Fin 4, Some 0%nat), sample_start)
  /\ examined (snd (negamax_obs sample_model 3 sample_start NegInf PosInf 2))
     = [(0%nat, Fin 4); (1%nat, Fin 4)]
  /\ exists i,
       [(0%nat, Fin 4); (1%nat, Fin 4)] !! i = Some (0%nat, Fin 4)
       /\ forall j m' e,
            [(0%nat, Fin 4); (1%nat, Fin 4)] !! j = Some (m', e) ->
            e = Fin 4 -> (i <= j)%nat.
Proof.
  assert (Hd : 2 <> 0) by discriminate.
  assert (Hover : is_game_over sample_start = false) by reflexivity.
  assert (Hr : negamax_fuel sample_model 3 sample_start NegInf PosInf 2
               = Returned ((Fin 4, Some 0%nat), sample_start))
    by reflexivity.
  split; [exact Hd|]. split; [exact Hover|]. split; [exact Hr|].
  split; [reflexivity|].
  destruct (negamax_best_move_is_earliest sample_model 3 sample_start
              NegInf PosInf 2 Hd Hover) as (_ & Hbest & _).
  destruct (Hbest _ _ _ Hr) as (_ & _ & Hfirst & _ & _).
  exact (Hfirst 0%nat eq_refl).
Defined.

(** C7 as the specification states it fails on the sample position: with
    [alpha = 1 > beta = 0] and depth 1 the call returns the first move and
    its value (the full search finds the other move, worth 3), and with
    depth -1 it returns the result of the search down to the end of the
    game. *)
Lemma negamax_runs_on_invalid_parameters :
  score_lt (Fin 0) (Fin 1)
  /\ negamax_fuel sample_model 2 sample_start (Fin 1) (Fin 0) 1
     = Returned ((Fin 2, Some 0%nat), sample_start)
  /\ full_negamax sample_model 1 sample_start = (Fin 3, Some 1%nat)
  /\ -1 < 0
  /\ negamax_fuel sample_model 3 sample_start NegInf PosInf (-1)
     = Returned ((Fin 4, Some 0%nat), sample_start).
Proof. repeat split. Qed.

(** The two kinds of invalid parameters on the sample position, where
    every line of play ends within 2 moves: depth -1 with the full window,
    and the window with [alpha = 1 > beta = 0] at depth 1. *)
Lemma negamax_does_not_validate_sample :
  pop_undoes_push (Board := sample_board)
  /\ -1 < 0
  /\ ends_within 2 sample_start = true
  /\ (2 < 3)%nat
  /\ negamax_fuel sample_model 3 sample_start NegInf PosInf (-1)
     = Returned (alphabeta sample_model 2 sample_start NegInf PosInf,
                 sample_start)
  /\ score_lt (Fin 0) (Fin 1)
  /\ 1 <= 1
  /\ (Z.to_nat 1 < 2)%nat
  /\ is_game_over sample_start = false
  /\ legal_moves sample_start = [0%nat; 1%nat]
  /\ exists s mv,
       negamax_fuel sample_model 2 sample_start (Fin 1) (Fin 0) 1
       = Returned ((s, mv), sample_start)
       /\ examined (snd (negamax_obs sample_model 2 sample_start
                                     (Fin 1) (Fin 0) 1))
          = [(0%nat, s)].
Proof.
  assert (Hneg : -1 < 0) by lia.
  assert (Hends : ends_within 2 sample_start = true) by reflexivity.
  assert (Hfuel : (2 < 3)%nat) by lia.
  assert (Hwin : score_lt (Fin 0) (Fin 1)) by reflexivity.
  assert (Hd : 1 <= 1) by lia.
  assert (Hfuel' : (Z.to_nat 1 < 2)%nat) by (simpl; lia).
  assert (Hover : is_game_over sample_start = false) by reflexivity.
  assert (Hmoves : legal_moves sample_start = [0%nat; 1%nat])
    by reflexivity.
  split; [exact sample_pop_undoes_push|]. split; [exact Hneg|].
  split; [exact Hends|]. split; [exact Hfuel|].
  split.
  { exact (proj2 (proj1 (negamax_does_not_validate sample_model 3
                           sample_start NegInf PosInf (-1)
                           sample_pop_undoes_push (or_introl Hneg)) Hneg)
                 2%nat Hends Hfuel). }
  split; [exact Hwin|]. split; [exact Hd|]. split; [exact Hfuel'|].
  split; [exact Hover|]. split; [exact Hmoves|].
  exact (proj2 (negamax_does_not_validate sample_model 2 sample_start
                  (Fin 1) (Fin 0) 1 sample_pop_undoes_push (or_intror Hwin))
               Hwin Hd Hfuel' Hover 0%nat [1%nat] Hmoves).
Defined.

(** * Further properties of the search *)

Section SearchGuarantees.
Context {Board Move : Type} `{!ChessEngine Board Move}.
Variable model : list pyval -> Z.

(** More fuel does not change what a call does. *)
Lemma negamax_loop_fuel
    (recur recur' : Board -> score -> score -> Z
                    -> outcome (result (Move := Move)))
    (moves : list Move) :
  (forall b a bt d out,
     recur b a bt d = out -> out <> OutOfFuel -> recur' b a bt d = out) ->
  forall board alpha beta depth max_eval best_move out,
    negamax_loop recur moves board alpha beta depth max_eval best_move = out ->
    out <> OutOfFuel ->
    negamax_loop recur' moves board alpha beta depth max_eval best_move = out.
Proof.
  intros Hrec. induction moves as [|move rest IH];
    intros board alpha beta depth max_eval best_move out; simpl;
    [tauto|].
  destruct (recur (push board move) (score_opp beta) (score_opp alpha)
                  (depth - 1)) as [[[eval mv] board2]| |] eqn:Hcall.
  - rewrite (Hrec _ _ _ _ _ Hcall) by discriminate.
    destruct (pop board2) as [board3|]; [|tauto].
    destruct (score_gtb (score_opp eval) max_eval);
      destruct (score_geb (score_max alpha (score_opp eval)) beta);
      try tauto; apply IH.
  - rewrite (Hrec _ _ _ _ _ Hcall) by discriminate. tauto.
  - intros <- Hne. contradiction.
Qed.

Lemma negamax_fuel_more (fuel : nat) :
  forall board alpha beta depth out,
    negamax_fuel model fuel board alpha beta depth = out ->
    out <> OutOfFuel ->
    negamax_fuel model (S fuel) board alpha beta depth = out.
Proof.
  induction fuel as [|fuel IH]; intros board alpha beta depth out.
  - simpl. intros <- Hne. contradiction.
  - change (negamax_fuel model (S (S fuel)) board alpha beta depth)
      with (if (depth =? 0) || is_game_over board then
              match leaf_score model board with
              | Some score => Returned ((score, None), board)
              | None => Raised
              end
            else negamax_loop (negamax_fuel model (S fuel)) (legal_moves board)
                              board alpha beta depth NegInf None).
    cbn [negamax_fuel].
    destruct ((depth =? 0) || is_game_over board); [tauto|].
    apply negamax_loop_fuel. exact IH.
Qed.

(** With a depth of at least 0, fuel for [depth + 1] levels is never used
    up, whatever [pop] does. *)
Lemma negamax_loop_enough
    (recur : Board -> score -> score -> Z -> outcome (result (Move := Move)))
    (moves : list Move) (depth : Z) :
  (forall b a bt, recur b a bt (depth - 1) <> OutOfFuel) ->
  forall board alpha beta max_eval best_move,
    negamax_loop recur moves board alpha beta depth max_eval best_move
    <> OutOfFuel.
Proof.
  intros Hrec. induction moves as [|move rest IH]; intros; simpl;
    [discriminate|].
  destruct (recur (push board move) (score_opp beta) (score_opp alpha)
                  (depth - 1)) as [[[eval mv] board2]| |] eqn:Hcall;
    try discriminate.
  - destruct (pop board2); [|discriminate].
    destruct (score_gtb (score_opp eval) max_eval);
      destruct (score_geb (score_max alpha (score_opp eval)) beta);
      try discriminate; apply IH.
  - now apply Hrec in Hcall.
Qed.

Lemma negamax_fuel_enough (d : nat) :
  forall fuel board alpha beta,
    (d < fuel)%nat ->
    negamax_fuel model fuel board alpha beta (Z.of_nat d) <> OutOfFuel.
Proof.
  induction d as [|d IH]; intros [|fuel] board alpha beta Hfuel; try lia;
    cbn [negamax_fuel].
  - simpl. destruct (leaf_score model board); discriminate.
  - destruct ((Z.of_nat (S d) =? 0) || is_game_over board).
    + destruct (leaf_score model board); discriminate.
    + apply negamax_loop_enough. intros b a bt.
      replace (Z.of_nat (S d) - 1) with (Z.of_nat d) by lia.
      apply IH. lia.
Qed.

(** X1: with any window [alpha < beta], a depth of at least 0 and [pop]
    undoing [push], [negamax] returns, leaves the board as it was, and its
    result relates to that of the full-width search [t] as follows.  When
    the score of [t] lies in the window (above [alpha], at most [beta]) the
    result is [t], score and move.  When it is at most [alpha], the returned
    score lies between it and [alpha]; when it is above [beta], the returned
    score lies between [beta] and it. *)
Theorem negamax_result_within_window (fuel : nat) (board : Board)
    (alpha beta : score) (depth : Z) :
  pop_undoes_push ->
  score_lt alpha beta ->
  0 <= depth -> (Z.to_nat depth < fuel)%nat ->
  exists r,
    negamax_fuel model fuel board alpha beta depth = Returned (r, board)
    /\ let t := full_negamax model (Z.to_nat depth) board in
       (score_lt alpha (fst t) -> score_le (fst t) beta -> r = t)
       /\ (score_le (fst t) alpha ->
           score_le (fst t) (fst r) /\ score_le (fst r) alpha)
       /\ (score_lt beta (fst t) ->
           score_le beta (fst r) /\ score_le (fst r) (fst t)).
Proof.
  intros Hpop Hwin Hd Hfuel. eexists. split.
  - now apply negamax_fuel_returns.
  - apply (alphabeta_within model (Z.to_nat depth) board alpha beta Hwin).
Qed.

Lemma negamax_fuel_move_legal (fuel : nat) (board : Board)
    (alpha beta : score) (depth : Z) (s : score) (move : Move)
    (board' : Board) :
  negamax_fuel model fuel board alpha beta depth
  = Returned ((s, Some move), board') ->
  move ∈ legal_moves board.
Proof.
  rewrite <- negamax_obs_outcome.
  destruct fuel as [|fuel]; [discriminate|]. simpl.
  destruct ((depth =? 0) || is_game_over board) eqn:Hcond.
  { simpl. destruct (leaf_score model board); discriminate. }
  destruct (negamax_loop_obs (negamax_obs model fuel) (legal_moves board)
              board alpha beta depth NegInf None) as [out obs] eqn:Hloop.
  simpl. intros ->.
  destruct (negamax_loop_obs_cutoff _ _ _ _ _ _ _ _ _ _ Hloop)
    as (Hpre & _ & _).
  destruct (negamax_loop_obs_best _ _ _ _ _ _ _ _ _ _ _ _ Hloop)
    as (_ & _ & [[_ Hnone]|(_ & i & m & Hm & Hi & _)]); [discriminate|].
  inversion Hm; subst m.
  destruct Hpre as [more ->]. apply elem_of_app. left.
  apply list_elem_of_fmap. exists (move, s).
  split; [reflexivity|]. eapply list_elem_of_lookup_2. eassumption.
Qed.

(** X2: the move a call returns is one of the legal moves of the board it
    was called on, whatever the window and the depth.  With the board
    behaving as python-chess does, a call of depth at least 1 on a board
    where the game is not over returns such a move. *)
Theorem negamax_returns_legal_move (fuel : nat) (board : Board)
    (alpha beta : score) (depth : Z) :
  (forall s move board',
     negamax_fuel model fuel board alpha beta depth
     = Returned ((s, Some move), board') ->
     move ∈ legal_moves board)
  /\ (pop_undoes_push -> game_over_when_stuck ->
      1 <= depth -> (Z.to_nat depth < fuel)%nat ->
      is_game_over board = false ->
      exists s move,
        negamax_fuel model fuel board alpha beta depth
        = Returned ((s, Some move), board)
        /\ move ∈ legal_moves board).
Proof.
  assert (Hlegal : forall s move board',
             negamax_fuel model fuel board alpha beta depth
             = Returned ((s, Some move), board') ->
             move ∈ legal_moves board)
    by (intros s move board'; apply negamax_fuel_move_legal).
  split; [exact Hlegal|].
  intros Hpop Hstuck Hd Hfuel Hover.
  pose proof (negamax_fuel_returns model fuel board alpha beta depth Hpop
                ltac:(lia) Hfuel) as Hr.
  destruct (alphabeta model (Z.to_nat depth) board alpha beta) as [s mv].
  destruct (negamax_fuel_finite model fuel Hstuck _ _ _ _ _ _ _ Hr)
    as [_ Hmv].
  destruct mv as [move|].
  - exists s, move. split; [assumption|]. eapply Hlegal. eassumption.
  - destruct (Hmv eq_refl) as [E|E]; [lia|congruence].
Qed.

(** X3: on a board where a position without legal moves counts as game
    over, the score a call returns is never one of the infinities: the
    initial [-float('inf')] of [max_eval] does not leak out.  With a depth of
    at least 0 and [pop] undoing [push] the call does return. *)
Theorem negamax_score_is_finite (fuel : nat) (board : Board)
    (alpha beta : score) (depth : Z) :
  game_over_when_stuck ->
  (forall s mv board',
     negamax_fuel model fuel board alpha beta depth
     = Returned ((s, mv), board') ->
     exists x, s = Fin x)
  /\ (pop_undoes_push -> 0 <= depth -> (Z.to_nat depth < fuel)%nat ->
      exists x mv,
        negamax_fuel model fuel board alpha beta depth
        = Returned ((Fin x, mv), board)).
Proof.
  intros Hstuck. split.
  - intros s mv board' Hr.
    now destruct (negamax_fuel_finite model fuel Hstuck _ _ _ _ _ _ _ Hr).
  - intros Hpop Hd Hfuel.
    pose proof (negamax_fuel_returns model fuel board alpha beta depth Hpop
                  Hd Hfuel) as Hr.
    destruct (alphabeta model (Z.to_nat depth) board alpha beta) as [s mv].
    destruct (negamax_fuel_finite model fuel Hstuck _ _ _ _ _ _ _ Hr)
      as [[x ->] _].
    eauto.
Qed.

(** A loop with [beta = +inf] whose calls return finite scores is never cut
    off. *)
Lemma negamax_loop_obs_no_cutoff
    (recur : Board -> score -> score -> Z
             -> outcome (result (Move := Move)) * observed (Move := Move))
    (moves : list Move) (depth : Z) :
  pop_undoes_push ->
  (forall b a bt, exists x mv,
     fst (recur b a bt (depth - 1)) = Returned ((Fin x, mv), b)) ->
  forall board alpha max_eval best_move,
    score_lt alpha PosInf ->
    fst <$> examined (snd (negamax_loop_obs recur moves board alpha PosInf
                                            depth max_eval best_move))
    = moves.
Proof.
  intros Hpop Hrec. induction moves as [|move rest IH];
    intros board alpha max_eval best_move Halpha; [reflexivity|].
  cbn [negamax_loop_obs].
  destruct (Hrec (push board move) (score_opp PosInf) (score_opp alpha))
    as (x & mv & Hr).
  destruct (recur (push board move) (score_opp PosInf) (score_opp alpha)
                  (depth - 1)) as [out sub].
  simpl in Hr. subst out. rewrite Hpop.
  assert (Hnext : score_lt (score_max alpha (score_opp (Fin x))) PosInf).
  { destruct (score_max_cases alpha (score_opp (Fin x))) as [[_ ->]|[_ ->]];
      [reflexivity|assumption]. }
  specialize (IH board (score_max alpha (score_opp (Fin x)))).
  destruct (score_gtb (score_opp (Fin x)) max_eval).
  - rewrite (proj2 (score_geb_lt _ _) Hnext).
    specialize (IH (score_opp (Fin x)) (Some move) Hnext).
    destruct (negamax_loop_obs recur rest board
                (score_max alpha (score_opp (Fin x))) PosInf depth
                (score_opp (Fin x)) (Some move)) as [out' more].
    cbn [snd examined] in *. rewrite fmap_cons. cbn [fst]. now rewrite IH.
  - rewrite (proj2 (score_geb_lt _ _) Hnext).
    specialize (IH max_eval best_move Hnext).
    destruct (negamax_loop_obs recur rest board
                (score_max alpha (score_opp (Fin x))) PosInf depth
                max_eval best_move) as [out' more].
    cbn [snd examined] in *. rewrite fmap_cons. cbn [fst]. now rewrite IH.
Qed.

(** X4: called with [beta = +inf] (as the game loop does) and [alpha] below
    it, a call of depth at least 1 on a board where the game is not over
    examines every legal move, in order: there is no cutoff at this level.
    The board is assumed to behave as python-chess does. *)
Theorem negamax_top_level_examines_all_moves (fuel : nat) (board : Board)
    (alpha : score) (depth : Z) :
  pop_undoes_push -> game_over_when_stuck ->
  score_lt alpha PosInf ->
  1 <= depth -> (Z.to_nat depth < fuel)%nat ->
  is_game_over board = false ->
  fst <$> examined (snd (negamax_obs model fuel board alpha PosInf depth))
  = legal_moves board.
Proof.
  intros Hpop Hstuck Halpha Hd Hfuel Hover.
  destruct fuel as [|fuel]; [lia|].
  destruct (negamax_obs_step model fuel board alpha PosInf depth
              (not_leaf board depth ltac:(lia) Hover))
    as (out & obs & Hloop & ->). simpl.
  replace obs with (snd (negamax_loop_obs (negamax_obs model fuel)
                           (legal_moves board) board alpha PosInf depth
                           NegInf None))
    by (rewrite Hloop; reflexivity).
  apply negamax_loop_obs_no_cutoff; try assumption.
  intros b a bt. rewrite negamax_obs_outcome.
  pose proof (negamax_fuel_returns model fuel b a bt (depth - 1) Hpop
                ltac:(lia) ltac:(lia)) as Hr.
  destruct (alphabeta model (Z.to_nat (depth - 1)) b a bt) as [s mv].
  destruct (negamax_fuel_finite model fuel Hstuck _ _ _ _ _ _ _ Hr)
    as [[x ->] _].
  eauto.
Qed.

(** The invocations below a loop number at most the positions below its
    moves. *)
Lemma negamax_loop_obs_work
    (recur : Board -> score -> score -> Z
             -> outcome (result (Move := Move)) * observed (Move := Move))
    (moves : list Move) (depth : Z) (d : nat) :
  pop_undoes_push ->
  (forall b a bt,
     (length (calls (snd (recur b a bt (depth - 1)%Z)))
      <= game_tree_size d b)%nat) ->
  (forall b a bt r b',
     fst (recur b a bt (depth - 1)) = Returned (r, b') -> b' = b) ->
  forall board alpha beta max_eval best_move,
    (length (calls (snd (negamax_loop_obs recur moves board alpha beta
                                          depth max_eval best_move)))
     <= foldr Nat.add 0%nat
          ((fun move => game_tree_size d (push board move)) <$> moves))%nat.
Proof.
  intros Hpop Hwork Hboard. induction moves as [|move rest IH];
    intros board alpha beta max_eval best_move; [simpl; lia|].
  rewrite fmap_cons. cbn [foldr negamax_loop_obs].
  pose proof (Hwork (push board move) (score_opp beta) (score_opp alpha))
    as Hsub.
  pose proof (Hboard (push board move) (score_opp beta) (score_opp alpha))
    as Hback.
  destruct (recur (push board move) (score_opp beta) (score_opp alpha)
                  (depth - 1)) as [[[[eval mv] board2]| |] sub];
    simpl in *; try lia.
  rewrite (Hback _ _ eq_refl), Hpop.
  destruct (score_gtb (score_opp eval) max_eval);
    destruct (score_geb (score_max alpha (score_opp eval)) beta);
    simpl; try lia.
  - specialize (IH board (score_max alpha (score_opp eval)) beta
                   (score_opp eval) (Some move)).
    destruct (negamax_loop_obs recur rest board
                (score_max alpha (score_opp eval)) beta depth
                (score_opp eval) (Some move)) as [out' more].
    simpl in *. rewrite length_app. lia.
  - specialize (IH board (score_max alpha (score_opp eval)) beta
                   max_eval best_move).
    destruct (negamax_loop_obs recur rest board
                (score_max alpha (score_opp eval)) beta depth
                max_eval best_move) as [out' more].
    simpl in *. rewrite length_app. lia.
Qed.

Lemma negamax_obs_work (d : nat) :
  pop_undoes_push ->
  forall fuel board alpha beta,
    (length (calls (snd (negamax_obs model fuel board alpha beta
                                     (Z.of_nat d))))
     <= game_tree_size d board)%nat.
Proof.
  intros Hpop. induction d as [|d IH]; intros [|fuel] board alpha beta;
    cbn [negamax_obs game_tree_size]; try (simpl; lia).
  destruct (is_game_over board); [simpl; lia|].
  { pose proof (negamax_loop_obs_work (negamax_obs model fuel)
                  (legal_moves board) (Z.of_nat (S d)) d Hpop) as Hloop.
    replace (Z.of_nat (S d) - 1) with (Z.of_nat d) in Hloop by lia.
    specialize (Hloop (fun b a bt => IH fuel b a bt)).
    specialize (Hloop (fun b a bt r b' Hr =>
                         negamax_fuel_board model fuel Hpop b a bt _ r b'
                           (eq_trans (eq_sym (negamax_obs_outcome model fuel
                                                b a bt _)) Hr))).
    specialize (Hloop board alpha beta NegInf None).
    destruct (negamax_loop_obs (negamax_obs model fuel) (legal_moves board)
                board alpha beta (Z.of_nat (S d)) NegInf None) as [out obs].
    simpl in *. lia. }
Qed.

(** X5: with [pop] undoing [push] and a depth of at least 0, a call makes, for
    any window, at most as many invocations of [negamax] (itself included) as
    the game tree below the board has positions down to that depth: the
    cutoffs only ever leave work out. *)
Theorem negamax_calls_at_most_game_tree (fuel : nat) (board : Board)
    (alpha beta : score) (depth : Z) :
  pop_undoes_push ->
  0 <= depth ->
  (length (calls (snd (negamax_obs model fuel board alpha beta depth)))
   <= game_tree_size (Z.to_nat depth) board)%nat.
Proof.
  intros Hpop Hd.
  rewrite <- (Z2Nat.id depth) at 1 by assumption.
  now apply negamax_obs_work.
Qed.

End SearchGuarantees.

(** * Further properties of [extract_features] *)

Lemma color_count_step (d d' : gmap bool Z) (col cond : bool)
    (ind : bool -> bool) :
  (forall k, k <> col -> d' !! k = d !! k) ->
  d' !! col = (if cond then (fun n => n + 1) else id) <$> d !! col ->
  ind col = cond ->
  (forall k, k <> col -> ind k = false) ->
  forall c, d' !! c = (fun n => n + int_of_bool (ind c)) <$> d !! c.
Proof.
  intros Hother Hself Hcol Hrest c.
  destruct (decide (c = col)) as [->|Hne].
  - rewrite Hself, Hcol.
    destruct cond, (d !! col); simpl; f_equal; lia.
  - rewrite (Hother c Hne), (Hrest c Hne).
    destruct (d !! c); simpl; f_equal; lia.
Qed.

Section FeatureCensus.
Context {Board Move : Type} `{!ChessEngine Board Move}.

Lemma piece_is_at (board : Board) (sq : Z) (piece : Piece) (c : bool)
    (ptype : Z) :
  piece_at board sq = Some piece ->
  piece_is board c ptype sq
  = (piece_type piece =? ptype) && eqb (color piece) c.
Proof. intros Hp. unfold piece_is. now rewrite Hp. Qed.

Lemma side_on_at (board : Board) (sq : Z) (piece : Piece) (c : bool) :
  piece_at board sq = Some piece ->
  side_on board c sq = eqb (color piece) c.
Proof. intros Hp. unfold side_on. now rewrite Hp. Qed.

Lemma dict_has_PIECE_VALUES (ptype : Z) :
  dict_has PIECE_VALUES ptype = true ->
  ptype = PAWN \/ ptype = KNIGHT \/ ptype = BISHOP \/ ptype = ROOK
  \/ ptype = QUEEN.
Proof.
  unfold dict_has, dict_keys, PIECE_VALUES. cbn [existsb map fst].
  intros Hin.
  repeat (apply orb_prop in Hin as [Hin|Hin];
          [apply Z.eqb_eq in Hin; subst ptype; tauto|]).
  discriminate.
Qed.

(** One pass of the scan adds to every count what the square contributes. *)
Lemma scan_square_census (board : Board) (sq : Z) (st : locals) :
  keys_present st ->
  exists st',
    scan_square board sq st = Some st'
    /\ (forall c ptype,
          dict_has PIECE_VALUES ptype = true ->
          piece_counts st' !! (c, ptype)
          = (fun n => n + int_of_bool (piece_is board c ptype sq))
              <$> piece_counts st !! (c, ptype))
    /\ center_control_white st'
       = center_control_white st
         + int_of_bool (side_on board WHITE sq && in_center sq)
    /\ center_control_black st'
       = center_control_black st
         + int_of_bool (side_on board BLACK sq && in_center sq)
    /\ white_in_black_half st'
       = white_in_black_half st
         + int_of_bool (side_on board WHITE sq && in_enemy_half WHITE sq)
    /\ black_in_white_half st'
       = black_in_white_half st
         + int_of_bool (side_on board BLACK sq && in_enemy_half BLACK sq)
    /\ (forall c, halfopen_files st' !! c
                  = (fun s => s ∪ (if pawn_of board c sq
                                   then {[square_file sq]} else ∅))
                      <$> halfopen_files st !! c)
    /\ open_files st'
       = open_files st
         ∖ (if pawn_of board WHITE sq || pawn_of board BLACK sq
            then {[square_file sq]} else ∅)
    /\ (forall c, outpost_knights st' !! c
                  = (fun n => n + int_of_bool (outpost_on board c sq))
                      <$> outpost_knights st !! c)
    /\ (forall c, developed_minors st' !! c
                  = (fun n => n + int_of_bool (developed_on board c sq))
                      <$> developed_minors st !! c)
    /\ (forall c, defended_pieces st' !! c
                  = (fun n => n + int_of_bool (defended_on board c sq))
                      <$> defended_pieces st !! c).
Proof.
  intros (Hpc & Hpf & Hap & Hhf & Hok & Hdm & Hdp).
  unfold scan_square.
  destruct (piece_at board sq) as [piece|] eqn:Hpiece.
  2: { exists st. split; [reflexivity|].
       unfold side_on, piece_is, pawn_of, outpost_on, developed_on,
         defended_on, piece_is, side_on. rewrite Hpiece. simpl.
       repeat split; try lia.
       - intros c ptype _. destruct (piece_counts st !! (c, ptype)); simpl;
           f_equal; lia.
       - intros c. destruct (halfopen_files st !! c); simpl; f_equal.
         set_solver.
       - set_solver.
       - intros c. destruct (outpost_knights st !! c); simpl; f_equal; lia.
       - intros c. destruct (developed_minors st !! c); simpl; f_equal; lia.
       - intros c. destruct (defended_pieces st !! c); simpl; f_equal; lia. }
  cbv zeta. rewrite if_nested.
  dict_step (piece_counts st) pcs Kpc Opc Spc.
  dict_step (pawn_files st) pfs Kpf Opf Spf.
  dict_step (all_pawns st) apw Kap Oap Sap.
  dict_step (halfopen_files st) hfs Khf Ohf Shf.
  dict_step (outpost_knights st) okn Kok Ook Sok.
  dict_step (developed_minors st) dms Kdm Odm Sdm.
  dict_step (defended_pieces st) dps Kdp Odp Sdp.
  eexists. split; [reflexivity|]. cbn [piece_counts center_control_white
    center_control_black white_in_black_half black_in_white_half
    halfopen_files open_files outpost_knights developed_minors
    defended_pieces].
  rewrite !(side_on_at _ _ _ _ Hpiece), !(pawn_of_color _ _ _ _ Hpiece).
  split; [|split; [|split; [|split; [|split; [|split; [|split;
    [|split; [|split]]]]]]]].
  - intros c ptype Hin. rewrite (piece_is_at _ _ _ _ _ Hpiece).
    destruct (decide ((c, ptype) = (color piece, piece_type piece)))
      as [E|Hne].
    + inversion E; subst c ptype. rewrite Spc, Hin, Z.eqb_refl, eqb_reflx.
      destruct (piece_counts st !! (color piece, piece_type piece));
        reflexivity.
    + rewrite (Opc _ Hne).
      replace ((piece_type piece =? ptype) && eqb (color piece) c)
        with false.
      * destruct (piece_counts st !! (c, ptype)); simpl; f_equal; lia.
      * symmetry. apply andb_false_iff.
        destruct (Z.eqb_spec (piece_type piece) ptype) as [<-|]; [|now left].
        right. apply eqb_other. congruence.
  - unfold in_center, WHITE.
    generalize (existsb (fun c => c =? sq) CENTER_SQUARES). intros cen.
    destruct (color piece), cen; simpl; lia.
  - unfold in_center, WHITE, BLACK.
    generalize (existsb (fun c => c =? sq) CENTER_SQUARES). intros cen.
    destruct (color piece), cen; simpl; lia.
  - unfold in_enemy_half, WHITE.
    generalize (4 <=? square_rank sq). intros far.
    destruct (color piece), far; simpl; lia.
  - unfold in_enemy_half, WHITE, BLACK.
    generalize (4 <=? square_rank sq), (square_rank sq <=? 3).
    intros far near. destruct (color piece), far, near; simpl; lia.
  - intros c. rewrite (pawn_of_color _ _ _ _ Hpiece).
    destruct (decide (c = color piece)) as [->|Hne].
    + rewrite Shf, eqb_reflx, andb_true_r.
      destruct (piece_type piece =? PAWN), (halfopen_files st !! color piece);
        simpl; try reflexivity. f_equal. set_solver.
    + rewrite Ohf by assumption.
      rewrite (eqb_other _ _ Hne), andb_false_r.
      destruct (halfopen_files st !! c); simpl; [|reflexivity].
      f_equal. set_solver.
  - destruct (piece_type piece =? PAWN), (color piece); simpl; set_solver.
  - apply (color_count_step _ _ (color piece) _
             (fun c => outpost_on board c sq) Ook Sok).
    + unfold outpost_on, in_enemy_half.
      rewrite (piece_is_at _ _ _ _ _ Hpiece), eqb_reflx.
      destruct (color piece); simpl;
        destruct (piece_type piece =? KNIGHT), (4 <=? square_rank sq),
          (square_rank sq <=? 3); reflexivity.
    + intros k Hne. unfold outpost_on.
      rewrite (piece_is_at _ _ _ _ _ Hpiece), (eqb_other _ _ Hne),
        andb_false_r. reflexivity.
  - apply (color_count_step _ _ (color piece) _
             (fun c => developed_on board c sq) Odm Sdm).
    + unfold developed_on, off_home_rank.
      rewrite !(piece_is_at _ _ _ _ _ Hpiece), eqb_reflx.
      cbn [existsb]. rewrite !(Z.eqb_sym _ (piece_type piece)).
      destruct (color piece); simpl;
        destruct (piece_type piece =? BISHOP), (piece_type piece =? KNIGHT),
          (0 <? square_rank sq), (square_rank sq <? 7); reflexivity.
    + intros k Hne. unfold developed_on.
      rewrite !(piece_is_at _ _ _ _ _ Hpiece), (eqb_other _ _ Hne),
        !andb_false_r. reflexivity.
  - apply (color_count_step _ _ (color piece) _
             (fun c => defended_on board c sq) Odp Sdp).
    + unfold defended_on.
      rewrite (side_on_at _ _ _ _ Hpiece), eqb_reflx. reflexivity.
    + intros k Hne. unfold defended_on.
      rewrite (side_on_at _ _ _ _ Hpiece), (eqb_other _ _ Hne). reflexivity.
Qed.

Lemma count_where_cons (test : Z -> bool) (x : Z) (l : list Z) :
  count_where test (x :: l) = int_of_bool (test x) + count_where test l.
Proof. reflexivity. Qed.

Lemma scan_census (board : Board) (squares : list Z) (st : locals) :
  keys_present st ->
  exists st',
    scan board squares st = Some st'
    /\ (forall c ptype,
          dict_has PIECE_VALUES ptype = true ->
          piece_counts st' !! (c, ptype)
          = (fun n => n + count_where (piece_is board c ptype) squares)
              <$> piece_counts st !! (c, ptype))
    /\ center_control_white st'
       = center_control_white st
         + count_where (fun sq => side_on board WHITE sq && in_center sq)
                       squares
    /\ center_control_black st'
       = center_control_black st
         + count_where (fun sq => side_on board BLACK sq && in_center sq)
                       squares
    /\ white_in_black_half st'
       = white_in_black_half st
         + count_where (fun sq => side_on board WHITE sq
                                  && in_enemy_half WHITE sq) squares
    /\ black_in_white_half st'
       = black_in_white_half st
         + count_where (fun sq => side_on board BLACK sq
                                  && in_enemy_half BLACK sq) squares
    /\ (forall c, halfopen_files st' !! c
                  = (fun s => s ∪ list_to_set
                                    (square_file <$>
                                     filter (fun sq => pawn_of board c sq = true)
                                            squares))
                      <$> halfopen_files st !! c)
    /\ open_files st'
       = open_files st
         ∖ list_to_set
             (square_file <$>
              filter (fun sq => pawn_of board WHITE sq
                                || pawn_of board BLACK sq = true) squares)
    /\ (forall c, outpost_knights st' !! c
                  = (fun n => n + count_where (outpost_on board c) squares)
                      <$> outpost_knights st !! c)
    /\ (forall c, developed_minors st' !! c
                  = (fun n => n + count_where (developed_on board c) squares)
                      <$> developed_minors st !! c)
    /\ (forall c, defended_pieces st' !! c
                  = (fun n => n + count_where (defended_on board c) squares)
                      <$> defended_pieces st !! c).
Proof.
  revert st. induction squares as [|sq rest IH]; intros st Hst.
  - exists st. split; [reflexivity|]. unfold count_where. simpl.
    repeat split; try lia.
    + intros c ptype _. destruct (piece_counts st !! (c, ptype)); simpl;
        f_equal; lia.
    + intros c. destruct (halfopen_files st !! c); simpl; f_equal.
      set_solver.
    + set_solver.
    + intros c. destruct (outpost_knights st !! c); simpl; f_equal; lia.
    + intros c. destruct (developed_minors st !! c); simpl; f_equal; lia.
    + intros c. destruct (defended_pieces st !! c); simpl; f_equal; lia.
  - destruct (scan_square_spec board sq st Hst) as (st1 & E1 & K1 & _).
    destruct (scan_square_census board sq st Hst)
      as (st1' & E1' & Pc1 & Cw1 & Cb1 & Wh1 & Bh1 & Hf1 & Of1 & Ok1
          & Dm1 & Dp1).
    rewrite E1 in E1'. inversion E1'; subst st1'. clear E1'.
    destruct (IH st1 K1)
      as (st2 & E2 & Pc2 & Cw2 & Cb2 & Wh2 & Bh2 & Hf2 & Of2 & Ok2
          & Dm2 & Dp2).
    exists st2. cbn [scan]. rewrite E1. cbn [mbind option_bind].
    split; [assumption|]. rewrite !count_where_cons.
    split; [|split; [|split; [|split; [|split; [|split; [|split;
      [|split; [|split]]]]]]]]; try lia.
    + intros c ptype Hin. rewrite (Pc2 c ptype Hin), (Pc1 c ptype Hin),
        count_where_cons.
      destruct (piece_counts st !! (c, ptype)); simpl; f_equal; lia.
    + intros c. rewrite Hf2, Hf1, filter_cons.
      destruct (halfopen_files st !! c) as [s|]; simpl; [|reflexivity].
      f_equal. destruct (pawn_of board c sq); simpl; set_solver.
    + rewrite Of2, Of1, filter_cons.
      destruct (pawn_of board WHITE sq || pawn_of board BLACK sq); simpl;
        set_solver.
    + intros c. rewrite Ok2, Ok1, count_where_cons.
      destruct (outpost_knights st !! c); simpl; f_equal; lia.
    + intros c. rewrite Dm2, Dm1, count_where_cons.
      destruct (developed_minors st !! c); simpl; f_equal; lia.
    + intros c. rewrite Dp2, Dp1, count_where_cons.
      destruct (defended_pieces st !! c); simpl; f_equal; lia.
Qed.

(** *** Files *)

Lemma square_file_in_FILES (sq : Z) : sq ∈ SQUARES -> square_file sq ∈ FILES.
Proof.
  assert (Hall : Forall (fun sq => square_file sq ∈ FILES) SQUARES).
  { apply (bool_decide_unpack _). vm_compute. exact I. }
  intros Hsq. now apply (proj1 (Forall_forall _ _) Hall).
Qed.

Lemma pawn_squares_in_SQUARES (board : Board) (side : bool) (sq : Z) :
  sq ∈ pawn_squares board side -> sq ∈ SQUARES.
Proof. unfold pawn_squares. intros Hin. now apply list_elem_of_filter in Hin. Qed.

Lemma occupied_file_spec (board : Board) (side : bool) (file : Z) :
  occupied_file board side file = true
  <-> exists sq, sq ∈ pawn_squares board side /\ square_file sq = file.
Proof.
  unfold occupied_file, pawns_on_file. rewrite Nat.ltb_lt. split.
  - intros Hpos.
    destruct (filter (fun sq => square_file sq = file)
                     (pawn_squares board side)) as [|sq l] eqn:Hfilter;
      [simpl in Hpos; lia|].
    assert (Hin : sq ∈ filter (fun sq => square_file sq = file)
                              (pawn_squares board side))
      by (rewrite Hfilter; left).
    apply list_elem_of_filter in Hin as [Hfile Hin]. eauto.
  - intros (sq & Hin & Hfile).
    assert (Hin' : sq ∈ filter (fun sq => square_file sq = file)
                               (pawn_squares board side))
      by (apply list_elem_of_filter; split; assumption).
    destruct (filter (fun sq => square_file sq = file)
                     (pawn_squares board side)); [inversion Hin'|simpl; lia].
Qed.

Lemma occupied_file_in_FILES (board : Board) (side : bool) (file : Z) :
  occupied_file board side file = true -> file ∈ FILES.
Proof.
  intros (sq & Hin & <-)%occupied_file_spec.
  apply square_file_in_FILES. eapply pawn_squares_in_SQUARES. eassumption.
Qed.

Lemma pawn_files_elem (board : Board) (side : bool) (file : Z) :
  file ∈ (list_to_set (square_file <$> pawn_squares board side) : gset Z)
  <-> occupied_file board side file = true.
Proof.
  rewrite elem_of_list_to_set, list_elem_of_fmap, occupied_file_spec.
  split; intros (sq & H1 & H2); exists sq; split; auto.
Qed.

Lemma pawn_files_absent (board : Board) (side : bool) (file : Z) :
  bool_decide
    (file ∉ (list_to_set (square_file <$> pawn_squares board side) : gset Z))
  = negb (occupied_file board side file).
Proof.
  destruct (occupied_file board side file) eqn:E; simpl.
  - apply bool_decide_eq_false. intros Hnot. now apply Hnot, pawn_files_elem.
  - apply bool_decide_eq_true. rewrite pawn_files_elem. congruence.
Qed.

(** A sum over the elements of a set of files is a sum over all files. *)
Lemma sum_filter_count (S : gset Z) (g : Z -> Z) (test : Z -> bool)
    (l : list Z) :
  (forall f, f ∈ S -> g f = int_of_bool (test f)) ->
  (forall f, f ∈ l -> f ∉ S -> test f = false) ->
  foldr Z.add 0 (g <$> filter (fun f => f ∈ S) l) = count_where test l.
Proof.
  intros Hin Hout. induction l as [|f l IH]; [reflexivity|].
  rewrite filter_cons, count_where_cons.
  assert (IH' : foldr Z.add 0 (g <$> filter (fun f => f ∈ S) l)
                = count_where test l).
  { apply IH. intros f' Hf'. apply Hout. now right. }
  destruct (decide (f ∈ S)) as [Hf|Hf].
  - rewrite fmap_cons. cbn [foldr]. rewrite IH', (Hin f Hf). reflexivity.
  - rewrite IH', (Hout f); [reflexivity|left|assumption].
Qed.

Lemma sum_elements_count (S : gset Z) (g : Z -> Z) (test : Z -> bool) :
  (forall f, f ∈ S -> f ∈ FILES) ->
  (forall f, f ∈ S -> g f = int_of_bool (test f)) ->
  (forall f, f ∈ FILES -> f ∉ S -> test f = false) ->
  foldr Z.add 0 (g <$> elements S) = count_where test FILES.
Proof.
  intros Hsub Hin Hout.
  rewrite <- (sum_filter_count S g test FILES Hin Hout).
  apply sum_permutation, fmap_Permutation, NoDup_Permutation.
  - apply NoDup_elements.
  - apply NoDup_filter, NoDup_seqZ.
  - intros f. rewrite elem_of_elements, list_elem_of_filter.
    split; [intros Hf; split; auto|tauto].
Qed.

Lemma size_count (S : gset Z) (test : Z -> bool) :
  (forall f, f ∈ S <-> f ∈ FILES /\ test f = true) ->
  Z.of_nat (size S) = count_where test FILES.
Proof.
  intros HS.
  rewrite <- (sum_elements_count S (fun _ => 1) test).
  - unfold size, set_size. simpl.
    induction (elements S) as [|f l IH]; [reflexivity|].
    rewrite fmap_cons. cbn [foldr length]. lia.
  - intros f Hf. now apply HS.
  - intros f Hf. apply HS in Hf as [_ ->]. reflexivity.
  - intros f Hf Hnot. destruct (test f) eqn:E; [|reflexivity].
    exfalso. apply Hnot, HS. auto.
Qed.

Lemma doubled_pawns_of_count (board : Board) (st : locals) (c : bool) :
  pawn_files st !! c
  = Some (list_to_set (square_file <$> pawn_squares board c)) ->
  all_pawns st !! c = Some (pawn_squares board c) ->
  doubled_pawns_of st c = Some (count_where (doubled_file board c) FILES).
Proof.
  intros Hf Hp. rewrite (doubled_pawns_of_value st c _ _ Hf Hp). f_equal.
  apply sum_elements_count.
  - intros f Hin. apply pawn_files_elem in Hin.
    now apply occupied_file_in_FILES in Hin.
  - intros f _. unfold doubled_file. fold (pawns_on_file board c f).
    destruct (Nat.ltb_spec 1 (pawns_on_file board c f)),
      (Z.ltb_spec 1 (Z.of_nat (pawns_on_file board c f)));
      simpl; lia.
  - intros f _ Hnot. unfold doubled_file.
    destruct (Nat.ltb_spec 1 (pawns_on_file board c f)); [|reflexivity].
    exfalso. apply Hnot, pawn_files_elem. unfold occupied_file.
    apply Nat.ltb_lt. lia.
Qed.

Lemma isolated_pawns_of_count (board : Board) (st : locals) (c : bool) :
  pawn_files st !! c
  = Some (list_to_set (square_file <$> pawn_squares board c)) ->
  isolated_pawns_of st c = Some (count_where (isolated_file board c) FILES).
Proof.
  intros Hf. unfold isolated_pawns_of. rewrite Hf. cbn [mbind option_bind].
  rewrite sum_over_pure. f_equal.
  apply sum_elements_count.
  - intros f Hin. apply pawn_files_elem in Hin.
    now apply occupied_file_in_FILES in Hin.
  - intros f Hin. apply pawn_files_elem in Hin.
    unfold isolated_file. rewrite Hin. cbn [forallb andb].
    rewrite andb_true_r, !pawn_files_absent.
    replace (f + -1) with (f - 1) by lia. reflexivity.
  - intros f _ Hnot. unfold isolated_file.
    destruct (occupied_file board c f) eqn:E; [|reflexivity].
    exfalso. now apply Hnot, pawn_files_elem.
Qed.

(** *** The feature list in closed form *)

Lemma initial_piece_counts (c : bool) (ptype : Z) :
  dict_has PIECE_VALUES ptype = true ->
  piece_counts initial_locals !! (c, ptype) = Some 0.
Proof.
  intros Hin.
  destruct (dict_has_PIECE_VALUES ptype Hin) as [->|[->|[->|[->| ->]]]];
    destruct c; reflexivity.
Qed.

Lemma pawn_of_either_files (board : Board) (file : Z) :
  file ∈ (list_to_set
            (square_file <$>
             filter (fun sq => pawn_of board WHITE sq
                               || pawn_of board BLACK sq = true) SQUARES)
          : gset Z)
  <-> occupied_file board WHITE file = true
      \/ occupied_file board BLACK file = true.
Proof.
  rewrite elem_of_list_to_set, list_elem_of_fmap, !occupied_file_spec.
  unfold pawn_squares. split.
  - intros (sq & -> & Hin). apply list_elem_of_filter in Hin as [Hp Hin].
    apply orb_prop in Hp as [Hp|Hp]; [left|right]; exists sq;
      (split; [apply list_elem_of_filter; auto|reflexivity]).
  - intros [(sq & Hin & <-)|(sq & Hin & <-)];
      apply list_elem_of_filter in Hin as [Hp Hin];
      exists sq; (split; [reflexivity|]);
      apply list_elem_of_filter; (split; [|assumption]);
      rewrite Hp; [reflexivity|apply orb_true_r].
Qed.

(** [extract_features] returns, for every board, the list of the counts it
    is named for. *)
Lemma extract_features_census (board : Board) :
  extract_features board = Some (features_census board).
Proof.
  destruct (scan_squares board) as (st & E & K & Mw & Mb & Hap & Hpf).
  destruct (scan_census board SQUARES initial_locals initial_keys_present)
    as (st' & E' & Pc & Cw & Cb & Wh & Bh & Hf & Of & Ok & Dm & Dp).
  rewrite E in E'. inversion E'; subst st'. clear E'.
  assert (Hcount : forall c ptype,
             dict_has PIECE_VALUES ptype = true ->
             piece_counts st !! (c, ptype)
             = Some (count_where (piece_is board c ptype) SQUARES)).
  { intros c ptype Hin. rewrite (Pc c ptype Hin), initial_piece_counts
      by assumption. reflexivity. }
  assert (Hhalf : forall c,
             exists files,
               halfopen_files st !! c = Some files
               /\ Z.of_nat (size files)
                  = count_where (occupied_file board c) FILES).
  { intros c. eexists. split.
    - rewrite Hf. cbn [halfopen_files initial_locals].
      rewrite by_color_lookup. reflexivity.
    - apply size_count. intros f. fold (pawn_squares board c).
      rewrite elem_of_union, pawn_files_elem. split.
      + intros [Hempty|Hocc]; [set_solver|].
        split; [now apply occupied_file_in_FILES in Hocc|assumption].
      + intros [_ Hocc]. now right. }
  assert (Hopen : Z.of_nat (size (open_files st))
                  = count_where (open_file board) FILES).
  { apply size_count. intros f. rewrite Of. cbn [open_files initial_locals].
    rewrite elem_of_difference, elem_of_list_to_set, pawn_of_either_files.
    unfold open_file, FILES.
    destruct (occupied_file board WHITE f), (occupied_file board BLACK f);
      simpl; intuition congruence. }
  destruct (Hhalf WHITE) as (hw & Ehw & Shw).
  destruct (Hhalf BLACK) as (hb & Ehb & Shb).
  unfold extract_features. rewrite E. cbn [mbind option_bind].
  unfold build_features, doubled_pawns, isolated_pawns.
  cbn [dict_keys PIECE_VALUES map fst count_features halfopen_features
       sum_over].
  rewrite !Hcount by reflexivity.
  rewrite !(doubled_pawns_of_count board st _ (Hpf _) (Hap _)).
  rewrite !(isolated_pawns_of_count board st _ (Hpf _)).
  rewrite Ehw, Ehb, (Ok WHITE), (Ok BLACK), (Dm WHITE), (Dm BLACK),
    (Dp WHITE), (Dp BLACK).
  cbn [outpost_knights developed_minors defended_pieces initial_locals].
  rewrite !by_color_lookup.
  cbn [mbind option_bind fmap option_fmap option_map app].
  rewrite Shw, Shb, Hopen, Mw, Mb, Cw, Cb, Wh, Bh.
  cbn [center_control_white center_control_black white_in_black_half
       black_in_white_half initial_locals].
  unfold features_census. rewrite !Z.add_0_l, !Z.add_0_r. reflexivity.
Qed.

(** *** Comparing counts *)

Lemma count_where_ext (test test' : Z -> bool) (l : list Z) :
  (forall x, x ∈ l -> test x = test' x) ->
  count_where test l = count_where test' l.
Proof.
  induction l as [|x l IH]; intros Hext; [reflexivity|].
  rewrite !count_where_cons, (Hext x) by left.
  rewrite IH; [reflexivity|]. intros y Hy. apply Hext. now right.
Qed.

Lemma count_where_bounds (test : Z -> bool) (l : list Z) :
  0 <= count_where test l <= Z.of_nat (length l).
Proof.
  induction l as [|x l IH]; [simpl; unfold count_where; simpl; lia|].
  rewrite count_where_cons. cbn [length]. destruct (test x); simpl; lia.
Qed.

(** If every entry that passes [test] passes [test1] or [test2], at most
    as many pass [test] as pass [test1] and [test2] together. *)
Lemma count_where_le2 (test test1 test2 : Z -> bool) (l : list Z) :
  (forall x, x ∈ l -> test x = true -> test1 x = true \/ test2 x = true) ->
  count_where test l <= count_where test1 l + count_where test2 l.
Proof.
  induction l as [|x l IH]; intros Himp; [unfold count_where; simpl; lia|].
  rewrite !count_where_cons.
  assert (IH' : count_where test l <= count_where test1 l + count_where test2 l).
  { apply IH. intros y Hy. apply Himp. now right. }
  pose proof (Himp x ltac:(left)) as Hx.
  destruct (test x); simpl.
  - destruct (Hx eq_refl) as [-> | ->]; simpl;
      [destruct (test2 x)|destruct (test1 x)]; simpl; lia.
  - destruct (test1 x), (test2 x); simpl; lia.
Qed.

Lemma count_where_le (test test' : Z -> bool) (l : list Z) :
  (forall x, x ∈ l -> test x = true -> test' x = true) ->
  count_where test l <= count_where test' l.
Proof.
  intros Himp.
  pose proof (count_where_le2 test test' (fun _ => false) l) as Hle.
  replace (count_where (fun _ => false) l) with 0 in Hle.
  - rewrite Z.add_0_r in Hle. apply Hle. intros x Hx Ht. left. auto.
  - clear. induction l as [|x l IH]; [reflexivity|].
    rewrite count_where_cons, <- IH. reflexivity.
Qed.

(** If no entry passes both [test1] and [test2], those that pass one of them
    number the sum. *)
Lemma count_where_disjoint (test1 test2 : Z -> bool) (l : list Z) :
  (forall x, x ∈ l -> test1 x = true -> test2 x = false) ->
  count_where (fun x => test1 x || test2 x) l
  = count_where test1 l + count_where test2 l.
Proof.
  induction l as [|x l IH]; intros Hdis; [reflexivity|].
  rewrite !count_where_cons, IH by (intros y Hy; apply Hdis; now right).
  pose proof (Hdis x ltac:(left)) as Hx.
  destruct (test1 x); simpl; [rewrite (Hx eq_refl)|destruct (test2 x)];
    simpl; lia.
Qed.

(** The material of a square is the value of the counted piece on it. *)
Lemma material_on_weights (board : Board) (side : bool) (sq : Z) :
  material_on board side sq
  = int_of_bool (piece_is board side PAWN sq)
    + 3 * int_of_bool (piece_is board side KNIGHT sq)
    + 3 * int_of_bool (piece_is board side BISHOP sq)
    + 5 * int_of_bool (piece_is board side ROOK sq)
    + 9 * int_of_bool (piece_is board side QUEEN sq).
Proof.
  unfold material_on, piece_is.
  destruct (piece_at board sq) as [[t c]|]; [|reflexivity]. simpl.
  destruct (eqb c side); [|rewrite !andb_false_r; reflexivity].
  rewrite !andb_true_r. unfold dict_get, PIECE_VALUES. cbn [find fst snd].
  rewrite !(Z.eqb_sym _ t).
  destruct (Z.eqb_spec t PAWN) as [->|]; [reflexivity|].
  destruct (Z.eqb_spec t KNIGHT) as [->|]; [reflexivity|].
  destruct (Z.eqb_spec t BISHOP) as [->|]; [reflexivity|].
  destruct (Z.eqb_spec t ROOK) as [->|]; [reflexivity|].
  destruct (Z.eqb_spec t QUEEN) as [->|]; reflexivity.
Qed.

Lemma material_over_weights (board : Board) (side : bool) (l : list Z) :
  material_over board side l
  = count_where (piece_is board side PAWN) l
    + 3 * count_where (piece_is board side KNIGHT) l
    + 3 * count_where (piece_is board side BISHOP) l
    + 5 * count_where (piece_is board side ROOK) l
    + 9 * count_where (piece_is board side QUEEN) l.
Proof.
  induction l as [|sq l IH]; [reflexivity|].
  unfold material_over in *. rewrite fmap_cons. cbn [foldr].
  rewrite IH, !count_where_cons, material_on_weights. lia.
Qed.

End FeatureCensus.

Section FeatureLayout.
Context {Board Move : Type} `{!ChessEngine Board Move}.

(** C4: on every board with both kings, [extract_features] returns (it has
    no path that raises) a list of exactly 37 entries, all of them numbers,
    and the list is [features_census] of the board: the same 37 fields in
    the same order on every board, each field a fixed function of the
    position.  In particular the material totals come first, the king
    squares are at 17 and 18, the side to move at 19, the number of legal
    moves at 24 and the full-move counter at 25. *)
Theorem extract_features_fixed_length (board : Board) :
  both_kings board ->
  exists features,
    extract_features board = Some features
    /\ length features = 37%nat
    /\ Forall is_numeric features
    /\ features = features_census board
    /\ features !! 0%nat = Some (PyInt (material_over board WHITE SQUARES))
    /\ features !! 1%nat = Some (PyInt (material_over board BLACK SQUARES))
    /\ features !! 2%nat
       = Some (PyInt (material_over board WHITE SQUARES
                      - material_over board BLACK SQUARES))
    /\ features !! 17%nat = Some (of_option (king board WHITE))
    /\ features !! 18%nat = Some (of_option (king board BLACK))
    /\ features !! 19%nat = Some (PyInt (int_of_bool (turn board)))
    /\ features !! 24%nat
       = Some (PyInt (Z.of_nat (length (legal_moves board))))
    /\ features !! 25%nat = Some (PyInt (fullmove_number board)).
Proof.
  intros Hk.
  destruct (extract_features_entries board Hk)
    as (features & E & Hlen & Hnum & Hrest).
  exists features.
  split; [exact E|]. split; [exact Hlen|]. split; [exact Hnum|].
  split; [|exact Hrest].
  pose proof (extract_features_census board) as Hc.
  rewrite E in Hc. now inversion Hc.
Qed.

End FeatureLayout.

(** The sample board has both kings, and its list is the expected one. *)
Lemma extract_features_fixed_length_sample :
  both_kings sample_start
  /\ exists features,
       extract_features sample_start = Some features
       /\ length features = 37%nat
       /\ Forall is_numeric features
       /\ features = features_census sample_start
       /\ features !! 0%nat = Some (PyInt (material_over sample_start WHITE SQUARES))
       /\ features !! 1%nat = Some (PyInt (material_over sample_start BLACK SQUARES))
       /\ features !! 2%nat
          = Some (PyInt (material_over sample_start WHITE SQUARES
                         - material_over sample_start BLACK SQUARES))
       /\ features !! 17%nat = Some (of_option (king sample_start WHITE))
       /\ features !! 18%nat = Some (of_option (king sample_start BLACK))
       /\ features !! 19%nat = Some (PyInt (int_of_bool (turn sample_start)))
       /\ features !! 24%nat
          = Some (PyInt (Z.of_nat (length (legal_moves sample_start))))
       /\ features !! 25%nat = Some (PyInt (fullmove_number sample_start)).
Proof.
  assert (Hk : both_kings sample_start).
  { split; eexists; vm_compute; reflexivity. }
  split; [exact Hk|].
  exact (extract_features_fixed_length sample_start Hk).
Defined.

Section FeatureGuarantees.
Context {Board Move : Type} `{!ChessEngine Board Move}.

(** X6: on every board [extract_features] returns the list laid out in
    [features_census]: each count of the scan is the number of squares that
    hold a piece passing the test it is named for (type and colour, centre
    square, far half, developed minor, outpost knight, defended piece), and
    each pawn-structure entry is a number of files: the files with two or
    more pawns of a side, the files whose pawns of a side have none of their
    own on the two neighbouring files, the files a side has a pawn on, and
    the files without any pawn. *)
Theorem extract_features_counts (board : Board) :
  extract_features board = Some (features_census board).
Proof. apply extract_features_census. Qed.

(** X7: the two material entries are the piece counts of that side weighted
    by 1, 3, 3, 5 and 9 for pawns, knights, bishops, rooks and queens; a king,
    or a piece of any other type, adds nothing. *)
Theorem material_is_weighted_count (board : Board) :
  exists features pw pb nw nb bw bb rw rb qw qb,
    extract_features board = Some features
    /\ features !! 3%nat = Some (PyInt pw)
    /\ features !! 4%nat = Some (PyInt pb)
    /\ features !! 5%nat = Some (PyInt nw)
    /\ features !! 6%nat = Some (PyInt nb)
    /\ features !! 7%nat = Some (PyInt bw)
    /\ features !! 8%nat = Some (PyInt bb)
    /\ features !! 9%nat = Some (PyInt rw)
    /\ features !! 10%nat = Some (PyInt rb)
    /\ features !! 11%nat = Some (PyInt qw)
    /\ features !! 12%nat = Some (PyInt qb)
    /\ features !! 0%nat
       = Some (PyInt (pw + 3 * nw + 3 * bw + 5 * rw + 9 * qw))
    /\ features !! 1%nat
       = Some (PyInt (pb + 3 * nb + 3 * bb + 5 * rb + 9 * qb)).
Proof.
  eexists _, _, _, _, _, _, _, _, _, _, _.
  split; [apply extract_features_census|].
  unfold features_census. cbv zeta.
  do 10 (split; [reflexivity|]).
  split; cbn [lookup list_lookup]; do 2 f_equal; apply material_over_weights.
Qed.

Lemma count_where_negb (test : Z -> bool) (l : list Z) :
  count_where test l + count_where (fun x => negb (test x)) l
  = Z.of_nat (length l).
Proof.
  induction l as [|x l IH]; [reflexivity|].
  rewrite !count_where_cons. cbn [length]. destruct (test x); simpl; lia.
Qed.

(** X8: the pawn-structure entries are consistent with eight files.  The
    numbers of files holding a pawn of White (entry 28) and of Black (29)
    and the number of files without pawns (30) lie between 0 and 8; a file
    is counted as open exactly when neither side counts it, so entry 30 is
    at most 8 minus either of the other two and at least 8 minus their sum;
    and the doubled-pawn entry (26) and the isolated-pawn entry (27) lie
    between 0 and the sum of entries 28 and 29. *)
Theorem pawn_file_entries_bounds (board : Board) :
  exists features doubled isolated hw hb opened,
    extract_features board = Some features
    /\ features !! 26%nat = Some (PyInt doubled)
    /\ features !! 27%nat = Some (PyInt isolated)
    /\ features !! 28%nat = Some (PyInt hw)
    /\ features !! 29%nat = Some (PyInt hb)
    /\ features !! 30%nat = Some (PyInt opened)
    /\ 0 <= hw <= 8 /\ 0 <= hb <= 8 /\ 0 <= opened
    /\ opened <= 8 - hw /\ opened <= 8 - hb /\ 8 - (hw + hb) <= opened
    /\ 0 <= doubled <= hw + hb
    /\ 0 <= isolated <= hw + hb.
Proof.
  eexists _, _, _, _, _, _.
  split; [apply extract_features_census|].
  unfold features_census. cbv zeta.
  do 5 (split; [reflexivity|]).
  pose proof (count_where_bounds (occupied_file board WHITE) FILES) as Bw.
  pose proof (count_where_bounds (occupied_file board BLACK) FILES) as Bb.
  pose proof (count_where_bounds (open_file board) FILES) as Bo.
  pose proof (count_where_bounds (doubled_file board WHITE) FILES) as Bdw.
  pose proof (count_where_bounds (doubled_file board BLACK) FILES) as Bdb.
  pose proof (count_where_bounds (isolated_file board WHITE) FILES) as Biw.
  pose proof (count_where_bounds (isolated_file board BLACK) FILES) as Bib.
  change (Z.of_nat (length FILES)) with 8 in *.
  pose proof (count_where_negb
                (fun f => occupied_file board WHITE f
                          || occupied_file board BLACK f) FILES) as Hsplit.
  change (Z.of_nat (length FILES)) with 8 in Hsplit. cbv beta in Hsplit.
  assert (Hopen : count_where (fun f => negb (occupied_file board WHITE f
                                            || occupied_file board BLACK f))
                              FILES
                  = count_where (open_file board) FILES).
  { apply count_where_ext. intros f _. unfold open_file.
    now rewrite negb_orb. }
  rewrite Hopen in Hsplit.
  pose proof (count_where_le2
                (fun f => occupied_file board WHITE f
                          || occupied_file board BLACK f)
                (occupied_file board WHITE) (occupied_file board BLACK) FILES
                (fun f _ Hf => proj1 (orb_true_iff _ _) Hf)) as Hboth.
  pose proof (count_where_le (occupied_file board WHITE)
                (fun f => occupied_file board WHITE f
                          || occupied_file board BLACK f) FILES
                (fun f _ Hf => proj2 (orb_true_iff _ _) (or_introl Hf)))
    as Hw.
  pose proof (count_where_le (occupied_file board BLACK)
                (fun f => occupied_file board WHITE f
                          || occupied_file board BLACK f) FILES
                (fun f _ Hf => proj2 (orb_true_iff _ _) (or_intror Hf)))
    as Hb.
  assert (Hdoubled : forall c,
             count_where (doubled_file board c) FILES
             <= count_where (occupied_file board c) FILES).
  { intros c. apply count_where_le. intros f _.
    unfold doubled_file, occupied_file. rewrite !Nat.ltb_lt. lia. }
  assert (Hisolated : forall c,
             count_where (isolated_file board c) FILES
             <= count_where (occupied_file board c) FILES).
  { intros c. apply count_where_le. intros f _. unfold isolated_file.
    intros Hf. apply andb_prop in Hf as [Hf _].
    now apply andb_prop in Hf as [Hf _]. }
  pose proof (Hdoubled WHITE). pose proof (Hdoubled BLACK).
  pose proof (Hisolated WHITE). pose proof (Hisolated BLACK).
  repeat split; lia.
Qed.

Lemma count_center : count_where in_center SQUARES = 4.
Proof. reflexivity. Qed.

(** X9: the counts that single out some pieces never exceed the counts of
    the pieces they single out.  The outpost knights of a side (entries 31
    and 32) are at most its knights (5 and 6); its developed minor pieces
    (33 and 34) are at most its knights and bishops together; and the
    pieces counted in the centre (entries 20 and 21) are at most 4 in
    all.  None of these entries is negative. *)
Theorem selected_counts_bounds (board : Board) :
  exists features nw nb bw bb cw cb ow ob dw db,
    extract_features board = Some features
    /\ features !! 5%nat = Some (PyInt nw)
    /\ features !! 6%nat = Some (PyInt nb)
    /\ features !! 7%nat = Some (PyInt bw)
    /\ features !! 8%nat = Some (PyInt bb)
    /\ features !! 20%nat = Some (PyInt cw)
    /\ features !! 21%nat = Some (PyInt cb)
    /\ features !! 31%nat = Some (PyInt ow)
    /\ features !! 32%nat = Some (PyInt ob)
    /\ features !! 33%nat = Some (PyInt dw)
    /\ features !! 34%nat = Some (PyInt db)
    /\ 0 <= ow <= nw /\ 0 <= ob <= nb
    /\ 0 <= dw <= nw + bw /\ 0 <= db <= nb + bb
    /\ 0 <= cw /\ 0 <= cb /\ cw + cb <= 4.
Proof.
  eexists _, _, _, _, _, _, _, _, _, _, _.
  split; [apply extract_features_census|].
  unfold features_census. cbv zeta.
  do 10 (split; [reflexivity|]).
  assert (Hout : forall c,
             count_where (outpost_on board c) SQUARES
             <= count_where (piece_is board c KNIGHT) SQUARES).
  { intros c. apply count_where_le. intros sq _. unfold outpost_on.
    intros Hf. apply andb_prop in Hf as [Hf _].
    now apply andb_prop in Hf as [Hf _]. }
  assert (Hdev : forall c,
             count_where (developed_on board c) SQUARES
             <= count_where (piece_is board c KNIGHT) SQUARES
                + count_where (piece_is board c BISHOP) SQUARES).
  { intros c. apply count_where_le2. intros sq _. unfold developed_on.
    intros Hf. apply andb_prop in Hf as [Hf _].
    apply orb_prop in Hf. tauto. }
  assert (Hcen : count_where (fun sq => side_on board WHITE sq && in_center sq)
                             SQUARES
                 + count_where (fun sq => side_on board BLACK sq
                                          && in_center sq) SQUARES
                 <= 4).
  { rewrite <- count_center.
    rewrite <- (count_where_disjoint
                  (fun sq => side_on board WHITE sq && in_center sq)
                  (fun sq => side_on board BLACK sq && in_center sq)).
    - apply count_where_le. intros sq _ Hf.
      apply orb_prop in Hf as [Hf|Hf]; now apply andb_prop in Hf.
    - intros sq _. unfold side_on.
      destruct (piece_at board sq) as [[t c]|]; simpl; [|discriminate].
      destruct c; simpl; [reflexivity|discriminate]. }
  pose proof (count_where_bounds (outpost_on board WHITE) SQUARES).
  pose proof (count_where_bounds (outpost_on board BLACK) SQUARES).
  pose proof (count_where_bounds (developed_on board WHITE) SQUARES).
  pose proof (count_where_bounds (developed_on board BLACK) SQUARES).
  pose proof (count_where_bounds
                (fun sq => side_on board WHITE sq && in_center sq) SQUARES).
  pose proof (count_where_bounds
                (fun sq => side_on board BLACK sq && in_center sq) SQUARES).
  pose proof (Hout WHITE). pose proof (Hout BLACK).
  pose proof (Hdev WHITE). pose proof (Hdev BLACK).
  repeat split; lia.
Qed.

End FeatureGuarantees.

(** ** The feature list of a mirrored board, and of an empty one *)

Lemma mirror_geometry :
  Forall (fun sq =>
            square_file (square_mirror sq) = square_file sq
            /\ in_center (square_mirror sq) = in_center sq
            /\ in_enemy_half BLACK (square_mirror sq) = in_enemy_half WHITE sq
            /\ in_enemy_half WHITE (square_mirror sq) = in_enemy_half BLACK sq
            /\ off_home_rank BLACK (square_mirror sq) = off_home_rank WHITE sq
            /\ off_home_rank WHITE (square_mirror sq) = off_home_rank BLACK sq)
         SQUARES.
Proof. unfold SQUARES. repeat constructor. Qed.

Lemma count_where_mirror (test test' : Z -> bool) :
  (forall sq, sq ∈ SQUARES -> test sq = test' (square_mirror sq)) ->
  count_where test SQUARES = count_where test' SQUARES.
Proof.
  intros Hm. unfold count_where.
  rewrite <- (sum_permutation _ _
                (fmap_Permutation (fun x => int_of_bool (test' x)) _ _
                                  mirror_squares)).
  rewrite <- list_fmap_compose. f_equal.
  apply Forall_fmap_ext, Forall_forall. intros sq Hsq. simpl.
  now rewrite (Hm sq Hsq).
Qed.

Section MirroredFeatures.
Context {Board Move : Type} `{!ChessEngine Board Move}.
Variables board board' : Board.
Hypothesis Hmirror : mirrored board board'.

Lemma mirrored_piece_at (sq : Z) :
  sq ∈ SQUARES ->
  piece_at board' (square_mirror sq) = swap_color <$> piece_at board sq.
Proof.
  destruct Hmirror as [Hall _].
  intros Hsq. now apply (proj1 (Forall_forall _ _) Hall).
Qed.

Lemma mirrored_geometry (sq : Z) :
  sq ∈ SQUARES ->
  square_file (square_mirror sq) = square_file sq
  /\ in_center (square_mirror sq) = in_center sq
  /\ (forall c, in_enemy_half (negb c) (square_mirror sq)
                = in_enemy_half c sq)
  /\ (forall c, off_home_rank (negb c) (square_mirror sq)
                = off_home_rank c sq).
Proof.
  intros Hsq.
  destruct (proj1 (Forall_forall _ _) mirror_geometry sq Hsq)
    as (Hf & Hc & He1 & He2 & Ho1 & Ho2).
  repeat split; try assumption; intros [|]; assumption.
Qed.

Lemma mirrored_piece_is (c : bool) (ptype sq : Z) :
  sq ∈ SQUARES ->
  piece_is board c ptype sq
  = piece_is board' (negb c) ptype (square_mirror sq).
Proof.
  intros Hsq. unfold piece_is. rewrite (mirrored_piece_at sq Hsq).
  destruct (piece_at board sq) as [[t k]|]; simpl; [|reflexivity].
  destruct k, c; reflexivity.
Qed.

Lemma mirrored_side_on (c : bool) (sq : Z) :
  sq ∈ SQUARES ->
  side_on board c sq = side_on board' (negb c) (square_mirror sq).
Proof.
  intros Hsq. unfold side_on. rewrite (mirrored_piece_at sq Hsq).
  destruct (piece_at board sq) as [[t k]|]; simpl; [|reflexivity].
  destruct k, c; reflexivity.
Qed.

Lemma mirrored_pawn_of (c : bool) (sq : Z) :
  sq ∈ SQUARES ->
  pawn_of board c sq = pawn_of board' (negb c) (square_mirror sq).
Proof. apply (mirrored_piece_is c PAWN). Qed.

Lemma mirrored_count_pieces (c : bool) (ptype : Z) :
  count_where (piece_is board c ptype) SQUARES
  = count_where (piece_is board' (negb c) ptype) SQUARES.
Proof. apply count_where_mirror. intros sq. apply mirrored_piece_is. Qed.

Lemma mirrored_count_center (c : bool) :
  count_where (fun sq => side_on board c sq && in_center sq) SQUARES
  = count_where (fun sq => side_on board' (negb c) sq && in_center sq) SQUARES.
Proof.
  apply count_where_mirror. intros sq Hsq.
  destruct (mirrored_geometry sq Hsq) as (_ & -> & _).
  now rewrite (mirrored_side_on c sq Hsq).
Qed.

Lemma mirrored_count_half (c : bool) :
  count_where (fun sq => side_on board c sq && in_enemy_half c sq) SQUARES
  = count_where (fun sq => side_on board' (negb c) sq
                           && in_enemy_half (negb c) sq) SQUARES.
Proof.
  apply count_where_mirror. intros sq Hsq.
  destruct (mirrored_geometry sq Hsq) as (_ & _ & -> & _).
  now rewrite (mirrored_side_on c sq Hsq).
Qed.

Lemma mirrored_count_developed (c : bool) :
  count_where (developed_on board c) SQUARES
  = count_where (developed_on board' (negb c)) SQUARES.
Proof.
  apply count_where_mirror. intros sq Hsq. unfold developed_on.
  destruct (mirrored_geometry sq Hsq) as (_ & _ & _ & ->).
  now rewrite !(mirrored_piece_is c _ sq Hsq).
Qed.

Lemma pawns_on_file_count (b : Board) (c : bool) (file : Z) :
  Z.of_nat (pawns_on_file b c file)
  = count_where (fun sq => pawn_of b c sq && (square_file sq =? file)) SQUARES.
Proof.
  unfold pawns_on_file, pawn_squares.
  induction SQUARES as [|sq l IH]; [reflexivity|].
  rewrite count_where_cons, <- IH, filter_cons.
  destruct (pawn_of b c sq); simpl.
  - rewrite filter_cons.
    destruct (Z.eqb_spec (square_file sq) file) as [E|E].
    + rewrite decide_True by assumption. cbn [length]. simpl. lia.
    + rewrite decide_False by assumption. simpl. lia.
  - lia.
Qed.

Lemma mirrored_pawns_on_file (c : bool) (file : Z) :
  pawns_on_file board c file = pawns_on_file board' (negb c) file.
Proof.
  apply Nat2Z.inj. rewrite !pawns_on_file_count.
  apply count_where_mirror. intros sq Hsq.
  destruct (mirrored_geometry sq Hsq) as (-> & _).
  now rewrite (mirrored_pawn_of c sq Hsq).
Qed.

Lemma mirrored_count_occupied (c : bool) :
  count_where (occupied_file board c) FILES
  = count_where (occupied_file board' (negb c)) FILES.
Proof.
  apply count_where_ext. intros f _. unfold occupied_file.
  now rewrite mirrored_pawns_on_file.
Qed.

Lemma mirrored_count_doubled (c : bool) :
  count_where (doubled_file board c) FILES
  = count_where (doubled_file board' (negb c)) FILES.
Proof.
  apply count_where_ext. intros f _. unfold doubled_file.
  now rewrite mirrored_pawns_on_file.
Qed.

Lemma mirrored_count_isolated (c : bool) :
  count_where (isolated_file board c) FILES
  = count_where (isolated_file board' (negb c)) FILES.
Proof.
  apply count_where_ext. intros f _. unfold isolated_file, occupied_file.
  now rewrite !mirrored_pawns_on_file.
Qed.

Lemma mirrored_count_open :
  count_where (open_file board) FILES = count_where (open_file board') FILES.
Proof.
  apply count_where_ext. intros f _. unfold open_file, occupied_file.
  rewrite !mirrored_pawns_on_file. apply andb_comm.
Qed.

End MirroredFeatures.

Section MirrorAndEmpty.
Context {Board Move : Type} `{!ChessEngine Board Move}.

(** X10: the entries computed from the placement of the pieces treat the two
    sides alike.  When [board'] is [board] with the colours exchanged and
    the ranks flipped, every White entry of one list is the Black entry of
    the other: material (entries 0 and 1), the five piece counts, the centre
    counts, the far-half counts, the files holding a pawn and the developed
    minor pieces; the doubled-pawn, isolated-pawn and open-file entries are
    the same on both boards; and the side-to-move entries add up to 1. *)
Theorem placement_entries_mirror (board board' : Board) :
  mirrored board board' ->
  exists features features',
    extract_features board = Some features
    /\ extract_features board' = Some features'
    /\ Forall (fun ij : nat * nat => features !! ij.1 = features' !! ij.2)
              [ (0, 1); (1, 0); (3, 4); (4, 3); (5, 6); (6, 5); (7, 8);
                (8, 7); (9, 10); (10, 9); (11, 12); (12, 11); (20, 21);
                (21, 20); (22, 23); (23, 22); (26, 26); (27, 27); (28, 29);
                (29, 28); (30, 30); (33, 34); (34, 33) ]%nat
    /\ exists t, features !! 19%nat = Some (PyInt t)
                 /\ features' !! 19%nat = Some (PyInt (1 - t)).
Proof.
  intros Hm. exists (features_census board), (features_census board').
  split; [apply extract_features_census|].
  split; [apply extract_features_census|].
  pose proof (material_over_mirror board board' WHITE Hm) as Mw.
  pose proof (material_over_mirror board board' BLACK Hm) as Mb.
  pose proof (mirrored_count_pieces board board' Hm) as Pc.
  pose proof (mirrored_count_center board board' Hm) as Cc.
  pose proof (mirrored_count_half board board' Hm) as Ch.
  pose proof (mirrored_count_developed board board' Hm) as Cd.
  pose proof (mirrored_count_occupied board board' Hm) as Co.
  pose proof (mirrored_count_doubled board board' Hm) as Cdb.
  pose proof (mirrored_count_isolated board board' Hm) as Ci.
  pose proof (mirrored_count_open board board' Hm) as Cop.
  split.
  - unfold features_census. cbv zeta.
    repeat constructor; cbn [lookup list_lookup fst snd]; do 2 f_equal;
      first [ exact Mw | exact Mb | apply (Pc WHITE) | apply (Pc BLACK)
            | apply (Cc WHITE) | apply (Cc BLACK)
            | apply (Ch WHITE) | apply (Ch BLACK)
            | apply (Cd WHITE) | apply (Cd BLACK)
            | apply (Co WHITE) | apply (Co BLACK) | exact Cop
            | rewrite (Cdb WHITE), (Cdb BLACK); apply Z.add_comm
            | rewrite (Ci WHITE), (Ci BLACK); apply Z.add_comm ].
  - destruct Hm as [_ Hturn]. eexists. split; [reflexivity|].
    unfold features_census. cbv zeta. cbn [lookup list_lookup].
    rewrite Hturn. destruct (turn board); reflexivity.
Qed.

Lemma count_where_none (test : Z -> bool) (l : list Z) :
  (forall x, x ∈ l -> test x = false) -> count_where test l = 0.
Proof.
  induction l as [|x l IH]; intros Hnone; [reflexivity|].
  rewrite count_where_cons, (Hnone x) by left.
  rewrite IH; [reflexivity|]. intros y Hy. apply Hnone. now right.
Qed.

(** X11: on a board without any piece every count of the scan is 0 and all
    eight files are open; the entries read from the board directly (castling
    rights, king squares, side to move, number of legal moves, full-move
    counter) are passed on as the board reports them. *)
Theorem extract_features_empty_board (board : Board) :
  (forall sq, sq ∈ SQUARES -> piece_at board sq = None) ->
  extract_features board
  = Some ([ PyInt 0; PyInt 0; PyInt 0 ]
          ++ replicate 10 (PyInt 0)
          ++ [ PyInt (int_of_bool (has_kingside_castling_rights board WHITE));
               PyInt (int_of_bool (has_queenside_castling_rights board WHITE));
               PyInt (int_of_bool (has_kingside_castling_rights board BLACK));
               PyInt (int_of_bool (has_queenside_castling_rights board BLACK));
               of_option (king board WHITE);
               of_option (king board BLACK);
               PyInt (int_of_bool (turn board));
               PyInt 0; PyInt 0; PyInt 0; PyInt 0;
               PyInt (Z.of_nat (length (legal_moves board)));
               PyInt (fullmove_number board);
               PyInt 0; PyInt 0; PyInt 0; PyInt 0; PyInt 8 ]
          ++ replicate 6 (PyInt 0)).
Proof.
  intros Hempty. rewrite extract_features_census.
  assert (Hside : forall c sq, sq ∈ SQUARES -> side_on board c sq = false).
  { intros c sq Hsq. unfold side_on. now rewrite (Hempty sq Hsq). }
  assert (Hpiece : forall c t sq,
             sq ∈ SQUARES -> piece_is board c t sq = false).
  { intros c t sq Hsq. unfold piece_is. now rewrite (Hempty sq Hsq). }
  assert (Hpawns : forall c f, pawns_on_file board c f = 0%nat).
  { intros c f. apply Nat2Z.inj. rewrite pawns_on_file_count.
    apply count_where_none. intros sq Hsq. unfold pawn_of.
    now rewrite (Hempty sq Hsq). }
  assert (Hmat : forall c, material_over board c SQUARES = 0).
  { intros c. rewrite material_over_weights.
    rewrite !count_where_none by (intros sq Hsq; now apply Hpiece).
    reflexivity. }
  unfold features_census. cbv zeta.
  rewrite !Hmat.
  rewrite !(count_where_none (piece_is board _ _) SQUARES)
    by (intros sq Hsq; now apply Hpiece).
  rewrite !(count_where_none (fun sq => side_on board _ sq && _) SQUARES)
    by (intros sq Hsq; now rewrite Hside).
  rewrite !(count_where_none (outpost_on board _) SQUARES)
    by (intros sq Hsq; unfold outpost_on; now rewrite Hpiece).
  rewrite !(count_where_none (developed_on board _) SQUARES)
    by (intros sq Hsq; unfold developed_on; now rewrite !Hpiece).
  rewrite !(count_where_none (defended_on board _) SQUARES)
    by (intros sq Hsq; unfold defended_on; now rewrite Hside).
  rewrite !(count_where_none (doubled_file board _) FILES)
    by (intros f _; unfold doubled_file; now rewrite Hpawns).
  rewrite !(count_where_none (isolated_file board _) FILES)
    by (intros f _; unfold isolated_file, occupied_file; now rewrite Hpawns).
  rewrite !(count_where_none (occupied_file board _) FILES)
    by (intros f _; unfold occupied_file; now rewrite Hpawns).
  rewrite (count_where_ext (open_file board) (fun _ => true) FILES)
    by (intros f _; unfold open_file, occupied_file; now rewrite !Hpawns).
  reflexivity.
Qed.

End MirrorAndEmpty.

(** * Properties of the game loop *)

Section GameLoopProperties.
Context {Board Move : Type} `{!ChessEngine Board Move}.
Variable model : list pyval -> Z.
Variable from_uci : string -> option Move.
Variable strip : string -> string.
Variable is_legal : Board -> Move -> bool.

Lemma read_move_rejects (line : string) (lines : list string)
    (board : Board) (out : list printed) :
  rejected from_uci strip is_legal board line ->
  read_move from_uci strip is_legal (line :: lines) board out
  = read_move from_uci strip is_legal lines board (out ++ reply_to from_uci strip line).
Proof.
  unfold rejected, reply_to. cbn [read_move].
  destruct (from_uci (strip line)) as [move|]; intros Hrej.
  - rewrite Hrej. now rewrite <- app_assoc.
  - now rewrite <- app_assoc.
Qed.

Lemma read_move_accepts (skipped : list string) :
  forall line rest move board out,
    Forall (rejected from_uci strip is_legal board) skipped ->
    from_uci (strip line) = Some move ->
    is_legal board move = true ->
    read_move from_uci strip is_legal (skipped ++ line :: rest) board out
    = Returned (push board move, rest,
                out ++ flat_map (reply_to from_uci strip) skipped
                    ++ [Prompted]).
Proof.
  induction skipped as [|first skipped IH];
    intros line rest move board out Hskip Hparse Hlegal.
  - cbn [app flat_map read_move]. now rewrite Hparse, Hlegal.
  - inversion Hskip as [|? ? Hfirst Hrest]; subst.
    cbn [app]. rewrite read_move_rejects by assumption.
    rewrite (IH line rest move board _ Hrest Hparse Hlegal).
    cbn [flat_map]. now rewrite <- !app_assoc.
Qed.

Lemma read_move_starves (lines : list string) :
  forall board out,
    Forall (rejected from_uci strip is_legal board) lines ->
    read_move from_uci strip is_legal lines board out = Raised.
Proof.
  induction lines as [|line lines IH]; intros board out Hall; [reflexivity|].
  inversion Hall; subst. rewrite read_move_rejects by assumption.
  now apply IH.
Qed.

(** What the inner loop did when it returns. *)
Lemma read_move_returned (lines : list string) :
  forall board out board' rest out',
    read_move from_uci strip is_legal lines board out = Returned (board', rest, out') ->
    exists skipped line move,
      lines = skipped ++ line :: rest
      /\ Forall (rejected from_uci strip is_legal board) skipped
      /\ from_uci (strip line) = Some move
      /\ is_legal board move = true
      /\ board' = push board move
      /\ out' = out ++ flat_map (reply_to from_uci strip) skipped
                    ++ [Prompted].
Proof.
  induction lines as [|line lines IH]; intros board out board' rest out';
    [discriminate|].
  destruct (from_uci (strip line)) as [move|] eqn:Hparse.
  - destruct (is_legal board move) eqn:Hlegal.
    + cbn [read_move]. rewrite Hparse, Hlegal.
      intros Heq. inversion Heq; subst.
      exists [], line, move. repeat split; auto.
    + assert (Hrej : rejected from_uci strip is_legal board line)
        by (unfold rejected; now rewrite Hparse).
      rewrite read_move_rejects by assumption. intros Hr.
      destruct (IH _ _ _ _ _ Hr)
        as (skipped & l & m & -> & Hskip & Hp & Hl & -> & ->).
      exists (line :: skipped), l, m. repeat split; auto.
      cbn [flat_map]. now rewrite <- !app_assoc.
  - assert (Hrej : rejected from_uci strip is_legal board line)
      by (unfold rejected; now rewrite Hparse).
    rewrite read_move_rejects by assumption. intros Hr.
    destruct (IH _ _ _ _ _ Hr)
      as (skipped & l & m & -> & Hskip & Hp & Hl & -> & ->).
    exists (line :: skipped), l, m. repeat split; auto.
    cbn [flat_map]. now rewrite <- !app_assoc.
Qed.

(** The reply of the computer, with the board behaving as python-chess
    does. *)
Lemma computer_turn_reply (board : Board) (out : list printed) :
  pop_undoes_push -> game_over_when_stuck ->
  is_game_over board = false ->
  exists s move,
    full_negamax model 2 board = (s, Some move)
    /\ move ∈ legal_moves board
    /\ computer_turn model board out
       = Returned (push board move, out ++ [Thinking; ComputerPlays move]).
Proof.
  intros Hpop Hstuck Hover.
  pose proof (negamax_fuel_returns model 3 board NegInf PosInf 2 Hpop
                ltac:(lia) ltac:(simpl; lia)) as Hr.
  rewrite alphabeta_full_window in Hr.
  change (Z.to_nat 2) with 2%nat in Hr.
  destruct (full_negamax model 2 board) as [s mv] eqn:Hfull.
  destruct (negamax_fuel_finite model 3 Hstuck _ _ _ _ _ _ _ Hr) as [_ Hmv].
  destruct mv as [move|].
  - exists s, move. split; [reflexivity|].
    split; [eapply negamax_fuel_move_legal; eassumption|].
    unfold computer_turn. rewrite Hr. now rewrite <- app_assoc.
  - destruct (Hmv eq_refl) as [E|E]; [discriminate|congruence].
Qed.

Lemma computer_turn_fuel (board : Board) (out : list printed) :
  computer_turn model board out <> OutOfFuel.
Proof.
  unfold computer_turn.
  pose proof (negamax_fuel_enough model 2 3 board NegInf PosInf
                ltac:(lia)) as Hfuel.
  change (Z.of_nat 2) with 2 in Hfuel.
  destruct (negamax_fuel model 3 board NegInf PosInf 2)
    as [[[s [move|]] board']| |]; try discriminate. contradiction.
Qed.

(** What a pass of the computer did when it returns, if [pop] undoes
    [push]. *)
Lemma computer_turn_returned (board : Board) (out : list printed)
    (board' : Board) (out' : list printed) :
  pop_undoes_push ->
  computer_turn model board out = Returned (board', out') ->
  exists move, move ∈ legal_moves board /\ board' = push board move.
Proof.
  intros Hpop. unfold computer_turn.
  destruct (negamax_fuel model 3 board NegInf PosInf 2)
    as [[[s [move|]] board2]| |] eqn:Hr; try discriminate.
  intros Heq. inversion Heq; subst.
  pose proof (negamax_fuel_board model 3 Hpop _ _ _ _ _ _ Hr). subst board2.
  exists move. split; [|reflexivity].
  eapply negamax_fuel_move_legal. eassumption.
Qed.

End GameLoopProperties.

Section GameLoopGuarantees.
Context {Board Move : Type} `{!ChessEngine Board Move}.
Variable model : list pyval -> Z.
Variable from_uci : string -> option Move.
Variable strip : string -> string.
Variable is_legal : Board -> Move -> bool.

Lemma read_move_fuel (lines : list string) :
  forall board out, read_move from_uci strip is_legal lines board out <> OutOfFuel.
Proof.
  induction lines as [|line lines IH]; intros board out; [discriminate|].
  cbn [read_move]. destruct (from_uci (strip line)) as [move|]; [|apply IH].
  destruct (is_legal board move); [discriminate|apply IH].
Qed.

(** X12: the inner loop plays the first input line that parses to a move
    passing the legality test of line 217, [board.is_legal].  The lines
    before it, each of which either does not parse or names a move that
    fails the test, leave the board as it is and are answered by the prompt
    and the matching message; the lines after it are left unread. *)
Theorem read_move_plays_first_legal_line (skipped : list string)
    (line : string) (rest : list string) (move : Move) (board : Board)
    (out : list printed) :
  Forall (rejected from_uci strip is_legal board) skipped ->
  from_uci (strip line) = Some move ->
  is_legal board move = true ->
  read_move from_uci strip is_legal (skipped ++ line :: rest) board out
  = Returned (push board move, rest,
              out ++ flat_map (reply_to from_uci strip) skipped
                  ++ [Prompted]).
Proof. apply read_move_accepts. Qed.

(** X13: when the game is not over and none of the remaining input lines
    parses to a move passing [board.is_legal] on the position (in
    particular when there is no input left), the program ends with the
    exception of [input], however many rounds it is given: a rejected line
    never changes the board, so no later line is read against another
    position. *)
Theorem play_raises_without_legal_input (rounds : nat) (w : world) :
  is_game_over (position w) = false ->
  Forall (rejected from_uci strip is_legal (position w)) (unread w) ->
  play model from_uci strip is_legal (S rounds) w = Raised.
Proof.
  intros Hover Hall. cbn [play]. rewrite Hover.
  now rewrite read_move_starves.
Qed.

(** X14: on a position where the game is not over, with the board behaving
    as python-chess does, the reply of the computer is the move of the
    full-width search of depth 2: it is legal, it is pushed onto the board,
    and the two messages are printed. *)
Theorem computer_plays_full_search_move (board : Board)
    (out : list printed) :
  pop_undoes_push -> game_over_when_stuck ->
  is_game_over board = false ->
  exists s move,
    full_negamax model 2 board = (s, Some move)
    /\ move ∈ legal_moves board
    /\ computer_turn model board out
       = Returned (push board move, out ++ [Thinking; ComputerPlays move]).
Proof. apply computer_turn_reply. Qed.

(** X15: the game loop ends: a run that is given more rounds than there
    are input lines never runs out of them, since every round reads at
    least one line.  When it ends normally the game is over on the final
    board, the unread input is a suffix of the input, and the last things
    printed are the final board and the result. *)
Theorem play_ends_at_game_over (rounds : nat) (w : world) :
  (length (unread w) < rounds)%nat ->
  play model from_uci strip is_legal rounds w <> OutOfFuel
  /\ forall w',
       play model from_uci strip is_legal rounds w = Returned w' ->
       is_game_over (position w') = true
       /\ unread w' `suffix_of` unread w
       /\ exists out,
            output w'
            = out ++ [Shown (position w'); GameOver (position w')].
Proof.
  revert w. induction rounds as [|rounds IH]; intros w Hlen; [lia|].
  cbn [play]. destruct (is_game_over (position w)) eqn:Hover.
  { split; [discriminate|]. intros w' Heq. inversion Heq; subst.
    cbn. split; [assumption|]. split; [reflexivity|]. now eexists. }
  destruct (read_move from_uci strip is_legal (unread w) (position w) _)
    as [[[board lines] out]| |] eqn:Hread.
  - destruct (read_move_returned _ _ _ _ _ _ _ _ _ Hread)
      as (skipped & l & m & Hlines & _).
    assert (Hsuffix : lines `suffix_of` unread w).
    { exists (skipped ++ [l]). rewrite Hlines, <- app_assoc. reflexivity. }
    destruct (is_game_over board) eqn:Hover2.
    { split; [discriminate|]. intros w' Heq. inversion Heq; subst.
      cbn. split; [assumption|]. split; [assumption|]. now eexists. }
    destruct (computer_turn model board out) as [[board2 out2]| |] eqn:Hc.
    + destruct (IH (mkWorld board2 lines out2 (Some board2))) as [Hne Hret].
      { cbn. rewrite Hlines, length_app in Hlen. cbn in Hlen. lia. }
      split; [assumption|]. intros w' Hw'.
      destruct (Hret w' Hw') as (Hend & Hsuf & Hout).
      split; [assumption|]. split; [|assumption].
      cbn in Hsuf. etransitivity; eassumption.
    + split; [discriminate|]. intros w'; discriminate.
    + exfalso. eapply computer_turn_fuel. eassumption.
  - split; [discriminate|]. intros w'; discriminate.
  - exfalso. eapply read_move_fuel. eassumption.
Qed.

(** X16: the program only ever pushes moves that pass the legality test:
    with [pop] undoing [push], and every move the generator lists passing
    [is_legal], the final board of a run that ends normally is reached from
    the first one by a sequence of moves, each of which passed [is_legal]
    on the board it was pushed on.  The user's moves are tested by line 217
    itself; the replies of the computer come out of the list of legal
    moves. *)
Theorem play_makes_legal_moves (rounds : nat) (w w' : world) :
  pop_undoes_push ->
  legal_moves_are_legal is_legal ->
  play model from_uci strip is_legal rounds w = Returned w' ->
  exists moves, played is_legal (position w) moves (position w').
Proof.
  intros Hpop Hgen. revert w. induction rounds as [|rounds IH]; intros w;
    [discriminate|].
  cbn [play]. destruct (is_game_over (position w)) eqn:Hover.
  { intros Heq. inversion Heq; subst. exists []. cbn. constructor. }
  destruct (read_move from_uci strip is_legal (unread w) (position w) _)
    as [[[board lines] out]| |] eqn:Hread; try discriminate.
  destruct (read_move_returned _ _ _ _ _ _ _ _ _ Hread)
    as (skipped & l & m & _ & _ & _ & Hlegal & -> & _).
  destruct (is_game_over (push (position w) m)) eqn:Hover2.
  { intros Heq. inversion Heq; subst. exists [m]. cbn.
    econstructor; [eassumption|constructor]. }
  destruct (computer_turn model (push (position w) m) out)
    as [[board2 out2]| |] eqn:Hc; try discriminate.
  destruct (computer_turn_returned _ _ _ _ _ Hpop Hc)
    as (reply & Hreply & ->).
  intros Hplay. destruct (IH _ Hplay) as [moves Hmoves]. cbn in Hmoves.
  exists (m :: reply :: moves).
  econstructor; [eassumption|].
  econstructor; [apply Hgen; assumption|assumption].
Qed.

(** X17: [board.svg] shows the final position whenever a move was played:
    after a run that started with the game not over and ends normally, the
    file holds the final board.  When the game is over from the start the
    file is not written at all. *)
Theorem play_leaves_final_board_in_file (rounds : nat) (w w' : world) :
  play model from_uci strip is_legal rounds w = Returned w' ->
  (is_game_over (position w) = false -> svg_file w' = Some (position w'))
  /\ (is_game_over (position w) = true ->
      svg_file w' = svg_file w /\ position w' = position w
      /\ unread w' = unread w).
Proof.
  assert (Hfile : forall n v v',
             play model from_uci strip is_legal n v = Returned v' ->
             svg_file v = Some (position v) ->
             svg_file v' = Some (position v')).
  { induction n as [|n IH]; intros v v'; [discriminate|].
    cbn [play]. destruct (is_game_over (position v)).
    { intros Heq Hv. inversion Heq; subst. exact Hv. }
    destruct (read_move from_uci strip is_legal (unread v) (position v) _)
      as [[[board lines] out]| |]; try discriminate.
    destruct (is_game_over board).
    { intros Heq _. inversion Heq; subst. reflexivity. }
    destruct (computer_turn model board out) as [[board2 out2]| |];
      try discriminate.
    intros Hplay _. apply (IH _ _ Hplay). reflexivity. }
  destruct rounds as [|rounds]; [discriminate|].
  cbn [play]. destruct (is_game_over (position w)) eqn:Hover.
  { intros Heq. inversion Heq; subst. split; [discriminate|].
    intros _. repeat split. }
  destruct (read_move from_uci strip is_legal (unread w) (position w) _)
    as [[[board lines] out]| |]; try discriminate.
  destruct (is_game_over board).
  { intros Heq. inversion Heq; subst. split; [reflexivity|discriminate]. }
  destruct (computer_turn model board out) as [[board2 out2]| |];
    try discriminate.
  intros Hplay. split; [|discriminate]. intros _.
  apply (Hfile _ _ _ Hplay). reflexivity.
Qed.

End GameLoopGuarantees.

(** ** The sample game as an instance of the further properties *)

(** The window (0, 3) lies below the value 4 of the sample position: the
    call returns a score between 3 and 4. *)
Lemma negamax_result_within_window_sample :
  pop_undoes_push (Board := sample_board)
  /\ score_lt (Fin 0) (Fin 3)
  /\ 0 <= 2
  /\ (Z.to_nat 2 < 3)%nat
  /\ exists r,
       negamax_fuel sample_model 3 sample_start (Fin 0) (Fin 3) 2
       = Returned (r, sample_start)
       /\ let t := full_negamax sample_model (Z.to_nat 2) sample_start in
          (score_lt (Fin 0) (fst t) -> score_le (fst t) (Fin 3) -> r = t)
          /\ (score_le (fst t) (Fin 0) ->
              score_le (fst t) (fst r) /\ score_le (fst r) (Fin 0))
          /\ (score_lt (Fin 3) (fst t) ->
              score_le (Fin 3) (fst r) /\ score_le (fst r) (fst t)).
Proof.
  assert (Hwin : score_lt (Fin 0) (Fin 3)) by reflexivity.
  assert (Hd : 0 <= 2) by lia.
  assert (Hfuel : (Z.to_nat 2 < 3)%nat) by (simpl; lia).
  split; [exact sample_pop_undoes_push|].
  split; [exact Hwin|]. split; [exact Hd|]. split; [exact Hfuel|].
  exact (negamax_result_within_window sample_model 3 sample_start
           (Fin 0) (Fin 3) 2 sample_pop_undoes_push Hwin Hd Hfuel).
Defined.

Lemma negamax_score_is_finite_sample :
  game_over_when_stuck (Board := sample_board)
  /\ (forall s mv board',
        negamax_fuel sample_model 3 sample_start NegInf PosInf 2
        = Returned ((s, mv), board') ->
        exists x, s = Fin x)
  /\ (pop_undoes_push (Board := sample_board) ->
      0 <= 2 -> (Z.to_nat 2 < 3)%nat ->
      exists x mv,
        negamax_fuel sample_model 3 sample_start NegInf PosInf 2
        = Returned ((Fin x, mv), sample_start)).
Proof.
  split; [exact sample_game_over_when_stuck|].
  exact (negamax_score_is_finite sample_model 3 sample_start NegInf PosInf 2
           sample_game_over_when_stuck).
Defined.

Lemma negamax_top_level_examines_all_moves_sample :
  pop_undoes_push (Board := sample_board)
  /\ game_over_when_stuck (Board := sample_board)
  /\ score_lt NegInf PosInf
  /\ 1 <= 2
  /\ (Z.to_nat 2 < 3)%nat
  /\ is_game_over sample_start = false
  /\ fst <$> examined (snd (negamax_obs sample_model 3 sample_start
                                        NegInf PosInf 2))
     = legal_moves sample_start.
Proof.
  assert (Halpha : score_lt NegInf PosInf) by reflexivity.
  assert (Hd : 1 <= 2) by lia.
  assert (Hfuel : (Z.to_nat 2 < 3)%nat) by (simpl; lia).
  assert (Hover : is_game_over sample_start = false) by reflexivity.
  split; [exact sample_pop_undoes_push|].
  split; [exact sample_game_over_when_stuck|].
  split; [exact Halpha|]. split; [exact Hd|]. split; [exact Hfuel|].
  split; [exact Hover|].
  exact (negamax_top_level_examines_all_moves sample_model 3 sample_start
           NegInf 2 sample_pop_undoes_push sample_game_over_when_stuck
           Halpha Hd Hfuel Hover).
Defined.

(** With the window (0, 3) the search of the sample position makes 4 calls;
    its game tree of depth 2 has 7 positions. *)
Lemma negamax_calls_at_most_game_tree_sample :
  pop_undoes_push (Board := sample_board)
  /\ 0 <= 2
  /\ length (calls (snd (negamax_obs sample_model 3 sample_start
                                     (Fin 0) (Fin 3) 2))) = 4%nat
  /\ game_tree_size (Z.to_nat 2) sample_start = 7%nat
  /\ (length (calls (snd (negamax_obs sample_model 3 sample_start
                                      (Fin 0) (Fin 3) 2)))
      <= game_tree_size (Z.to_nat 2) sample_start)%nat.
Proof.
  assert (Hd : 0 <= 2) by lia.
  split; [exact sample_pop_undoes_push|]. split; [exact Hd|].
  split; [reflexivity|]. split; [reflexivity|].
  exact (negamax_calls_at_most_game_tree sample_model 3 sample_start
           (Fin 0) (Fin 3) 2 sample_pop_undoes_push Hd).
Defined.

Lemma placement_entries_mirror_sample :
  mirrored sample_start sample_mirror
  /\ exists features features',
       extract_features sample_start = Some features
       /\ extract_features sample_mirror = Some features'
       /\ Forall (fun ij : nat * nat => features !! ij.1 = features' !! ij.2)
                 [ (0, 1); (1, 0); (3, 4); (4, 3); (5, 6); (6, 5); (7, 8);
                   (8, 7); (9, 10); (10, 9); (11, 12); (12, 11); (20, 21);
                   (21, 20); (22, 23); (23, 22); (26, 26); (27, 27); (28, 29);
                   (29, 28); (30, 30); (33, 34); (34, 33) ]%nat
       /\ exists t, features !! 19%nat = Some (PyInt t)
                    /\ features' !! 19%nat = Some (PyInt (1 - t)).
Proof.
  assert (Hm : mirrored sample_start sample_mirror).
  { split; [|reflexivity]. unfold SQUARES. repeat constructor. }
  split; [exact Hm|].
  exact (placement_entries_mirror sample_start sample_mirror Hm).
Defined.

Lemma extract_features_empty_board_sample :
  (forall sq, sq ∈ SQUARES -> piece_at sample_empty sq = None)
  /\ extract_features sample_empty
     = Some ((PyInt <$> [0; 0; 0; 0; 0; 0; 0; 0; 0; 0; 0; 0; 0;
                         0; 0; 0; 0])
             ++ [PyNone; PyNone]
             ++ (PyInt <$> [1; 0; 0; 0; 0; 2; 1;
                            0; 0; 0; 0; 8; 0; 0; 0; 0; 0; 0])).
Proof.
  assert (Hempty : forall sq, sq ∈ SQUARES -> piece_at sample_empty sq = None)
    by (intros sq _; reflexivity).
  split; [exact Hempty|].
  exact (extract_features_empty_board sample_empty Hempty).
Defined.

Lemma sample_rejected_lines :
  Forall (rejected sample_from_uci sample_strip sample_is_legal sample_start)
         ["e2e4"; "3"]%string.
Proof. repeat constructor. Qed.

Lemma sample_legal_moves_are_legal : legal_moves_are_legal sample_is_legal.
Proof.
  intros [pieces first moves] move Hin. unfold sample_is_legal. cbn [line].
  change (legal_moves (mkSample pieces first moves))
    with (if (length moves <? 2)%nat then [0%nat; 1%nat] else []) in Hin.
  destruct (length moves <? 2)%nat; [|inversion Hin].
  cbn [andb]. apply Nat.ltb_lt.
  repeat (apply elem_of_cons in Hin; destruct Hin as [-> | Hin]; [lia|]).
  inversion Hin.
Qed.

(** ["e2e4"] does not parse and ["3"] fails the legality test; ["2"] is
    played, a move that passes the test although the generator does not
    list it. *)
Lemma read_move_plays_first_legal_line_sample :
  Forall (rejected sample_from_uci sample_strip sample_is_legal sample_start)
         ["e2e4"; "3"]%string
  /\ sample_from_uci (sample_strip "2") = Some 2%nat
  /\ sample_is_legal sample_start 2%nat = true
  /\ (2%nat ∉ legal_moves sample_start)
  /\ read_move sample_from_uci sample_strip sample_is_legal
               (["e2e4"; "3"]%string ++ "2"%string :: ["0"; "zz"]%string)
               sample_start []
     = Returned (push sample_start 2%nat, ["0"; "zz"]%string,
                 [] ++ [Prompted; InvalidFormat; Prompted; IllegalMove]
                    ++ [Prompted]).
Proof.
  assert (Hparse : sample_from_uci (sample_strip "2") = Some 2%nat)
    by reflexivity.
  assert (Hlegal : sample_is_legal sample_start 2%nat = true)
    by reflexivity.
  split; [exact sample_rejected_lines|].
  split; [exact Hparse|]. split; [exact Hlegal|].
  split; [apply (bool_decide_unpack _); reflexivity|].
  exact (read_move_plays_first_legal_line sample_from_uci sample_strip
           sample_is_legal ["e2e4"; "3"]%string "2" ["0"; "zz"]%string
           2%nat sample_start [] sample_rejected_lines Hparse Hlegal).
Defined.

Lemma play_raises_without_legal_input_sample :
  is_game_over sample_start = false
  /\ Forall (rejected sample_from_uci sample_strip sample_is_legal
                      sample_start)
            ["e2e4"; "3"]%string
  /\ play sample_model sample_from_uci sample_strip sample_is_legal 5
          (mkWorld sample_start ["e2e4"; "3"]%string [] None)
     = Raised.
Proof.
  assert (Hover : is_game_over sample_start = false) by reflexivity.
  split; [exact Hover|]. split; [exact sample_rejected_lines|].
  exact (play_raises_without_legal_input sample_model sample_from_uci
           sample_strip sample_is_legal 4
           (mkWorld sample_start ["e2e4"; "3"]%string [] None)
           Hover sample_rejected_lines).
Defined.

Lemma computer_plays_full_search_move_sample :
  pop_undoes_push (Board := sample_board)
  /\ game_over_when_stuck (Board := sample_board)
  /\ is_game_over sample_start = false
  /\ exists s move,
       full_negamax sample_model 2 sample_start = (s, Some move)
       /\ move ∈ legal_moves sample_start
       /\ computer_turn sample_model sample_start []
          = Returned (push sample_start move,
                      [] ++ [Thinking; ComputerPlays move]).
Proof.
  assert (Hover : is_game_over sample_start = false) by reflexivity.
  split; [exact sample_pop_undoes_push|].
  split; [exact sample_game_over_when_stuck|]. split; [exact Hover|].
  exact (computer_plays_full_search_move sample_model sample_start []
           sample_pop_undoes_push sample_game_over_when_stuck Hover).
Defined.

(** The sample game is over after the move [2] of the user and the reply
    [0]; two lines of input are left. *)
Lemma sample_game :
  play sample_model sample_from_uci sample_strip sample_is_legal 6
       sample_world
  = Returned
      (mkWorld (push (push sample_start 2%nat) 0%nat) ["0"; "zz"]%string
         [ Shown sample_start; AskMove; Prompted; InvalidFormat; Prompted;
           IllegalMove; Prompted; Thinking; ComputerPlays 0%nat;
           Shown (push (push sample_start 2%nat) 0%nat);
           GameOver (push (push sample_start 2%nat) 0%nat) ]
         (Some (push (push sample_start 2%nat) 0%nat))).
Proof. reflexivity. Qed.

Lemma play_ends_at_game_over_sample :
  (length (unread sample_world) < 6)%nat
  /\ play sample_model sample_from_uci sample_strip sample_is_legal 6
          sample_world
     <> OutOfFuel
  /\ forall w',
       play sample_model sample_from_uci sample_strip sample_is_legal 6
            sample_world
       = Returned w' ->
       is_game_over (position w') = true
       /\ unread w' `suffix_of` unread sample_world
       /\ exists out,
            output w'
            = out ++ [Shown (position w'); GameOver (position w')].
Proof.
  assert (Hlen : (length (unread sample_world) < 6)%nat) by (simpl; lia).
  split; [exact Hlen|].
  exact (play_ends_at_game_over sample_model sample_from_uci sample_strip
           sample_is_legal 6 sample_world Hlen).
Defined.

Lemma play_makes_legal_moves_sample :
  pop_undoes_push (Board := sample_board)
  /\ legal_moves_are_legal sample_is_legal
  /\ play sample_model sample_from_uci sample_strip sample_is_legal 6
          sample_world
     = Returned
         (mkWorld (push (push sample_start 2%nat) 0%nat) ["0"; "zz"]%string
            [ Shown sample_start; AskMove; Prompted; InvalidFormat; Prompted;
              IllegalMove; Prompted; Thinking; ComputerPlays 0%nat;
              Shown (push (push sample_start 2%nat) 0%nat);
              GameOver (push (push sample_start 2%nat) 0%nat) ]
            (Some (push (push sample_start 2%nat) 0%nat)))
  /\ exists moves,
       played sample_is_legal sample_start moves
              (push (push sample_start 2%nat) 0%nat).
Proof.
  split; [exact sample_pop_undoes_push|].
  split; [exact sample_legal_moves_are_legal|]. split; [exact sample_game|].
  exact (play_makes_legal_moves sample_model sample_from_uci sample_strip
           sample_is_legal 6 sample_world _ sample_pop_undoes_push
           sample_legal_moves_are_legal sample_game).
Defined.

Lemma play_leaves_final_board_in_file_sample :
  play sample_model sample_from_uci sample_strip sample_is_legal 6
       sample_world
  = Returned
      (mkWorld (push (push sample_start 2%nat) 0%nat) ["0"; "zz"]%string
         [ Shown sample_start; AskMove; Prompted; InvalidFormat; Prompted;
           IllegalMove; Prompted; Thinking; ComputerPlays 0%nat;
           Shown (push (push sample_start 2%nat) 0%nat);
           GameOver (push (push sample_start 2%nat) 0%nat) ]
         (Some (push (push sample_start 2%nat) 0%nat)))
  /\ is_game_over sample_start = false
  /\ Some (push (push sample_start 2%nat) 0%nat)
     = Some (push (push sample_start 2%nat) 0%nat).
Proof.
  split; [exact sample_game|]. split; [reflexivity|].
  exact (proj1 (play_leaves_final_board_in_file sample_model sample_from_uci
                  sample_strip sample_is_legal 6 sample_world _ sample_game)
               eq_refl).
Defined.
